(** * Rule-based intent recognition: a shallow embedding and its properties

  The development embeds the rule-based intent recognition chain of
  [learningPath/week04/p17-rule_base-intent_recognition/intent_recognition/core]
  (models.py, regex_matcher.py, keyword_matcher.py, slot_filler.py,
  rule_engine.py) and the trigger gate of [ExcelIntentRecognizer.parse]
  (ai-test-project/rule_base/xw_intent_parse.py).

  Conventions:
  - a Python [str] is the list of its Unicode code points;
  - a Python [float] is a binary64 value, Rocq's primitive [float];
  - a [dict] whose iteration order matters is an association list in
    insertion order; a [dict] that is only looked up is a [gmap];
  - a call that may raise returns a [pyresult]. *)

From Stdlib Require Import ZArith NArith Ascii String Floats.
From stdpp Require Import base option list gmap.

Local Open Scope N_scope.

(** ** Python values *)

Module Py.

(** A [str]: the sequence of its code points. *)
Abbreviation str := (list N).

Fixpoint bytes_of (s : string) : list N :=
  match s with
  | EmptyString => []
  | String a s' => N_of_ascii a :: bytes_of s'
  end.

(** The continuation bits of a UTF-8 byte. *)
Definition cont (b : N) : N := N.land b 63.

(** UTF-8 decoding of the bytes of a source literal. *)
Fixpoint utf8_decode (bs : list N) : str :=
  match bs with
  | [] => []
  | b0 :: r0 =>
      if b0 <? 128 then b0 :: utf8_decode r0
      else if b0 <? 224 then
        match r0 with
        | b1 :: r1 => (N.shiftl (N.land b0 31) 6 + cont b1) :: utf8_decode r1
        | _ => []
        end
      else if b0 <? 240 then
        match r0 with
        | b1 :: b2 :: r2 =>
            (N.shiftl (N.land b0 15) 12 + N.shiftl (cont b1) 6 + cont b2)
              :: utf8_decode r2
        | _ => []
        end
      else
        match r0 with
        | b1 :: b2 :: b3 :: r3 =>
            (N.shiftl (N.land b0 7) 18 + N.shiftl (cont b1) 12
             + N.shiftl (cont b2) 6 + cont b3) :: utf8_decode r3
        | _ => []
        end
  end.

(** [u "..."] is the [str] written by a literal of this file. *)
Definition u (s : string) : str := utf8_decode (bytes_of s).

(** [s.startswith(p)]. *)
Fixpoint starts_with (p s : str) : bool :=
  match p, s with
  | [], _ => true
  | _ :: _, [] => false
  | c :: p', d :: s' => (c =? d) && starts_with p' s'
  end.

(** [w in text] on two [str]: [w] occurs as a contiguous substring. *)
Fixpoint str_contains (w text : str) : bool :=
  starts_with w text
  || match text with
     | [] => false
     | _ :: t => str_contains w t
     end.

Fixpoint digits_of (fuel : nat) (n : N) (acc : str) : str :=
  match fuel with
  | O => acc
  | S fuel' =>
      let acc' := (48 + n mod 10) :: acc in
      if n / 10 =? 0 then acc' else digits_of fuel' (n / 10) acc'
  end.

(** The decimal digits of [n]; there are at most as many as bits. *)
Definition str_of_N (n : N) : str := digits_of (S (N.to_nat (N.size n))) n [].

(** [str(i)] for a non-negative [int], as an f-string renders it. *)
Definition str_of_nat (i : nat) : str := str_of_N (N.of_nat i).

(** The integer nearest to [num / den], ties to even ([0 <= num],
    [0 < den]). *)
Definition round_half_even (num den : Z) : Z :=
  let q := (num / den)%Z in
  match (2 * (num mod den) ?= den)%Z with
  | Lt => q
  | Gt => (q + 1)%Z
  | Eq => if Z.even q then q else (q + 1)%Z
  end.

(** [m * 2^e] in hundredths, correctly rounded. *)
Definition hundredths (m : positive) (e : Z) : Z :=
  if (0 <=? e)%Z then (100 * Z.pos m * 2 ^ e)%Z
  else round_half_even (100 * Z.pos m) (2 ^ (- e)).

Definition sign_str (s : bool) : str := if s then [45] else [].

(** [f"{x:.2f}"]: two digits after the point, the exact binary value
    rounded half to even. *)
Definition format_2f (x : float) : str :=
  match Prim2SF x with
  | S754_nan => [110; 97; 110]
  | S754_infinity s => sign_str s ++ [105; 110; 102]
  | S754_zero s => sign_str s ++ [48; 46; 48; 48]
  | S754_finite s m e =>
      let n := Z.to_N (hundredths m e) in
      sign_str s ++ str_of_N (n / 100)
        ++ [46; 48 + (n / 10) mod 10; 48 + n mod 10]
  end.

(** The values a caller may put into an open [dict]. *)
Inductive pyval :=
| PyNone
| PyBool (b : bool)
| PyInt (z : Z)
| PyFloat (f : float)
| PyStr (s : str).

(** Truth value testing ([bool(v)], [not v], [if v]). *)
Definition truthy (v : pyval) : bool :=
  match v with
  | PyNone => false
  | PyBool b => b
  | PyInt z => negb (z =? 0)%Z
  | PyFloat f => negb (f =? 0)%float
  | PyStr s => negb (bool_decide (s = []))
  end.

(** [d.get(k, default)]. *)
Definition dict_get (d : gmap str pyval) (k : str) (default : pyval) : pyval :=
  match d !! k with
  | Some v => v
  | None => default
  end.

Inductive exn :=
| TypeError
| IndexError
| ValueError
| AttributeError.

(** The outcome of a call: a value, or a raised exception. *)
Inductive pyresult (A : Type) :=
| Ok (a : A)
| Raise (e : exn).
Arguments Ok {A} a.
Arguments Raise {A} e.

(** Sequencing: an exception raised by the first call propagates. *)
#[global] Instance pyresult_bind : MBind pyresult := λ A B f x,
  match x with
  | Ok a => f a
  | Raise e => Raise e
  end.

(** [min(a, b)] on floats: the first argument unless the second is
    strictly smaller. *)
Definition py_min (a b : float) : float :=
  if (b <? a)%float then b else a.

Section Max.
Context {A : Type} (key : A → float).

(** [max(seq, key=key)] on a non-empty sequence [best :: xs]: the
    running maximum is replaced only by a strictly greater item. *)
Fixpoint py_max_from (best : A) (xs : list A) : A :=
  match xs with
  | [] => best
  | x :: xs' =>
      py_max_from (if (key best <? key x)%float then x else best) xs'
  end.

End Max.

End Py.

Import Py.



(** ** Regular expressions

    The [re] module is outside the repository.  [Re] models its
    backtracking matcher for the constructs that the patterns of the
    source use: literals, [.], [\d], grouping, alternation and the
    greedy and lazy repetitions. *)

Module Re.

Inductive regex :=
| Eps
| Lit (c : N)
| Dot
| Digit
| Seq (r1 r2 : regex)
| Alt (r1 r2 : regex)
| Repeat (greedy : bool) (lo : nat) (hi : option nat) (r : regex)
| Group (n : nat) (r : regex).

(** The code point of digit zero of every run of ten decimal digits
    (Unicode category Nd), which is what [\d] matches in a [str]
    pattern. *)
Definition decimal_zeros : list N :=
  [48; 1632; 1776; 1984; 2406; 2534; 2662; 2790; 2918; 3046; 3174; 3302;
   3430; 3558; 3664; 3792; 3872; 4160; 4240; 6112; 6160; 6470; 6608; 6784;
   6800; 6992; 7088; 7232; 7248; 42528; 43216; 43264; 43472; 43504; 43600;
   44016; 65296; 66720; 68912; 69734; 69872; 69942; 70096; 70384; 70736;
   70864; 71248; 71360; 71472; 71904; 72016; 72784; 73040; 73120; 92768;
   92864; 93008; 120782; 120792; 120802; 120812; 120822; 123200; 123632;
   125264; 130032].

Definition is_decimal (c : N) : bool :=
  existsb (λ z, (z <=? c) && (c <? z + 10)) decimal_zeros.

(** The captures of groups 1, 2, ...: [None] for a group that did not
    take part in the match. *)
Abbreviation captures := (list (option str)).

(** The prefix of [s] consumed when [s'] is what remains. *)
Definition consumed (s s' : str) : str := take (length s - length s') s.

Definition set_capture (n : nat) (v : str) (cs : captures) : captures :=
  <[pred n := Some v]> cs.

Definition below (hi : option nat) (count : nat) : bool :=
  match hi with
  | None => true
  | Some h => (count <? h)%nat
  end.

Section Match.
Context {A : Type}.

(** The iterations of a repetition of [body], [count] of them done:
    [lo] are mandatory, then as many as [hi] allows are tried,
    greedily before the continuation [k] or lazily after it; past
    [lo], an iteration that consumes nothing is the last one.  At
    most [lo + length s] iterations can follow, which bounds [fuel]. *)
Fixpoint repeat_loop
    (body : str → captures → (str → captures → option A) → option A)
    (greedy : bool) (lo : nat) (hi : option nat)
    (k : str → captures → option A)
    (fuel count : nat) (s : str) (cs : captures) {struct fuel} : option A :=
  match fuel with
  | O => None
  | S fuel' =>
      let again (progress : bool) :=
        body s cs (λ s' cs',
          if progress && (length s' =? length s)%nat then k s' cs'
          else repeat_loop body greedy lo hi k fuel' (S count) s' cs') in
      if (count <? lo)%nat then again false
      else if below hi count then
        if greedy then
          match again true with
          | Some x => Some x
          | None => k s cs
          end
        else
          match k s cs with
          | Some x => Some x
          | None => again true
          end
      else k s cs
  end.

(** [rmatch r s cs k]: match [r] at the head of [s], then continue
    with [k] on what remains; alternatives are tried in the order of
    the backtracking matcher. *)
Fixpoint rmatch (r : regex) (s : str) (cs : captures)
    (k : str → captures → option A) {struct r} : option A :=
  match r with
  | Eps => k s cs
  | Lit c =>
      match s with
      | d :: s' => if c =? d then k s' cs else None
      | [] => None
      end
  | Dot =>
      match s with
      | d :: s' => if d =? 10 then None else k s' cs
      | [] => None
      end
  | Digit =>
      match s with
      | d :: s' => if is_decimal d then k s' cs else None
      | [] => None
      end
  | Seq r1 r2 => rmatch r1 s cs (λ s' cs', rmatch r2 s' cs' k)
  | Alt r1 r2 =>
      match rmatch r1 s cs k with
      | Some x => Some x
      | None => rmatch r2 s cs k
      end
  | Group n r' =>
      rmatch r' s cs (λ s' cs', k s' (set_capture n (consumed s s') cs'))
  | Repeat greedy lo hi r' =>
      repeat_loop (rmatch r') greedy lo hi k (S (lo + length s)) O s cs
  end.
End Match.

(** The number of capture groups of a pattern. *)
Fixpoint ngroups (r : regex) : nat :=
  match r with
  | Eps | Lit _ | Dot | Digit => 0
  | Seq r1 r2 | Alt r1 r2 => ngroups r1 `max` ngroups r2
  | Repeat _ _ _ r' => ngroups r'
  | Group n r' => n `max` ngroups r'
  end.

(** A match object: the whole match and the captures. *)
Record Match := mkMatch {
  group0 : str;
  groups : list (option str)
}.

(** [match.group(1)]: [IndexError] when the pattern has no group. *)
Definition group1 (m : Match) : pyresult (option str) :=
  match groups m with
  | g :: _ => Ok g
  | [] => Raise IndexError
  end.

Fixpoint search_from (r : regex) (s : str) : option Match :=
  match rmatch r s (replicate (ngroups r) None) (λ s' cs, Some (s', cs)) with
  | Some (s', cs) => Some (mkMatch (consumed s s') cs)
  | None =>
      match s with
      | [] => None
      | _ :: s' => search_from r s'
      end
  end.

(** [re.search(pattern, text)]: the leftmost match, or [None]. *)
Definition search (r : regex) (text : str) : option Match :=
  search_from r text.

(** [re.match(pattern, text)]: a match at the start of the text, or
    [None]. *)
Definition match_ (r : regex) (text : str) : option Match :=
  match
    rmatch r text (replicate (ngroups r) None) (λ s' cs, Some (s', cs))
  with
  | Some (s', cs) => Some (mkMatch (consumed text s') cs)
  | None => None
  end.

(** A set of characters [[...]] of a pattern, as the alternation of
    its members, [c] the last of them. *)
Definition one_of (cs : list N) (c : N) : regex :=
  foldr (λ d r, Alt (Lit d) r) (Lit c) cs.

(** *** The flag [re.IGNORECASE]

    With the flag, the compiler of [re] leaves a literal that is not
    cased as it is, and makes a cased literal match every character
    whose lower case is the lower case of the literal or one of its
    extra cases.  The three tables are those of CPython 3.11 (Unicode
    14.0): [_sre.unicode_tolower], [_sre.unicode_iscased] and
    [re._casefix._EXTRA_CASES]. *)

(** The lower-case mapping, in runs [(first, count, stride, lower)]: the
    code point [first + i * stride], for [i < count], has the lower case
    [lower + i * stride]; every other code point is its own lower case. *)
Definition lower_runs : list (N * N * N * N) :=
  [(65, 26, 1, 97); (192, 23, 1, 224); (216, 7, 1, 248); (256, 24, 2, 257);
   (304, 1, 1, 105); (306, 3, 2, 307); (313, 8, 2, 314); (330, 23, 2, 331);
   (376, 1, 1, 255); (377, 3, 2, 378); (385, 1, 1, 595); (386, 2, 2, 387);
   (390, 1, 1, 596); (391, 1, 1, 392); (393, 2, 1, 598); (395, 1, 1, 396);
   (398, 1, 1, 477); (399, 1, 1, 601); (400, 1, 1, 603); (401, 1, 1, 402);
   (403, 1, 1, 608); (404, 1, 1, 611); (406, 1, 1, 617); (407, 1, 1, 616);
   (408, 1, 1, 409); (412, 1, 1, 623); (413, 1, 1, 626); (415, 1, 1, 629);
   (416, 3, 2, 417); (422, 1, 1, 640); (423, 1, 1, 424); (425, 1, 1, 643);
   (428, 1, 1, 429); (430, 1, 1, 648); (431, 1, 1, 432); (433, 2, 1, 650);
   (435, 2, 2, 436); (439, 1, 1, 658); (440, 1, 1, 441); (444, 1, 1, 445);
   (452, 1, 1, 454); (453, 1, 1, 454); (455, 1, 1, 457); (456, 1, 1, 457);
   (458, 1, 1, 460); (459, 9, 2, 460); (478, 9, 2, 479); (497, 1, 1, 499);
   (498, 2, 2, 499); (502, 1, 1, 405); (503, 1, 1, 447); (504, 20, 2, 505);
   (544, 1, 1, 414); (546, 9, 2, 547); (570, 1, 1, 11365); (571, 1, 1, 572);
   (573, 1, 1, 410); (574, 1, 1, 11366); (577, 1, 1, 578); (579, 1, 1, 384);
   (580, 1, 1, 649); (581, 1, 1, 652); (582, 5, 2, 583); (880, 2, 2, 881);
   (886, 1, 1, 887); (895, 1, 1, 1011); (902, 1, 1, 940); (904, 3, 1, 941);
   (908, 1, 1, 972); (910, 2, 1, 973); (913, 17, 1, 945); (931, 9, 1, 963);
   (975, 1, 1, 983); (984, 12, 2, 985); (1012, 1, 1, 952);
   (1015, 1, 1, 1016); (1017, 1, 1, 1010); (1018, 1, 1, 1019);
   (1021, 3, 1, 891); (1024, 16, 1, 1104); (1040, 32, 1, 1072);
   (1120, 17, 2, 1121); (1162, 27, 2, 1163); (1216, 1, 1, 1231);
   (1217, 7, 2, 1218); (1232, 48, 2, 1233); (1329, 38, 1, 1377);
   (4256, 38, 1, 11520); (4295, 1, 1, 11559); (4301, 1, 1, 11565);
   (5024, 80, 1, 43888); (5104, 6, 1, 5112); (7312, 43, 1, 4304);
   (7357, 3, 1, 4349); (7680, 75, 2, 7681); (7838, 1, 1, 223);
   (7840, 48, 2, 7841); (7944, 8, 1, 7936); (7960, 6, 1, 7952);
   (7976, 8, 1, 7968); (7992, 8, 1, 7984); (8008, 6, 1, 8000);
   (8025, 4, 2, 8017); (8040, 8, 1, 8032); (8072, 8, 1, 8064);
   (8088, 8, 1, 8080); (8104, 8, 1, 8096); (8120, 2, 1, 8112);
   (8122, 2, 1, 8048); (8124, 1, 1, 8115); (8136, 4, 1, 8050);
   (8140, 1, 1, 8131); (8152, 2, 1, 8144); (8154, 2, 1, 8054);
   (8168, 2, 1, 8160); (8170, 2, 1, 8058); (8172, 1, 1, 8165);
   (8184, 2, 1, 8056); (8186, 2, 1, 8060); (8188, 1, 1, 8179);
   (8486, 1, 1, 969); (8490, 1, 1, 107); (8491, 1, 1, 229);
   (8498, 1, 1, 8526); (8544, 16, 1, 8560); (8579, 1, 1, 8580);
   (9398, 26, 1, 9424); (11264, 48, 1, 11312); (11360, 1, 1, 11361);
   (11362, 1, 1, 619); (11363, 1, 1, 7549); (11364, 1, 1, 637);
   (11367, 3, 2, 11368); (11373, 1, 1, 593); (11374, 1, 1, 625);
   (11375, 1, 1, 592); (11376, 1, 1, 594); (11378, 1, 1, 11379);
   (11381, 1, 1, 11382); (11390, 2, 1, 575); (11392, 50, 2, 11393);
   (11499, 2, 2, 11500); (11506, 1, 1, 11507); (42560, 23, 2, 42561);
   (42624, 14, 2, 42625); (42786, 7, 2, 42787); (42802, 31, 2, 42803);
   (42873, 2, 2, 42874); (42877, 1, 1, 7545); (42878, 5, 2, 42879);
   (42891, 1, 1, 42892); (42893, 1, 1, 613); (42896, 2, 2, 42897);
   (42902, 10, 2, 42903); (42922, 1, 1, 614); (42923, 1, 1, 604);
   (42924, 1, 1, 609); (42925, 1, 1, 620); (42926, 1, 1, 618);
   (42928, 1, 1, 670); (42929, 1, 1, 647); (42930, 1, 1, 669);
   (42931, 1, 1, 43859); (42932, 8, 2, 42933); (42948, 1, 1, 42900);
   (42949, 1, 1, 642); (42950, 1, 1, 7566); (42951, 2, 2, 42952);
   (42960, 1, 1, 42961); (42966, 2, 2, 42967); (42997, 1, 1, 42998);
   (65313, 26, 1, 65345); (66560, 40, 1, 66600); (66736, 36, 1, 66776);
   (66928, 11, 1, 66967); (66940, 15, 1, 66979); (66956, 7, 1, 66995);
   (66964, 2, 1, 67003); (68736, 51, 1, 68800); (71840, 32, 1, 71872);
   (93760, 32, 1, 93792); (125184, 34, 1, 125218)].

(** The cased code points that are their own lower case, in runs
    [(first, count, stride)]. *)
Definition lowercase_runs : list (N * N * N) :=
  [(97, 26, 1); (181, 1, 1); (223, 24, 1); (248, 8, 1); (257, 28, 2);
   (314, 8, 2); (329, 24, 2); (378, 3, 2); (383, 2, 1); (387, 2, 2);
   (392, 1, 1); (396, 1, 1); (402, 1, 1); (405, 1, 1); (409, 2, 1);
   (414, 1, 1); (417, 3, 2); (424, 1, 1); (429, 1, 1); (432, 1, 1);
   (436, 2, 2); (441, 1, 1); (445, 2, 2); (454, 1, 1); (457, 1, 1);
   (460, 9, 2); (477, 10, 2); (496, 1, 1); (499, 2, 2); (505, 20, 2);
   (547, 9, 2); (572, 1, 1); (575, 2, 1); (578, 1, 1); (583, 5, 2);
   (592, 5, 1); (598, 2, 1); (601, 2, 2); (604, 1, 1); (608, 2, 1);
   (611, 2, 2); (614, 2, 2); (617, 4, 1); (623, 2, 2); (626, 1, 1);
   (629, 1, 1); (637, 1, 1); (640, 2, 2); (643, 1, 1); (647, 6, 1);
   (658, 1, 1); (669, 2, 1); (837, 1, 1); (881, 2, 2); (887, 1, 1);
   (891, 3, 1); (912, 1, 1); (940, 35, 1); (976, 2, 1); (981, 3, 1);
   (985, 12, 2); (1008, 4, 1); (1013, 1, 1); (1016, 1, 1); (1019, 1, 1);
   (1072, 48, 1); (1121, 17, 2); (1163, 27, 2); (1218, 7, 2); (1231, 49, 2);
   (1377, 39, 1); (4304, 43, 1); (4349, 3, 1); (5112, 6, 1); (7296, 9, 1);
   (7545, 1, 1); (7549, 1, 1); (7566, 1, 1); (7681, 75, 2); (7830, 6, 1);
   (7841, 48, 2); (7936, 8, 1); (7952, 6, 1); (7968, 8, 1); (7984, 8, 1);
   (8000, 6, 1); (8016, 8, 1); (8032, 8, 1); (8048, 14, 1); (8064, 8, 1);
   (8080, 8, 1); (8096, 8, 1); (8112, 5, 1); (8118, 2, 1); (8126, 1, 1);
   (8130, 3, 1); (8134, 2, 1); (8144, 4, 1); (8150, 2, 1); (8160, 8, 1);
   (8178, 3, 1); (8182, 2, 1); (8526, 1, 1); (8560, 16, 1); (8580, 1, 1);
   (9424, 26, 1); (11312, 48, 1); (11361, 1, 1); (11365, 2, 1);
   (11368, 3, 2); (11379, 1, 1); (11382, 1, 1); (11393, 50, 2);
   (11500, 2, 2); (11507, 1, 1); (11520, 38, 1); (11559, 1, 1);
   (11565, 1, 1); (42561, 23, 2); (42625, 14, 2); (42787, 7, 2);
   (42803, 31, 2); (42874, 2, 2); (42879, 5, 2); (42892, 1, 1);
   (42897, 2, 2); (42900, 1, 1); (42903, 10, 2); (42933, 8, 2);
   (42952, 2, 2); (42961, 1, 1); (42967, 2, 2); (42998, 1, 1); (43859, 1, 1);
   (43888, 80, 1); (64256, 7, 1); (64275, 5, 1); (65345, 26, 1);
   (66600, 40, 1); (66776, 36, 1); (66967, 11, 1); (66979, 15, 1);
   (66995, 7, 1); (67003, 2, 1); (68800, 51, 1); (71872, 32, 1);
   (93792, 32, 1); (125218, 34, 1)].

(** The lower-case code points that match further ones when case is
    ignored (the table of [re._casefix]). *)
Definition extra_cases : list (N * list N) :=
  [(105, [305]); (115, [383]); (181, [956]); (305, [105]); (383, [115]);
   (837, [953; 8126]); (912, [8147]); (944, [8163]); (946, [976]);
   (949, [1013]); (952, [977]); (953, [837; 8126]); (954, [1008]);
   (956, [181]); (960, [982]); (961, [1009]); (962, [963]); (963, [962]);
   (966, [981]); (976, [946]); (977, [952]); (981, [966]); (982, [960]);
   (1008, [954]); (1009, [961]); (1013, [949]); (1074, [7296]);
   (1076, [7297]); (1086, [7298]); (1089, [7299]); (1090, [7300; 7301]);
   (1098, [7302]); (1123, [7303]); (7296, [1074]); (7297, [1076]);
   (7298, [1086]); (7299, [1089]); (7300, [1090; 7301]);
   (7301, [1090; 7300]); (7302, [1098]); (7303, [1123]); (7304, [42571]);
   (7777, [7835]); (7835, [7777]); (8126, [837; 953]); (8147, [912]);
   (8163, [944]); (42571, [7304]); (64261, [64262]); (64262, [64261])].

(** Position [c] within a run. *)
Definition in_run (c first count stride : N) : bool :=
  (first <=? c) && (c <? first + count * stride)
  && ((c - first) mod stride =? 0).

(** [_sre.unicode_tolower]. *)
Definition unicode_tolower (c : N) : N :=
  match list_find (λ '(first, count, stride, _), in_run c first count stride)
          lower_runs with
  | Some (_, (first, _, _, lower)) => lower + (c - first)
  | None => c
  end.

(** [_sre.unicode_iscased]: the lower case or the upper case of [c]
    differs from [c]. *)
Definition unicode_iscased (c : N) : bool :=
  negb (unicode_tolower c =? c)
  || existsb (λ '(first, count, stride), in_run c first count stride)
       lowercase_runs.

(** The code points whose lower case is [x]. *)
Definition lowers_to (x : N) : list N :=
  (if unicode_tolower x =? x then [x] else [])
  ++ omap (λ '(first, count, stride, lower),
             if in_run x lower count stride
             then Some (first + (x - lower)) else None)
          lower_runs.

Definition extra_of (lo : N) : list N :=
  match list_find (λ e, e.1 = lo) extra_cases with
  | Some (_, (_, more)) => more
  | None => []
  end.

(** The code points that a literal [c] matches under [re.IGNORECASE]:
    [c] alone when it is not cased, and otherwise those whose lower case
    is the lower case of [c] or one of its extra cases. *)
Definition variants (c : N) : list N :=
  if unicode_iscased c then
    let lo := unicode_tolower c in
    (lo :: extra_of lo) ≫= lowers_to
  else [c].

(** A pattern compiled with [re.IGNORECASE]: a cased literal matches
    each of its variants; nothing else changes. *)
Fixpoint ignorecase (r : regex) : regex :=
  match r with
  | Lit c =>
      foldr (λ d r', Alt (Lit d) r') (Lit c) (filter (λ d, d ≠ c) (variants c))
  | Seq r1 r2 => Seq (ignorecase r1) (ignorecase r2)
  | Alt r1 r2 => Alt (ignorecase r1) (ignorecase r2)
  | Repeat greedy lo hi r' => Repeat greedy lo hi (ignorecase r')
  | Group n r' => Group n (ignorecase r')
  | Eps | Dot | Digit => r
  end.

(** [re.search(pattern, text, re.IGNORECASE)]. *)
Definition search_ignorecase (r : regex) (text : str) : option Match :=
  search (ignorecase r) text.

(** *** Pattern strings

    [compile] reads the pattern syntax of the same constructs; any
    other construct makes it fail. *)

Definition special (c : N) : bool :=
  bool_decide
    (c ∈ [36; 40; 41; 42; 43; 46; 63; 91; 92; 93; 94; 123; 124; 125]).

Definition alphanumeric (c : N) : bool :=
  ((48 <=? c) && (c <=? 57)) || ((65 <=? c) && (c <=? 90))
  || ((97 <=? c) && (c <=? 122)).

(** A run of ASCII digits as a number, and what follows it. *)
Fixpoint read_nat (s : str) (acc : option nat) : option nat * str :=
  match s with
  | d :: s1 =>
      if (48 <=? d) && (d <=? 57)
      then read_nat s1 (Some (10 * default 0 acc + N.to_nat (d - 48))%nat)
      else (acc, s)
  | [] => (acc, s)
  end.

(** An optional [?] after a quantifier makes it lazy. *)
Definition read_lazy (lo : nat) (hi : option nat) (r : regex) (s : str)
    : regex * str :=
  match s with
  | 63 :: s1 => (Repeat false lo hi r, s1)
  | _ => (Repeat true lo hi r, s)
  end.

(** The quantifier that follows an atom, if any. *)
Definition read_quantifier (r : regex) (s : str) : option (regex * str) :=
  match s with
  | 42 :: s1 => Some (read_lazy 0 None r s1)
  | 43 :: s1 => Some (read_lazy 1 None r s1)
  | 63 :: s1 => Some (read_lazy 0 (Some 1%nat) r s1)
  | 123 :: s1 =>
      match read_nat s1 None with
      | (Some lo, 125 :: s2) => Some (read_lazy lo (Some lo) r s2)
      | (Some lo, 44 :: s2) =>
          match read_nat s2 None with
          | (hi, 125 :: s3) => Some (read_lazy lo hi r s3)
          | _ => None
          end
      | _ => None
      end
  | _ => Some (r, s)
  end.

Definition seq_of (r rest : regex) : regex :=
  match rest with
  | Eps => r
  | _ => Seq r rest
  end.

(** Recursive descent: alternatives, sequences and atoms; [g] counts
    the groups opened so far. *)
Fixpoint read_alt (fuel : nat) (s : str) (g : nat)
    : option (regex * str * nat) :=
  match fuel with
  | O => None
  | S fuel' =>
      '(r1, s1, g1) ← read_seq fuel' s g;
      match s1 with
      | 124 :: s2 =>
          '(r2, s3, g2) ← read_alt fuel' s2 g1;
          Some (Alt r1 r2, s3, g2)
      | _ => Some (r1, s1, g1)
      end
  end
with read_seq (fuel : nat) (s : str) (g : nat)
    : option (regex * str * nat) :=
  match fuel with
  | O => None
  | S fuel' =>
      match s with
      | [] | 41 :: _ | 124 :: _ => Some (Eps, s, g)
      | _ =>
          '(a, s1, g1) ← read_atom fuel' s g;
          '(q, s2) ← read_quantifier a s1;
          '(rest, s3, g2) ← read_seq fuel' s2 g1;
          Some (seq_of q rest, s3, g2)
      end
  end
with read_atom (fuel : nat) (s : str) (g : nat)
    : option (regex * str * nat) :=
  match fuel with
  | O => None
  | S fuel' =>
      match s with
      | 40 :: s1 =>
          '(r, s2, g1) ← read_alt fuel' s1 (S g);
          match s2 with
          | 41 :: s3 => Some (Group (S g) r, s3, g1)
          | _ => None
          end
      | 46 :: s1 => Some (Dot, s1, g)
      | 92 :: 100 :: s1 => Some (Digit, s1, g)
      | 92 :: c :: s1 => if alphanumeric c then None else Some (Lit c, s1, g)
      | c :: s1 => if special c then None else Some (Lit c, s1, g)
      | [] => None
      end
  end.

(** [re.compile(pattern)] on the modelled syntax. *)
Definition compile (pattern : str) : option regex :=
  match read_alt (3 * length pattern + 3) pattern 0 with
  | Some (r, [], _) => Some r
  | _ => None
  end.

(** The compiled form of a pattern literal of the source; every one
    of them compiles. *)
Definition pat (pattern : string) : regex :=
  default Eps (compile (u pattern)).

End Re.

Import Re.

Set Warnings "-inexact-float".
Local Open Scope float_scope.

(** ** models.py *)

(** A tuple of entities: regex groups ([None] for a group that did not
    take part) or matched keywords. *)
Abbreviation entities := (list (option str)).

Record IntentResult := mkIntentResult {
  intent : str;
  confidence : float;
  matched_rules : list str;
  extracted_entities : option entities
}.

(** [__post_init__]: a [matched_rules] left at [None] becomes [[]]. *)
Definition post_init (matched_rules : option (list str)) : list str :=
  match matched_rules with
  | None => []
  | Some rules => rules
  end.

(** The dataclass constructor [IntentResult(...)]. *)
Definition IntentResult_init (intent : str) (confidence : float)
    (matched_rules : option (list str))
    (extracted_entities : option entities) : IntentResult :=
  mkIntentResult intent confidence (post_init matched_rules) extracted_entities.

(** [IntentResult()]: every field at its default. *)
Definition IntentResult_default : IntentResult :=
  IntentResult_init (u "unknown") 0.0 None None.

(** ** regex_matcher.py *)

Module RegexIntentParser.

Record t := mk { patterns : list (str * list regex) }.

Definition init : t :=
  mk [ (u "query_order",
         [ pat "查.*订单.*(\d+)";
           pat "订单号.*?(\d{6,})";
           pat "我的订单.*状态" ]);
       (u "refund",
         [ pat "退.*款";
           pat "取消.*订单";
           pat "不要.*了" ]);
       (u "issue_invoice",
         [ pat "开.*发票";
           pat "要.*发票";
           pat "发票.*开" ]) ].

(** [f"regex_{intent}_{i}"]. *)
Definition rule_name (intent : str) (i : nat) : str :=
  u "regex_" ++ intent ++ u "_" ++ str_of_nat i.

(** The result built on a successful match. *)
Definition matched (intent : str) (i : nat) (m : Match) : IntentResult :=
  IntentResult_init intent 0.9 (Some [rule_name intent i])
    (match groups m with
     | [] => None
     | _ :: _ => Some (groups m)
     end).

(** The inner loop [for i, pattern in enumerate(patterns)], from index
    [i] on: the result returned at the first match; the search is
    [re.search(pattern, text, re.IGNORECASE)]. *)
Fixpoint try_patterns (intent : str) (text : str) (i : nat)
    (ps : list regex) : option IntentResult :=
  match ps with
  | [] => None
  | pattern :: ps' =>
      match Re.search_ignorecase pattern text with
      | Some m => Some (matched intent i m)
      | None => try_patterns intent text (S i) ps'
      end
  end.

(** The outer loop [for intent, patterns in self.patterns.items()]. *)
Fixpoint try_intents (text : str) (items : list (str * list regex))
    : IntentResult :=
  match items with
  | [] => IntentResult_default
  | (intent, ps) :: items' =>
      match try_patterns intent text 0 ps with
      | Some r => r
      | None => try_intents text items'
      end
  end.

Definition parse (self : t) (text : str) : IntentResult :=
  try_intents text (patterns self).

End RegexIntentParser.

(** ** keyword_matcher.py *)

(** A [dict] in insertion order. *)
Module ODict.
Section ODict.
Context {V : Type}.

(** [d[k] = v]: the value of an existing key is replaced in place, a
    new key is appended. *)
Fixpoint set (d : list (str * V)) (k : str) (v : V) : list (str * V) :=
  match d with
  | [] => [(k, v)]
  | (k', v') :: d' =>
      if bool_decide (k' = k) then (k', v) :: d' else (k', v') :: set d' k v
  end.

Fixpoint get (d : list (str * V)) (k : str) : option V :=
  match d with
  | [] => None
  | (k', v') :: d' => if bool_decide (k' = k) then Some v' else get d' k
  end.

Definition keys (d : list (str * V)) : list str := d.*1.
End ODict.
End ODict.

Module KeywordIntentParser.

Record config := mkConfig {
  primary : list str;
  secondary : list str;
  weight_primary : float;
  weight_secondary : float
}.

Record t := mk { keywords : list (str * config) }.

Definition init : t :=
  mk [ (u "query_order",
         mkConfig [u "查订单"; u "订单状态"; u "物流信息"]
                  [u "快递"; u "发货"; u "到了吗"] 0.8 0.4);
       (u "refund",
         mkConfig [u "退钱"; u "退款"; u "退货"]
                  [u "不要"; u "取消"; u "退回"] 0.8 0.4);
       (u "issue_invoice",
         mkConfig [u "开发票"; u "要发票"; u "发票"]
                  [u "报销"; u "开票"] 0.8 0.4) ].

(** The value stored in [scores] for an intent. *)
Record entry := mkEntry {
  score : float;
  matched_words : list str
}.

(** One loop [for word in words: if word in text: ...] over a tier,
    from the running [(score, matched_words)]. *)
Definition count_tier (text : str) (weight : float) (words : list str)
    (acc : float * list str) : float * list str :=
  foldl (λ '(score, matched) word,
           if str_contains word text
           then (score + weight, matched ++ [word])
           else (score, matched))
        acc words.

(** The body of the loop over intents up to the test [score > 0]; the
    score starts at the integer 0, which adds and compares as 0.0. *)
Definition count_intent (text : str) (c : config) : float * list str :=
  count_tier text (weight_secondary c) (secondary c)
    (count_tier text (weight_primary c) (primary c) (0.0, [])).

(** The dictionary [scores] after the loop over intents. *)
Definition collect (text : str) (items : list (str * config))
    : list (str * entry) :=
  foldl (λ scores '(intent, c),
           let '(score, matched) := count_intent text c in
           if 0.0 <? score
           then ODict.set scores intent (mkEntry (py_min score 1.0) matched)
           else scores)
        [] items.

(** [scores[x]['score']]; a key of [scores] is always found. *)
Definition score_of (scores : list (str * entry)) (x : str) : float :=
  match ODict.get scores x with
  | Some e => score e
  | None => 0.0
  end.

Definition words_of (scores : list (str * entry)) (x : str) : list str :=
  match ODict.get scores x with
  | Some e => matched_words e
  | None => []
  end.

(** [f"keyword_{best_intent}"]. *)
Definition rule_name (intent : str) : str := u "keyword_" ++ intent.

Definition parse (self : t) (text : str) : IntentResult :=
  let scores := collect text (keywords self) in
  match ODict.keys scores with
  | k :: ks =>
      let best_intent := py_max_from (score_of scores) k ks in
      IntentResult_init best_intent (score_of scores best_intent)
        (Some [rule_name best_intent])
        (Some (Some <$> words_of scores best_intent))
  | [] => IntentResult_default
  end.

End KeywordIntentParser.

(** ** slot_filler.py *)

Module SlotExtractor.

Record t := mk { slot_patterns : gmap str (list (str * regex)) }.

Definition init : t :=
  mk (list_to_map
    [ (u "query_order",
        [ (u "order_id", pat "(\d{6,})");
          (u "time", pat "(昨天|今天|前天|上周|本月)") ]);
      (u "refund",
        [ (u "order_id", pat "订单.*?(\d{6,})");
          (u "reason", pat "因为(.*?)所以");
          (u "time", pat "(昨天|今天|前天).*下.*单") ]);
      (u "issue_invoice",
        [ (u "order_id", pat "(\d{6,})");
          (u "amount", pat "(\d+\.?\d*)元") ]) ]).

(** The loop [for slot_name, pattern in patterns.items()], from the
    running [slots].  A stored value is the text of group 1, or [None]
    when the group did not take part in the match. *)
Fixpoint fill (text : str) (patterns : list (str * regex))
    (slots : gmap str (option str)) : pyresult (gmap str (option str)) :=
  match patterns with
  | [] => Ok slots
  | (slot_name, pattern) :: patterns' =>
      match Re.search pattern text with
      | Some m =>
          v ← group1 m;
          fill text patterns' (<[slot_name := v]> slots)
      | None => fill text patterns' slots
      end
  end.

Definition extract_slots (self : t) (text intent : str)
    : pyresult (gmap str (option str)) :=
  match slot_patterns self !! intent with
  | Some patterns => fill text patterns ∅
  | None => Ok ∅
  end.

End SlotExtractor.

(** ** rule_engine.py *)

Module RuleBasedIntentChain.

Record t := mk {
  regex_parser : RegexIntentParser.t;
  keyword_parser : KeywordIntentParser.t;
  slot_extractor : SlotExtractor.t
}.

Definition init : t :=
  mk RegexIntentParser.init KeywordIntentParser.init SlotExtractor.init.

(** [any("regex" in rule for rule in r.matched_rules)]. *)
Definition has_regex_rule (r : IntentResult) : bool :=
  existsb (str_contains (u "regex")) (matched_rules r).

Definition _merge_results (results : list IntentResult) : IntentResult :=
  let valid_results := filter (λ r, intent r ≠ u "unknown") results in
  match valid_results with
  | [] => IntentResult_default
  | v :: vs =>
      let regex_results := filter (λ r, has_regex_rule r) valid_results in
      let best_result := py_max_from confidence v vs in
      match regex_results with
      | r0 :: _ => if 0.8 <? confidence r0 then r0 else best_result
      | [] => best_result
      end
  end.

Definition _generate_reasoning (result : IntentResult) : str :=
  if bool_decide (intent result = u "unknown") then u "未匹配到任何规则"
  else
    let rule_type :=
      if has_regex_rule result then u "正则匹配" else u "关键词匹配" in
    u "通过" ++ rule_type ++ u "识别为" ++ intent result ++ u "，置信度"
      ++ format_2f (confidence result).

(** The dictionary that [invoke] returns. *)
Record output := mkOutput {
  out_intent : str;
  out_confidence : float;
  out_slots : gmap str (option str);
  out_matched_rules : list str;
  out_extracted_entities : option entities;
  out_reasoning : str
}.

(** [invoke]; the debugging output on stdout is left out.  A text that
    is not a [str] makes the first [re.search] raise [TypeError]. *)
Definition invoke (self : t) (input_dict : gmap str pyval)
    : pyresult output :=
  match dict_get input_dict (u "text") (PyStr []) with
  | PyStr text =>
      let regex_result := RegexIntentParser.parse (regex_parser self) text in
      let keyword_result :=
        KeywordIntentParser.parse (keyword_parser self) text in
      let final_result := _merge_results [regex_result; keyword_result] in
      slots ← SlotExtractor.extract_slots (slot_extractor self) text
                (intent final_result);
      let reasoning := _generate_reasoning final_result in
      Ok (mkOutput (intent final_result) (confidence final_result) slots
            (matched_rules final_result) (extracted_entities final_result)
            reasoning)
  | _ => Raise TypeError
  end.

End RuleBasedIntentChain.

(** ** xw_intent_parse.py: the on-demand Excel recognizer *)

Module ExcelIntentRecognizer.

(** The arguments of one call of [_parse_sheet_data], the only method
    through which [parse] reads an Excel file. *)
Record sheet_call := mkCall {
  call_execl_path : pyval;
  call_sheet_name : pyval;
  call_duration_threshold : pyval;
  call_ignore_no_interruption : pyval;
  call_excel_type : pyval;
  call_segment_pattern : pyval
}.

Section Recognizer.
(** A parsed row, and the analysis of a sheet (pandas and the file
    system): it returns the parsed rows or raises. *)
Context {row : Type} (_parse_sheet_data : sheet_call → pyresult (list row)).

Record metadata := mkMetadata {
  md_execl_path : pyval;
  md_sheet_name : pyval;
  md_duration_threshold : pyval;
  md_ignore_no_interruption : pyval;
  md_excel_type : pyval;
  md_result_count : nat;
  md_data : list row
}.

(** The [IntentResult] of the pluggable engine, as [parse] builds it. *)
Record result := mkResult {
  res_intent : str;
  res_confidence : float;
  res_recognizer : str;
  res_metadata : metadata
}.

Record t := mk {
  name : str;
  default_duration_threshold : pyval;
  default_ignore_no_interruption : pyval;
  default_excel_type : pyval;
  segment_pattern : pyval;
  excel_types_config : gmap str (gmap str pyval)
}.

(** [excel_type in self.excel_types_config] and the lookup that
    follows it: the keys are strings, so no other value is a key. *)
Definition type_config (self : t) (excel_type : pyval)
    : option (gmap str pyval) :=
  match excel_type with
  | PyStr s => excel_types_config self !! s
  | _ => None
  end.

(** [parse]: the result, and the calls of [_parse_sheet_data] made on
    the way, in order. *)
Definition parse (self : t) (text : str) (context : option (gmap str pyval))
    : option result * list sheet_call :=
  let context := default ∅ context in
  if negb (truthy (dict_get context (u "trigger_excel") (PyBool false)))
  then (None, [])
  else
    let excel_type :=
      dict_get context (u "excel_type") (default_excel_type self) in
    match type_config self excel_type with
    | None => (None, [])
    | Some cfg =>
        let default_path := dict_get cfg (u "excel_path") (PyStr []) in
        let default_sheet := dict_get cfg (u "sheet_name") (PyStr []) in
        let execl_path := dict_get context (u "execl_path") default_path in
        let sheet_name := dict_get context (u "sheet_name") default_sheet in
        let duration_threshold :=
          dict_get context (u "duration_threshold")
            (default_duration_threshold self) in
        let ignore_no_interruption :=
          dict_get context (u "ignore_no_interruption")
            (default_ignore_no_interruption self) in
        let segment_pattern :=
          dict_get context (u "segment_pattern") (segment_pattern self) in
        if negb (truthy execl_path) || negb (truthy sheet_name)
        then (None, [])
        else
          let call :=
            mkCall execl_path sheet_name duration_threshold
              ignore_no_interruption excel_type segment_pattern in
          match _parse_sheet_data call with
          | Ok parsed_data =>
              (Some (mkResult (u "excel_interruption_analysis") 1.0
                       (name self)
                       (mkMetadata execl_path sheet_name duration_threshold
                          ignore_no_interruption excel_type
                          (length parsed_data) parsed_data)),
               [call])
          | Raise _ => (None, [call])
          end
    end.

End Recognizer.

(** *** The constructor *)

(** The [excel_analyzer] dictionary of a configuration object, by key;
    [None] for a key that it does not have. *)
Record excel_analyzer := mkAnalyzer {
  cfg_duration_threshold : option pyval;
  cfg_ignore_no_interruption : option pyval;
  cfg_default_excel_type : option pyval;
  cfg_segment_pattern : option pyval;
  cfg_excel_types : option (gmap str (gmap str pyval))
}.

Definition default_segment_pattern : str :=
  u "^(\d{8}-\d+-\d+-\d+-\d+-CSCN-[AB]\d{4}-CSCN-[AB]\d{4})$".

Section Init.
(** [re.compile] on the segment pattern: it returns or raises. *)
Context (re_compile : pyval → pyresult unit).

(** [__init__]: [config] is [None], or an object with or without the
    attribute [excel_analyzer]; the name and the priority go to the
    base class, which keeps them. *)
Definition init (config : option (option excel_analyzer)) (name : str)
    : pyresult t :=
  let self :=
    match config with
    | Some (Some excel_config) =>
        mk name
          (default (PyFloat 15.0) (cfg_duration_threshold excel_config))
          (default (PyBool true) (cfg_ignore_no_interruption excel_config))
          (default (PyStr (u "merged")) (cfg_default_excel_type excel_config))
          (default (PyStr default_segment_pattern)
             (cfg_segment_pattern excel_config))
          (default ∅ (cfg_excel_types excel_config))
    | _ =>
        mk name (PyFloat 15.0) (PyBool true) (PyStr (u "merged"))
          (PyStr default_segment_pattern) ∅
    end in
  _ ← re_compile (segment_pattern self);
  Ok self.
End Init.

(** *** The cells of the duration column *)

(** The pattern "^([0-9.]+)" of [_parse_duration]: one group, one or
    more characters of the set; the anchor holds where [re.match]
    looks, at the start of the text. *)
Definition duration_pattern : regex :=
  Group 1
    (Repeat true 1 None
       (one_of [48; 49; 50; 51; 52; 53; 54; 55; 56; 57]%N 46%N)).

(** [pd.isna] on a scalar. *)
Definition isna (v : pyval) : bool :=
  match v with
  | PyNone => true
  | PyFloat f => is_nan f
  | _ => false
  end.

Section Cells.
(** [str(v)] for a value that is not a string, and [float(s)] on a
    string. *)
Context (str_other : pyval → pyresult str) (py_float : str → pyresult float).

Definition py_str (v : pyval) : pyresult str :=
  match v with
  | PyStr s => Ok s
  | _ => str_other v
  end.

(** [_parse_duration]: a [ValueError] or an [AttributeError] of the
    [try] block is caught, any other exception propagates. *)
Definition _parse_duration (duration_str : pyval) : pyresult (option float) :=
  if isna duration_str then Ok None
  else
    match
      duration_str ← py_str duration_str;
      match Re.match_ duration_pattern duration_str with
      | Some m =>
          g ← group1 m;
          match g with
          | Some run => f ← py_float run; Ok (Some f)
          | None => Raise TypeError
          end
      | None => Ok None
      end
    with
    | Raise ValueError | Raise AttributeError => Ok None
    | r => r
    end.
End Cells.

End ExcelIntentRecognizer.

(** ** The policies in the words of the specification

    Each definition of [Spec] restates a policy of the specification;
    the theorems below compare them with the embedded code. *)

Module Spec.

(** The item with the globally maximum [key], ties broken in favour
    of the earlier one: the first item that no item exceeds. *)
Definition first_max {A} (key : A → float) (xs : list A) : option A :=
  snd <$> list_find (λ x, Forall (λ y, (key y <=? key x) = true) xs) xs.

(** Step 1 of the merge: discard the ["unknown"] results. *)
Definition remaining (results : list IntentResult) : list IntentResult :=
  filter (λ r, intent r ≠ u "unknown") results.

(** A result of the pattern recognizer is told by its evidence: one of
    its rule identifiers contains ["regex"]. *)
Definition pattern_result (r : IntentResult) : Prop :=
  Exists (λ rule, str_contains (u "regex") rule = true) (matched_rules r).

#[global] Instance pattern_result_dec r : Decision (pattern_result r).
Proof. unfold pattern_result. apply _. Defined.

Definition max_confidence (rs : list IntentResult) : IntentResult :=
  default IntentResult_default (first_max confidence rs).

(** The merge policy as the specification words it: the first remaining pattern
    result whose confidence exceeds 0.8, if any. *)
Definition merge_any_pattern (results : list IntentResult) : IntentResult :=
  match remaining results with
  | [] => IntentResult_default
  | rs =>
      match list_find (λ r, pattern_result r ∧ (0.8 <? confidence r) = true)
                      rs with
      | Some (_, r) => r
      | None => max_confidence rs
      end
  end.

(** The merge policy on the first remaining pattern result only. *)
Definition merge_first_pattern (results : list IntentResult) : IntentResult :=
  match remaining results with
  | [] => IntentResult_default
  | rs =>
      match list_find pattern_result rs with
      | Some (_, r) => if 0.8 <? confidence r then r else max_confidence rs
      | None => max_confidence rs
      end
  end.

(** The configured keywords of a tier that occur in the text. *)
Definition occurring (text : str) (words : list str) : list str :=
  filter (λ w, str_contains w text = true) words.

Definition clamp (s : float) : float := if 1.0 <? s then 1.0 else s.

(** The score of one intent: the sum of the weights of the occurring
    keywords, primary tier first, clamped to 1.0. *)
Definition keyword_score (text : str) (c : KeywordIntentParser.config)
    : float :=
  clamp
    (foldl PrimFloat.add 0.0
       (((λ _, KeywordIntentParser.weight_primary c)
           <$> occurring text (KeywordIntentParser.primary c))
        ++ ((λ _, KeywordIntentParser.weight_secondary c)
              <$> occurring text (KeywordIntentParser.secondary c)))).

Record scored := mkScored {
  s_intent : str;
  s_score : float;
  s_words : list str
}.

(** Every intent with its own score, in declaration order. *)
Definition keyword_scored (self : KeywordIntentParser.t) (text : str)
    : list scored :=
  (λ '(intent, c),
     mkScored intent (keyword_score text c)
       (occurring text (KeywordIntentParser.primary c)
        ++ occurring text (KeywordIntentParser.secondary c)))
  <$> KeywordIntentParser.keywords self.

(** The keyword recognizer: the maximum among the intents scoring
    above 0, the first declared on a tie; no opinion without any. *)
Definition keyword_parse (self : KeywordIntentParser.t) (text : str)
    : IntentResult :=
  match first_max s_score
          (filter (λ x, (0.0 <? s_score x) = true) (keyword_scored self text))
  with
  | Some x =>
      mkIntentResult (s_intent x) (s_score x) [u "keyword_" ++ s_intent x]
        (Some (Some <$> s_words x))
  | None => IntentResult_default
  end.

(** The patterns of the pattern recognizer in declaration order, each
    with its intent and its index within the intent. *)
Definition declared (self : RegexIntentParser.t)
    : list (str * nat * regex) :=
  '(intent, ps) ← RegexIntentParser.patterns self;
  imap (λ i p, (intent, i, p)) ps.

(** Every declared pattern with the outcome of its search. *)
Definition attempts (self : RegexIntentParser.t) (text : str)
    : list (str * nat * option Match) :=
  (λ '(intent, i, p), (intent, i, Re.search_ignorecase p text))
  <$> declared self.

(** The pattern recognizer: first match wins. *)
Definition regex_parse (self : RegexIntentParser.t) (text : str)
    : IntentResult :=
  match list_find (λ a, is_Some a.2) (attempts self text) with
  | Some (_, (intent, i, Some m)) =>
      mkIntentResult intent 0.9
        [u "regex_" ++ intent ++ u "_" ++ str_of_nat i]
        (if decide (groups m = []) then None else Some (groups m))
  | _ => IntentResult_default
  end.

(** The value of one slot: decided by the slot's own pattern and the
    text alone; present exactly when the pattern matches. *)
Definition slot_value (self : SlotExtractor.t) (text intent name : str)
    : option (option str) :=
  ps ← SlotExtractor.slot_patterns self !! intent;
  p ← (list_to_map ps : gmap str regex) !! name;
  m ← Re.search p text;
  head (groups m).

(** The range of a confidence in the data model: [0.0, 1.0]. *)
Definition in_unit_range (c : float) : Prop :=
  (0.0 <=? c) = true ∧ (c <=? 1.0) = true.

#[global] Instance in_unit_range_dec c : Decision (in_unit_range c).
Proof. unfold in_unit_range. apply _. Defined.

(** The invariant of the data model: ["unknown"], confidence 0.0 and
    no matched rule go together. *)
Definition unknown_invariant (r : IntentResult) : Prop :=
  (intent r = u "unknown" ↔ (confidence r =? 0.0) = true)
  ∧ ((confidence r =? 0.0) = true ↔ matched_rules r = [])
  ∧ (intent r = u "unknown" ↔ matched_rules r = []).

(** The evidence fields as the data model words them: never empty on
    a real match, an empty list and not null on ["unknown"]. *)
Definition evidence_as_claimed (r : IntentResult) : Prop :=
  (intent r ≠ u "unknown" →
     matched_rules r ≠ []
     ∧ ∃ e es, extracted_entities r = Some (e :: es))
  ∧ (intent r = u "unknown" →
     matched_rules r = [] ∧ extracted_entities r = Some []).

(** The evidence fields as the code fills them: the entities are null
    on ["unknown"], and null or a non-empty tuple on a real match. *)
Definition evidence (r : IntentResult) : Prop :=
  (intent r ≠ u "unknown" →
     matched_rules r ≠ []
     ∧ (extracted_entities r = None
        ∨ ∃ e es, extracted_entities r = Some (e :: es)))
  ∧ (intent r = u "unknown" →
     matched_rules r = [] ∧ extracted_entities r = None).

(** Every configured keyword of the keyword recognizer. *)
Definition configured_keywords (self : KeywordIntentParser.t) : list str :=
  '(_, c) ← KeywordIntentParser.keywords self;
  KeywordIntentParser.primary c ++ KeywordIntentParser.secondary c.

End Spec.

(** ** Notions used in the proofs *)

(** The characters of a duration: an ASCII digit or the point. *)
Definition duration_char (c : N) : bool :=
  ((48 <=? c)%N && (c <=? 57)%N) || (c =? 46)%N.

(** The longest leading run of such characters. *)
Fixpoint leading_run (s : str) : str :=
  match s with
  | c :: s' => if duration_char c then c :: leading_run s' else []
  | [] => []
  end.

(** [a] compares below or equal to [b]. *)
Definition SFle (a b : spec_float) : Prop :=
  SFcompare a b = Some Lt ∨ SFcompare a b = Some Eq.

Definition SFlt (a b : spec_float) : Prop := SFcompare a b = Some Lt.

(** [x], at index [i] of [l], is the first maximum of [l]. *)
Definition first_max_at {A} (key : A → float) (l : list A) (i : nat) (x : A)
    : Prop :=
  l !! i = Some x
  ∧ (∀ y, y ∈ l → (key y <=? key x) = true)
  ∧ (∀ j y, l !! j = Some y → (j < i)%nat → (key y <? key x) = true).

(** The first success of a list of attempts, as a result. *)
Definition outcome (o : option (str * nat * option Match))
    : option IntentResult :=
  '(intent, i, om) ← o; RegexIntentParser.matched intent i <$> om.

Definition attempt (text : str) (rule : str * nat * regex)
    : str * nat * option Match :=
  let '(intent, i, p) := rule in (intent, i, Re.search_ignorecase p text).

Definition succeeded (a : str * nat * option Match) : Prop := is_Some a.2.

(** The weights added for the occurring words of a tier. *)
Definition hits (text : str) (weight : float) (words : list str)
    : list float :=
  (λ _, weight) <$> Spec.occurring text words.

(** The raw score of an intent, before the clamp. *)
Definition raw_score (text : str) (c : KeywordIntentParser.config) : float :=
  foldl PrimFloat.add 0.0
    (hits text (KeywordIntentParser.weight_primary c)
       (KeywordIntentParser.primary c)
     ++ hits text (KeywordIntentParser.weight_secondary c)
          (KeywordIntentParser.secondary c)).

(** The keywords of an intent that occur in a text, primary first. *)
Definition words (text : str) (c : KeywordIntentParser.config) : list str :=
  Spec.occurring text (KeywordIntentParser.primary c)
  ++ Spec.occurring text (KeywordIntentParser.secondary c).

(** The entry that the loop stores for an intent, if any. *)
Definition entry_of (text : str) (item : str * KeywordIntentParser.config)
    : option (str * KeywordIntentParser.entry) :=
  let '(intent, c) := item in
  if 0.0 <? raw_score text c
  then Some (intent,
             KeywordIntentParser.mkEntry (py_min (raw_score text c) 1.0)
               (words text c))
  else None.

(** A stored entry as the specification's scored intent. *)
Definition as_scored (e : str * KeywordIntentParser.entry) : Spec.scored :=
  Spec.mkScored e.1 (KeywordIntentParser.score e.2)
    (KeywordIntentParser.matched_words e.2).

(** A matcher that hands to its continuation as many captures as it
    received. *)
Definition keeps_captures {A}
    (body : str → captures → (str → captures → option A) → option A)
    : Prop :=
  ∀ s cs k x,
    body s cs k = Some x →
    ∃ s' cs', length cs' = length cs ∧ k s' cs' = Some x.

(** A matcher whose outcome depends on its continuation only through
    what the continuation does on texts no longer than the one to
    match. *)
Definition local {A}
    (body : str → captures → (str → captures → option A) → option A)
    : Prop :=
  ∀ s cs k k',
    (∀ s' cs', (length s' ≤ length s)%nat → k s' cs' = k' s' cs') →
    body s cs k = body s cs k'.

(** The value that a slot pattern yields on a text. *)
Definition slot_of (text : str) (p : regex) : option (option str) :=
  m ← Re.search p text; head (groups m).

(** A slot configuration is well formed when every intent names each
    slot once and every slot pattern has a capture group. *)
Definition well_formed (self : SlotExtractor.t) : Prop :=
  map_Forall (λ _ ps, NoDup ps.*1 ∧ Forall (λ np, ngroups np.2 ≠ 0%nat) ps)
    (SlotExtractor.slot_patterns self).

(** The three shapes of a result of the two recognizers. *)
Inductive produced (text : str) : IntentResult → Prop :=
| produced_default : produced text IntentResult_default
| produced_regex name i m :
    name ≠ u "unknown" →
    produced text (RegexIntentParser.matched name i m)
| produced_keyword name c :
    name ≠ u "unknown" →
    (0.0 <? Spec.keyword_score text c) = true →
    produced text
      (mkIntentResult name (Spec.keyword_score text c)
         [u "keyword_" ++ name] (Some (Some <$> words text c))).

(** What [invoke] returns for the ["unknown"] outcome. *)
Definition unknown_output : RuleBasedIntentChain.output :=
  RuleBasedIntentChain.mkOutput (u "unknown") 0.0 ∅ [] None
    (u "未匹配到任何规则").

(** A recognizer configured with a ["merged"] sheet. *)
Definition sample_recognizer : ExcelIntentRecognizer.t :=
  ExcelIntentRecognizer.mk (u "ExcelIntentRecognizer") (PyFloat 15.0)
    (PyBool true) (PyStr (u "merged")) (PyStr (u "^(\d{8})$"))
    {[ u "merged" :=
         {[ u "excel_path" := PyStr (u "data.xlsx");
            u "sheet_name" := PyStr (u "Sheet1") ]} ]}.

(** *** The texts that a pattern matches *)

(** The number of iterations that a repetition allows above its lower
    bound. *)
Definition at_most (lo : nat) (hi : option nat) (n : nat) : Prop :=
  match hi with
  | None => True
  | Some h => (n ≤ lo `max` h)%nat
  end.

(** [matches r w]: the pattern [r] matches the whole of [w], captures
    aside. *)
Fixpoint matches (r : regex) (w : str) : Prop :=
  match r with
  | Eps => w = []
  | Lit c => w = [c]
  | Dot => ∃ d, d ≠ 10%N ∧ w = [d]
  | Digit => ∃ d, is_decimal d = true ∧ w = [d]
  | Seq r1 r2 => ∃ w1 w2, w = w1 ++ w2 ∧ matches r1 w1 ∧ matches r2 w2
  | Alt r1 r2 => matches r1 w ∨ matches r2 w
  | Group _ r' => matches r' w
  | Repeat _ lo hi r' =>
      ∃ ws, w = concat ws ∧ Forall (matches r') ws
            ∧ (lo ≤ length ws)%nat ∧ at_most lo hi (length ws)
  end.

(** [w] is a part of [text]: a contiguous run of its characters. *)
Definition occurs_in (w text : str) : Prop := ∃ pre suf, text = pre ++ w ++ suf.

(** The pattern [p] matches some part of [text]. *)
Definition fires (text : str) (p : regex) : Prop :=
  ∃ w, occurs_in w text ∧ matches p w.

(** Every capture that is set satisfies [P] at its index. *)
Definition caps (P : nat → str → Prop) (cs : captures) : Prop :=
  ∀ i v, cs !! i = Some (Some v) → P i v.

(** [P] holds of every part of [text] that a group of [r] can
    capture. *)
Fixpoint groups_in (text : str) (P : nat → str → Prop) (r : regex) : Prop :=
  match r with
  | Eps | Lit _ | Dot | Digit => True
  | Seq r1 r2 | Alt r1 r2 => groups_in text P r1 ∧ groups_in text P r2
  | Repeat _ _ _ r' => groups_in text P r'
  | Group n r' =>
      (∀ w, matches r' w → occurs_in w text → P (pred n) w)
      ∧ groups_in text P r'
  end.

(** A matcher that succeeds only along a prefix that [r] matches. *)
Definition sound_for {A} (text : str) (P : nat → str → Prop) (r : regex)
    (body : str → captures → (str → captures → option A) → option A) : Prop :=
  ∀ s cs k x,
    s `suffix_of` text → caps P cs → body s cs k = Some x →
    ∃ w s' cs', s = w ++ s' ∧ matches r w ∧ caps P cs' ∧ k s' cs' = Some x.

(** A matcher that succeeds whenever [r] matches a prefix after which
    the continuation succeeds. *)
Definition complete_for {A} (r : regex)
    (body : str → captures → (str → captures → option A) → option A) : Prop :=
  ∀ w s' cs k,
    matches r w → (∀ cs', is_Some (k s' cs')) → is_Some (body (w ++ s') cs k).

(** Group [n] takes part in every match of [r]. *)
Fixpoint sets (n : nat) (r : regex) : bool :=
  match r with
  | Eps | Lit _ | Dot | Digit => false
  | Seq r1 r2 => sets n r1 || sets n r2
  | Alt r1 r2 => sets n r1 && sets n r2
  | Repeat _ lo _ r' => (0 <? lo)%nat && sets n r'
  | Group m r' => (m =? n)%nat || sets n r'
  end.

Definition is_set (i : nat) (cs : captures) : Prop :=
  ∃ v, cs !! i = Some (Some v).

(** A matcher that keeps the captures that are set and sets those of
    the groups that always take part. *)
Definition sets_for {A} (r : regex)
    (body : str → captures → (str → captures → option A) → option A) : Prop :=
  ∀ s cs k x,
    body s cs k = Some x →
    ∃ s' cs', k s' cs' = Some x
      ∧ length cs' = length cs
      ∧ (∀ i, is_set i cs → is_set i cs')
      ∧ (∀ n, sets n r = true → (pred n < length cs)%nat → is_set (pred n) cs').

(** The sub-patterns of the groups numbered [n]. *)
Fixpoint group_bodies (n : nat) (r : regex) : list regex :=
  match r with
  | Eps | Lit _ | Dot | Digit => []
  | Seq r1 r2 | Alt r1 r2 => group_bodies n r1 ++ group_bodies n r2
  | Repeat _ _ _ r' => group_bodies n r'
  | Group m r' => (if (m =? n)%nat then [r'] else []) ++ group_bodies n r'
  end.

(** What the capture at index [i] can hold after a search of [r] in
    [text]: a part of the text that the group's sub-pattern matches. *)
Definition captured (text : str) (r : regex) (i : nat) (v : str) : Prop :=
  occurs_in v text
  ∧ ∃ n r', pred n = i ∧ r' ∈ group_bodies n r ∧ matches r' v.

(** *** The built-in configuration *)

Definition decimal_digits (w : str) : Prop :=
  Forall (λ c, is_decimal c = true) w.

(** The form of the value of each slot of the built-in patterns. *)
Definition slot_shape (name w : str) : Prop :=
  (name = u "order_id" → (6 ≤ length w)%nat ∧ decimal_digits w)
  ∧ (name = u "amount" →
       ∃ a d b, w = a ++ d ++ b ∧ a ≠ [] ∧ decimal_digits a
         ∧ (d = [] ∨ d = u ".") ∧ decimal_digits b)
  ∧ (name = u "time" →
       w ∈ [u "昨天"; u "今天"; u "前天"; u "上周"; u "本月"])
  ∧ (name = u "reason" → 10%N ∉ w).

(** The result that decides the pipeline: the pattern recognizer's
    when it has one, the keyword recognizer's otherwise. *)
Definition decisive (text : str) : IntentResult :=
  let r := RegexIntentParser.parse RegexIntentParser.init text in
  if decide (intent r = u "unknown")
  then KeywordIntentParser.parse KeywordIntentParser.init text
  else r.

(** The ways in which a reasoning names its rule type and its
    confidence. *)
Definition reasoning_forms : list (str * float * str) :=
  [ (u "正则匹配", 0.9, u "0.90");
    (u "关键词匹配", 0.4, u "0.40");
    (u "关键词匹配", 0.8, u "0.80");
    (u "关键词匹配", 1.0, u "1.00") ].

(** The results that can decide the pipeline. *)
Definition closed_world (r : IntentResult) : Prop :=
  intent r ∈ [u "query_order"; u "refund"; u "issue_invoice"; u "unknown"]
  ∧ confidence r ∈ [0.0; 0.4; 0.8; 0.9; 1.0]
  ∧ (intent r = u "unknown" ↔ confidence r = 0.0)
  ∧ (intent r = u "unknown"
     ↔ RuleBasedIntentChain._generate_reasoning r = u "未匹配到任何规则")
  ∧ (intent r ≠ u "unknown" →
     ∃ kind shown,
       (kind, confidence r, shown) ∈ reasoning_forms
       ∧ RuleBasedIntentChain._generate_reasoning r
         = u "通过" ++ kind ++ u "识别为" ++ intent r ++ u "，置信度" ++ shown).


(** * Properties *)

(** ** The pattern literals of the source *)

(** Every pattern literal of the two tables is within the modelled
    syntax. *)
Lemma source_patterns_compile :
  Forall (λ pattern, is_Some (Re.compile (u pattern)))
    [ "查.*订单.*(\d+)"; "订单号.*?(\d{6,})"; "我的订单.*状态";
      "退.*款"; "取消.*订单"; "不要.*了";
      "开.*发票"; "要.*发票"; "发票.*开";
      "(\d{6,})"; "(昨天|今天|前天|上周|本月)";
      "订单.*?(\d{6,})"; "因为(.*?)所以"; "(昨天|今天|前天).*下.*单";
      "(\d+\.?\d*)元" ]%string.
Proof. apply (bool_decide_unpack _). by vm_compute. Qed.

(** ** The order of binary64 values *)

Section FloatOrder.
Implicit Types a b c : spec_float.
Implicit Types x y z : float.

Lemma SFleb_le a b : SFleb a b = true ↔ SFle a b.
Proof.
  unfold SFleb, SFle.
  destruct (SFcompare a b) as [[]|]; intuition congruence.
Qed.

Lemma SFltb_lt a b : SFltb a b = true ↔ SFlt a b.
Proof.
  unfold SFltb, SFlt.
  destruct (SFcompare a b) as [[]|]; intuition congruence.
Qed.

Lemma SFcompare_opp a b o :
  SFcompare a b = Some o → SFcompare b a = Some (CompOpp o).
Proof.
  destruct a as [[]|[]| |[] m1 e1], b as [[]|[]| |[] m2 e2];
    cbn; intros; simplify_eq; try reflexivity;
    change (Pos.compare_cont Eq) with Pos.compare;
    rewrite (Z.compare_antisym e1 e2), (Pos.compare_antisym m1 m2);
    destruct (e1 ?= e2)%Z, (m1 ?= m2)%positive; reflexivity.
Qed.

Lemma SFcompare_total a b :
  a ≠ S754_nan → b ≠ S754_nan → is_Some (SFcompare a b).
Proof. destruct a, b; cbn; intros; eauto; congruence. Qed.

Lemma SFcompare_refl a : a ≠ S754_nan → SFcompare a a = Some Eq.
Proof.
  destruct a as [[]|[]| |[] m e]; cbn; intros; try congruence;
    change (Pos.compare_cont Eq) with Pos.compare;
    rewrite Z.compare_refl, Pos.compare_refl; reflexivity.
Qed.

(** Transitivity, strict as soon as one step is. *)
Lemma SFle_trans a b c :
  SFle a b → SFle b c →
  SFle a c ∧ (SFlt a b ∨ SFlt b c → SFlt a c).
Proof.
  unfold SFle, SFlt.
  destruct a as [[]|[]| |[] m1 e1], b as [[]|[]| |[] m2 e2],
           c as [[]|[]| |[] m3 e3];
    cbn; try (intuition congruence);
    change (Pos.compare_cont Eq) with Pos.compare;
    destruct (Z.compare_spec e1 e2), (Z.compare_spec e2 e3),
             (Z.compare_spec e1 e3); try lia;
    destruct (Pos.compare_spec m1 m2), (Pos.compare_spec m2 m3),
             (Pos.compare_spec m1 m3); cbn; try lia;
    intuition congruence.
Qed.

Lemma not_nan_spec x : is_nan x = false ↔ Prim2SF x ≠ S754_nan.
Proof.
  unfold is_nan. rewrite FloatAxioms.eqb_spec. unfold SFeqb. split.
  - intros H Hn. rewrite Hn in H. discriminate.
  - intros H. by rewrite SFcompare_refl.
Qed.

Lemma SFlt_not_nan a b : SFlt a b → a ≠ S754_nan ∧ b ≠ S754_nan.
Proof. unfold SFlt. destruct a, b; cbn; intros; split; congruence. Qed.

Lemma leb_le x y : (x <=? y) = true ↔ SFle (Prim2SF x) (Prim2SF y).
Proof. rewrite FloatAxioms.leb_spec. apply SFleb_le. Qed.

Lemma ltb_lt x y : (x <? y) = true ↔ SFlt (Prim2SF x) (Prim2SF y).
Proof. rewrite FloatAxioms.ltb_spec. apply SFltb_lt. Qed.

Lemma float_leb_refl x : is_nan x = false → (x <=? x) = true.
Proof.
  intros H. apply leb_le. right. by apply SFcompare_refl, not_nan_spec.
Qed.

Lemma float_ltb_leb x y : (x <? y) = true → (x <=? y) = true.
Proof. rewrite ltb_lt, leb_le. by left. Qed.

Lemma float_leb_ltb_trans x y z :
  (x <=? y) = true → (y <? z) = true → (x <? z) = true.
Proof.
  rewrite leb_le, !ltb_lt. intros Hxy Hyz.
  apply (SFle_trans _ _ _ Hxy); [by left | by right].
Qed.

Lemma float_ltb_trans x y z :
  (x <? y) = true → (y <? z) = true → (x <? z) = true.
Proof. intros Hxy. by apply float_leb_ltb_trans, float_ltb_leb. Qed.

Lemma float_leb_trans x y z :
  (x <=? y) = true → (y <=? z) = true → (x <=? z) = true.
Proof.
  rewrite !leb_le. intros Hxy Hyz. by apply (SFle_trans _ _ _ Hxy).
Qed.

(** Totality away from NaN. *)
Lemma float_not_ltb_leb x y :
  is_nan x = false → is_nan y = false →
  (x <? y) = false → (y <=? x) = true.
Proof.
  intros Hx%not_nan_spec Hy%not_nan_spec Hlt. apply leb_le.
  destruct (SFcompare_total _ _ Hx Hy) as [o Ho].
  apply SFcompare_opp in Ho as Ho'.
  rewrite FloatAxioms.ltb_spec in Hlt. unfold SFltb in Hlt. rewrite Ho in Hlt.
  unfold SFle. rewrite Ho'. destruct o; cbn; auto; discriminate.
Qed.

Lemma float_ltb_not_leb x y : (x <? y) = true → (y <=? x) = false.
Proof.
  rewrite ltb_lt. unfold SFlt. intros Ho.
  apply SFcompare_opp in Ho as Ho'.
  rewrite FloatAxioms.leb_spec. unfold SFleb. by rewrite Ho'.
Qed.

Lemma float_ltb_not_nan x y :
  (x <? y) = true → is_nan x = false ∧ is_nan y = false.
Proof. rewrite ltb_lt, !not_nan_spec. apply SFlt_not_nan. Qed.

Lemma float_leb_not_nan x y :
  (x <=? y) = true → is_nan x = false ∧ is_nan y = false.
Proof.
  rewrite leb_le, !not_nan_spec. unfold SFle.
  destruct (Prim2SF x), (Prim2SF y); cbn; intros [?|?]; split; congruence.
Qed.

Lemma float_ltb_not_eqb x y : (x <? y) = true → (y =? x) = false.
Proof.
  rewrite ltb_lt. unfold SFlt. intros Ho.
  apply SFcompare_opp in Ho as Ho'.
  rewrite FloatAxioms.eqb_spec. unfold SFeqb. by rewrite Ho'.
Qed.

End FloatOrder.

(** ** [max] returns the first maximum *)

Section PyMax.
Context {A : Type} (key : A → float).
Implicit Types (x best : A) (xs pre : list A).

Lemma py_max_from_inv xs : ∀ pre i best,
  Forall (λ x, is_nan (key x) = false) (pre ++ xs) →
  first_max_at key pre i best →
  ∃ i', first_max_at key (pre ++ xs) i' (py_max_from key best xs).
Proof.
  induction xs as [|x xs IH]; intros pre i best Hnan (Hi & Hmax & Hlt).
  { exists i. rewrite app_nil_r. done. }
  assert (Hpre : Forall (λ x, is_nan (key x) = false) pre)
    by (by apply Forall_app in Hnan as [? _]).
  assert (Hx : is_nan (key x) = false).
  { apply Forall_app in Hnan as [_ H]. by inversion H. }
  assert (Hb : is_nan (key best) = false).
  { eapply Forall_forall in Hpre; [done|]. by eapply list_elem_of_lookup_2. }
  cbn [py_max_from].
  replace (pre ++ x :: xs) with ((pre ++ [x]) ++ xs) in *
    by (by rewrite <- app_assoc).
  destruct (key best <? key x) eqn:Hcmp.
  - apply (IH _ (length pre)); [done|]. split; [|split].
    + by rewrite lookup_app_r, Nat.sub_diag.
    + intros y [Hy|Hy%list_elem_of_singleton]%elem_of_app.
      * apply float_ltb_leb.
        by eapply float_leb_ltb_trans; [apply Hmax|].
      * subst. by apply float_leb_refl.
    + intros j y Hj Hlen. rewrite lookup_app_l in Hj by done.
      eapply float_leb_ltb_trans; [|done].
      apply Hmax. by eapply list_elem_of_lookup_2.
  - apply (IH _ i); [done|]. split; [|split].
    + apply lookup_app_l_Some. done.
    + intros y [Hy|Hy%list_elem_of_singleton]%elem_of_app; [by apply Hmax|].
      subst. by apply float_not_ltb_leb.
    + intros j y Hj Hlen. apply (Hlt j); [|done].
      apply lookup_lt_Some in Hi.
      rewrite lookup_app_l in Hj by lia. done.
Qed.

Lemma first_max_at_find l i x :
  first_max_at key l i x → Spec.first_max key l = Some x.
Proof.
  intros (Hi & Hmax & Hlt). unfold Spec.first_max.
  assert (list_find (λ x, Forall (λ y, (key y <=? key x) = true) l) l
          = Some (i, x)) as ->; [|done].
  apply list_find_Some. split; [done|]. split.
  - apply Forall_forall. done.
  - intros j y Hj Hji Hall.
    pose proof (float_ltb_not_leb _ _ (Hlt j y Hj Hji)) as Hno.
    rewrite Forall_forall in Hall.
    specialize (Hall x (list_elem_of_lookup_2 _ _ _ Hi)). congruence.
Qed.

(** [max(best :: xs, key=key)] is the first maximum of the sequence,
    provided no key is NaN. *)
Lemma py_max_from_first_max best xs :
  Forall (λ x, is_nan (key x) = false) (best :: xs) →
  Spec.first_max key (best :: xs) = Some (py_max_from key best xs).
Proof.
  intros Hnan.
  destruct (py_max_from_inv xs [best] 0 best) as [i Hi]; [done| |].
  - split; [done|]. split; [|intros; lia].
    intros y ->%list_elem_of_singleton. apply float_leb_refl.
    by inversion Hnan.
  - by eapply first_max_at_find.
Qed.

Lemma py_max_from_elem best xs : py_max_from key best xs ∈ best :: xs.
Proof.
  revert best. induction xs as [|x xs IH]; intros best; cbn.
  - apply list_elem_of_here.
  - pose proof (IH (if key best <? key x then x else best)) as Hin.
    destruct (key best <? key x).
    + by apply list_elem_of_further.
    + apply elem_of_cons in Hin as [->|Hin]; [apply list_elem_of_here|].
      by do 2 apply list_elem_of_further.
Qed.

End PyMax.

(** ** The merge of recognizer results *)

Section Merge.
Import RuleBasedIntentChain.

Lemma has_regex_rule_pattern r :
  has_regex_rule r ↔ Spec.pattern_result r.
Proof.
  unfold has_regex_rule, Spec.pattern_result.
  rewrite Exists_exists. split.
  - intros H%Is_true_true%existsb_exists. destruct H as (x & Hx & Hc).
    exists x. by rewrite list_elem_of_In.
  - intros (x & Hx & Hc). apply Is_true_true, existsb_exists.
    exists x. by rewrite <- list_elem_of_In.
Qed.

Lemma filter_head_find {A} (P : A → Prop) `{!∀ x, Decision (P x)} l :
  head (filter P l) = snd <$> list_find P l.
Proof.
  induction l as [|x l IH]; [done|].
  rewrite filter_cons. cbn [list_find]. destruct (decide (P x)); [done|].
  rewrite IH. by destruct (list_find P l) as [[]|].
Qed.

(** The code looks at the first pattern result only. *)
Lemma merge_results_unfold results :
  _merge_results results =
    match Spec.remaining results with
    | [] => IntentResult_default
    | v :: vs =>
        match list_find Spec.pattern_result (v :: vs) with
        | Some (_, r) =>
            if 0.8 <? confidence r then r
            else py_max_from confidence v vs
        | None => py_max_from confidence v vs
        end
    end.
Proof.
  unfold _merge_results, Spec.remaining.
  destruct (filter _ results) as [|v vs]; [done|].
  pose proof (filter_head_find (λ r, has_regex_rule r) (v :: vs)) as Hhead.
  rewrite (list_find_ext _ Spec.pattern_result) in Hhead
    by apply has_regex_rule_pattern.
  destruct (filter (λ r, has_regex_rule r) (v :: vs)) as [|r0 rs];
    destruct (list_find Spec.pattern_result (v :: vs)) as [[i r]|];
    by simplify_eq/=.
Qed.

End Merge.

(** ** The pattern recognizer *)

Section RegexParser.
Import RegexIntentParser.

Lemma first_success_app (l1 l2 : list (str * nat * option Match)) :
  head (filter succeeded (l1 ++ l2)) =
    match head (filter succeeded l1) with
    | Some a => Some a
    | None => head (filter succeeded l2)
    end.
Proof.
  rewrite filter_app. by destruct (filter succeeded l1).
Qed.

Lemma try_patterns_first intent text ps : ∀ i,
  try_patterns intent text i ps =
    outcome (head (filter succeeded
      (attempt text <$> imap (λ j p, (intent, (i + j)%nat, p)) ps))).
Proof.
  induction ps as [|p ps IH]; intros i; [done|].
  rewrite imap_cons, fmap_cons, filter_cons. cbn [try_patterns attempt].
  rewrite Nat.add_0_r.
  destruct (decide (succeeded (intent, i, Re.search_ignorecase p text)))
    as [[m Hm]|Hn]; cbn [snd] in *.
  - by rewrite Hm.
  - destruct (Re.search_ignorecase p text) as [m|]; [destruct Hn; by eexists|].
    rewrite IH. do 4 f_equal. apply imap_ext. intros j q _. cbn.
    by rewrite Nat.add_succ_r.
Qed.

Lemma try_intents_first text items :
  try_intents text items =
    default IntentResult_default
      (outcome (head (filter succeeded
         (attempt text <$> Spec.declared (mk items))))).
Proof.
  unfold Spec.declared. cbn [patterns].
  induction items as [|[intent ps] items IH]; [done|].
  cbn [try_intents mbind list_bind].
  rewrite fmap_app, first_success_app, try_patterns_first.
  cbn [Nat.add]. rewrite IH.
  destruct (head (filter succeeded (attempt text <$> imap _ ps)))
    as [[[intent' i] [m|]]|] eqn:Hh; [done| |done].
  apply head_Some_elem_of, list_elem_of_filter in Hh as [[? Hs] _].
  discriminate.
Qed.

Lemma matched_record intent i m :
  matched intent i m =
    mkIntentResult intent 0.9
      [u "regex_" ++ intent ++ u "_" ++ str_of_nat i]
      (if decide (groups m = []) then None else Some (groups m)).
Proof.
  unfold matched, IntentResult_init, rule_name. cbn [post_init].
  by destruct (groups m).
Qed.

Lemma regex_parse_spec self text :
  parse self text = Spec.regex_parse self text.
Proof.
  destruct self as [items]. unfold parse. cbn [patterns].
  rewrite try_intents_first. unfold Spec.regex_parse, Spec.attempts.
  rewrite filter_head_find.
  replace ((λ '(intent, i, p), (intent, i, Re.search_ignorecase p text))
             <$> Spec.declared (mk items))
    with (attempt text <$> Spec.declared (mk items)).
  2:{ apply list_fmap_ext. by intros ? [[? ?] ?]. }
  unfold succeeded.
  destruct (list_find _ _) as [[k [[intent i] [m|]]]|]; cbn; [|done..].
  apply matched_record.
Qed.

End RegexParser.

(** ** The keyword recognizer *)

Section OrderedDict.
Context {V : Type}.
Implicit Types (d : list (str * V)) (k : str) (v : V).

Lemma odict_set_fresh d k v : k ∉ d.*1 → ODict.set d k v = d ++ [(k, v)].
Proof.
  induction d as [|[k' v'] d IH]; intros Hk; [done|]. cbn in *.
  apply not_elem_of_cons in Hk as [Hne Hk].
  rewrite bool_decide_eq_false_2 by done. by rewrite IH.
Qed.

Lemma odict_get_elem d k v : NoDup d.*1 → (k, v) ∈ d → ODict.get d k = Some v.
Proof.
  induction d as [|[k' v'] d IH]; intros Hnd Hin; [by apply elem_of_nil in Hin|].
  cbn in *. apply NoDup_cons in Hnd as [Hk' Hnd].
  apply elem_of_cons in Hin as [[= <- <-]|Hin].
  - by rewrite bool_decide_eq_true_2.
  - rewrite bool_decide_eq_false_2; [by apply IH|].
    intros ->. apply Hk'. by apply (list_elem_of_fmap_2 fst) in Hin.
Qed.
End OrderedDict.

Section KeywordParser.
Import KeywordIntentParser.
Implicit Types (text : str) (c : config).

Lemma count_tier_spec text weight words : ∀ s m,
  count_tier text weight words (s, m) =
    (foldl PrimFloat.add s (hits text weight words),
     m ++ Spec.occurring text words).
Proof.
  unfold count_tier, hits, Spec.occurring.
  induction words as [|w words IH]; intros s m.
  { cbn. by rewrite app_nil_r. }
  rewrite filter_cons. cbn [foldl].
  destruct (str_contains w text) eqn:Hw.
  - rewrite decide_True by done. rewrite IH. cbn. by rewrite <- app_assoc.
  - rewrite decide_False by done. apply IH.
Qed.

Lemma count_intent_spec text c :
  count_intent text c = (raw_score text c, words text c).
Proof.
  unfold count_intent, raw_score, words.
  rewrite !count_tier_spec, foldl_app. done.
Qed.

Lemma keyword_score_raw text c :
  Spec.keyword_score text c = py_min (raw_score text c) 1.0.
Proof. done. Qed.

Lemma clamp_pos s : (0.0 <? Spec.clamp s) = (0.0 <? s).
Proof.
  unfold Spec.clamp. destruct (1.0 <? s) eqn:H1; [|done].
  symmetry. by apply (float_ltb_trans _ 1.0).
Qed.

Lemma collect_from text items : ∀ acc,
  NoDup (acc.*1 ++ items.*1) →
  foldl (λ scores '(intent, c),
           let '(score, matched) := count_intent text c in
           if 0.0 <? score
           then ODict.set scores intent (mkEntry (py_min score 1.0) matched)
           else scores) acc items
  = acc ++ omap (entry_of text) items.
Proof.
  induction items as [|[intent c] items IH]; intros acc Hnd.
  { cbn. by rewrite app_nil_r. }
  cbn [foldl omap list_omap entry_of]. rewrite count_intent_spec.
  cbn [fmap list_fmap fst] in Hnd.
  destruct (0.0 <? raw_score text c).
  - rewrite odict_set_fresh.
    2:{ apply NoDup_app in Hnd as (_ & Hd & _). intros Hin.
        apply (Hd _ Hin). apply list_elem_of_here. }
    rewrite IH; [by rewrite <- app_assoc|].
    rewrite fmap_app, <- app_assoc. done.
  - apply IH. apply NoDup_app in Hnd as (Ha & Hd & Hi).
    apply NoDup_cons in Hi as [_ Hi]. apply NoDup_app. split; [done|].
    split; [|done]. intros x Hx Hx'. apply (Hd x Hx).
    by apply list_elem_of_further.
Qed.

Lemma collect_spec text items :
  NoDup items.*1 → collect text items = omap (entry_of text) items.
Proof. intros Hnd. unfold collect. by rewrite collect_from. Qed.

Lemma omap_entry_keys text items :
  (omap (entry_of text) items).*1 `sublist_of` items.*1.
Proof.
  induction items as [|[intent c] items IH]; [done|].
  cbn [omap list_omap entry_of]. destruct (0.0 <? _); cbn.
  - by apply sublist_skip.
  - by apply sublist_cons.
Qed.

Lemma candidates_spec text items :
  filter (λ x, (0.0 <? Spec.s_score x) = true)
    (Spec.keyword_scored (mk items) text)
  = as_scored <$> omap (entry_of text) items.
Proof.
  unfold Spec.keyword_scored. cbn [keywords].
  induction items as [|[intent c] items IH]; [done|].
  rewrite fmap_cons, filter_cons. cbn [omap list_omap entry_of Spec.s_score].
  rewrite keyword_score_raw.
  change (py_min (raw_score text c) 1.0) with (Spec.clamp (raw_score text c)).
  rewrite clamp_pos. destruct (0.0 <? raw_score text c).
  - rewrite decide_True by done. rewrite fmap_cons, IH. done.
  - rewrite decide_False by done. done.
Qed.

Lemma py_max_from_fmap {A B} (f : A → B) (key : B → float) x0 xs :
  py_max_from key (f x0) (f <$> xs) = f (py_max_from (key ∘ f) x0 xs).
Proof.
  revert x0. induction xs as [|x xs IH]; intros x0; [done|].
  cbn. rewrite <- IH. by destruct (key (f x0) <? key (f x)).
Qed.

Lemma py_max_from_ext {A} (key key' : A → float) x0 xs :
  (∀ x, x ∈ x0 :: xs → key x = key' x) →
  py_max_from key x0 xs = py_max_from key' x0 xs.
Proof.
  revert x0. induction xs as [|x xs IH]; intros x0 Hext; [done|].
  cbn. rewrite <- (Hext x0) by apply list_elem_of_here.
  rewrite <- (Hext x) by apply list_elem_of_further, list_elem_of_here.
  apply IH. intros y [->|Hy]%elem_of_cons.
  - apply Hext. destruct (key x0 <? key x);
      [apply list_elem_of_further|]; apply list_elem_of_here.
  - apply Hext. by do 2 apply list_elem_of_further.
Qed.

Lemma keyword_parse_spec self text :
  NoDup (keywords self).*1 →
  parse self text = Spec.keyword_parse self text.
Proof.
  destruct self as [items]. cbn [keywords]. intros Hnd.
  unfold parse, Spec.keyword_parse. cbn [keywords].
  rewrite candidates_spec, collect_spec by done.
  pose proof (omap_entry_keys text items) as Hsub.
  assert (Hnd' : NoDup (omap (entry_of text) items).*1)
    by (by eapply sublist_NoDup).
  assert (Hpos : Forall (λ e, (0.0 <? score e.2) = true)
                   (omap (entry_of text) items)).
  { apply Forall_forall. intros [k e] Hin.
    apply list_elem_of_omap in Hin as ([intent c] & _ & Hentry).
    cbn in Hentry. destruct (0.0 <? raw_score text c) eqn:Hr; [|done].
    simplify_eq/=. change (py_min (raw_score text c) 1.0)
      with (Spec.clamp (raw_score text c)). by rewrite clamp_pos. }
  destruct (omap (entry_of text) items) as [|e0 es] eqn:Hd; [done|].
  unfold ODict.keys. rewrite fmap_cons.
  set (d := e0 :: es) in *.
  assert (Hkey : ∀ e, e ∈ d → score_of d e.1 = score e.2).
  { intros [k e] Hin. unfold score_of. cbn [fst snd].
    by rewrite (odict_get_elem d k e). }
  rewrite py_max_from_fmap.
  rewrite (py_max_from_ext (score_of d ∘ fst) (λ e, score e.2)) by done.
  set (best := py_max_from (λ e, score e.2) e0 es).
  assert (Hbest : best ∈ d) by apply py_max_from_elem.
  change (as_scored <$> d) with (as_scored e0 :: (as_scored <$> es)).
  rewrite (py_max_from_first_max Spec.s_score).
  2:{ change (as_scored e0 :: (as_scored <$> es)) with (as_scored <$> d).
      apply Forall_fmap. eapply Forall_impl; [done|].
      intros e He. by apply float_ltb_not_nan in He as [_ ?]. }
  rewrite py_max_from_fmap.
  unfold IntentResult_init, words_of, rule_name. cbn [post_init].
  rewrite Hkey by done.
  change (py_max_from (Spec.s_score ∘ as_scored) e0 es) with best.
  clearbody best. destruct best as [k e]. cbn [fst snd].
  rewrite (odict_get_elem d k e) by done. done.
Qed.

End KeywordParser.

(** ** Captures and slot extraction *)

Section Captures.
Context {A : Type}.
Implicit Types (r : regex) (s : str) (cs : captures).
Implicit Types k : str → captures → option A.

Lemma repeat_loop_captures body greedy lo hi k :
  keeps_captures body →
  ∀ fuel count s cs x,
    repeat_loop body greedy lo hi k fuel count s cs = Some x →
    ∃ s' cs', length cs' = length cs ∧ k s' cs' = Some x.
Proof.
  intros Hbody fuel.
  induction fuel as [|fuel IHf]; intros count s cs x; [done|].
  cbn [repeat_loop].
  assert (Hagain : ∀ progress,
    body s cs (λ s' cs',
      if progress && (length s' =? length s)%nat then k s' cs'
      else repeat_loop body greedy lo hi k fuel (S count) s' cs') = Some x →
    ∃ s' cs', length cs' = length cs ∧ k s' cs' = Some x).
  { intros progress (s1 & cs1 & Hl1 & H)%Hbody.
    destruct (progress && _); [by exists s1, cs1|].
    apply IHf in H as (s2 & cs2 & Hl2 & H).
    exists s2, cs2. split; [congruence|done]. }
  cbv zeta. destruct (count <? lo)%nat; [apply Hagain|].
  destruct (below hi count); [|eauto].
  destruct greedy.
  - destruct (body s cs _) eqn:Hr; [|eauto].
    intros [= <-]. by apply Hagain in Hr.
  - destruct (k s cs) eqn:Hk; [intros [= <-]; eauto|]. apply Hagain.
Qed.

(** Matching never changes the number of captures. *)
Lemma rmatch_captures r : keeps_captures (A := A) (rmatch r).
Proof.
  induction r as [|c| | |r1 IH1 r2 IH2|r1 IH1 r2 IH2|g lo hi r IH|n r IH];
    intros s cs k x; cbn [rmatch].
  - eauto.
  - destruct s as [|d s]; [done|].
    destruct (c =? d)%N; intros; simplify_eq; eauto.
  - destruct s as [|d s]; [done|].
    destruct (d =? 10)%N; intros; simplify_eq; eauto.
  - destruct s as [|d s]; [done|].
    destruct (is_decimal d); intros; simplify_eq; eauto.
  - intros (s1 & cs1 & Hl1 & H)%IH1. apply IH2 in H as (s2 & cs2 & Hl2 & H).
    exists s2, cs2. split; [congruence|done].
  - destruct (rmatch r1 s cs k) eqn:H1.
    + intros [= <-]. by apply IH1 in H1.
    + apply IH2.
  - by apply repeat_loop_captures.
  - intros (s1 & cs1 & Hl1 & H)%IH. eexists _, _. split; [|done].
    unfold set_capture. by rewrite length_insert.
Qed.
End Captures.

(** ** The fuel of a repetition never runs out *)

Section Fuel.
Context {A : Type}.
Implicit Types (r : regex) (s : str) (cs : captures).
Implicit Types k : str → captures → option A.

Lemma repeat_loop_local body greedy lo hi :
  local (A := A) body →
  ∀ fuel count,
    local (λ s cs k, repeat_loop body greedy lo hi k fuel count s cs).
Proof.
  intros Hbody fuel.
  induction fuel as [|fuel IH]; intros count s cs k k' Hk; [done|].
  cbn [repeat_loop]. cbv zeta.
  assert (Hagain : ∀ progress,
    body s cs (λ s' cs',
      if progress && (length s' =? length s)%nat then k s' cs'
      else repeat_loop body greedy lo hi k fuel (S count) s' cs')
    = body s cs (λ s' cs',
      if progress && (length s' =? length s)%nat then k' s' cs'
      else repeat_loop body greedy lo hi k' fuel (S count) s' cs')).
  { intros progress. apply Hbody. intros s' cs' Hlen.
    destruct (progress && _); [by apply Hk|].
    apply (IH (S count) s' cs' k k'). intros s'' cs'' Hlen'.
    apply Hk. lia. }
  rewrite !Hagain, (Hk s cs) by done. done.
Qed.

(** The matcher calls its continuation on what remains of the text
    only. *)
Lemma rmatch_local r : local (A := A) (rmatch r).
Proof.
  induction r as [|c| | |r1 IH1 r2 IH2|r1 IH1 r2 IH2|g lo hi r IH|n r IH];
    intros s cs k k' Hk; cbn [rmatch].
  - by apply Hk.
  - destruct s as [|d s]; [done|]. destruct (c =? d)%N; [|done].
    apply Hk. cbn. lia.
  - destruct s as [|d s]; [done|]. destruct (d =? 10)%N; [done|].
    apply Hk. cbn. lia.
  - destruct s as [|d s]; [done|]. destruct (is_decimal d); [|done].
    apply Hk. cbn. lia.
  - apply IH1. intros s' cs' Hlen. apply IH2. intros s'' cs'' Hlen'.
    apply Hk. lia.
  - by rewrite (IH1 s cs k k'), (IH2 s cs k k').
  - by apply (repeat_loop_local _ g lo hi IH).
  - apply IH. intros s' cs' Hlen. by apply Hk.
Qed.

(** Past [lo - count + length s] the amount of fuel does not matter:
    the mandatory iterations use up [lo - count], and every further
    one consumes a character. *)
Lemma repeat_loop_fuel body greedy lo hi k :
  local body →
  ∀ fuel1 fuel2 count s cs,
    (lo - count + length s < fuel1)%nat →
    (lo - count + length s < fuel2)%nat →
    repeat_loop body greedy lo hi k fuel1 count s cs
    = repeat_loop body greedy lo hi k fuel2 count s cs.
Proof.
  intros Hbody fuel1.
  induction fuel1 as [|fuel1 IH]; intros fuel2 count s cs H1 H2; [lia|].
  destruct fuel2 as [|fuel2]; [lia|].
  cbn [repeat_loop]. cbv zeta.
  destruct (count <? lo)%nat eqn:Hlo.
  - apply Nat.ltb_lt in Hlo. apply Hbody. intros s' cs' Hlen. cbn.
    apply IH; lia.
  - apply Nat.ltb_ge in Hlo.
    assert (Hagain :
      body s cs (λ s' cs',
        if true && (length s' =? length s)%nat then k s' cs'
        else repeat_loop body greedy lo hi k fuel1 (S count) s' cs')
      = body s cs (λ s' cs',
        if true && (length s' =? length s)%nat then k s' cs'
        else repeat_loop body greedy lo hi k fuel2 (S count) s' cs')).
    { apply Hbody. intros s' cs' Hlen. cbn.
      destruct (length s' =? length s)%nat eqn:Heq; [done|].
      apply Nat.eqb_neq in Heq. apply IH; lia. }
    by rewrite Hagain.
Qed.

(** The fuel that [rmatch] gives to a repetition is enough: more fuel
    changes nothing. *)
Lemma rmatch_repeat_fuel greedy lo hi r s cs k extra :
  rmatch (Repeat greedy lo hi r) s cs k
  = repeat_loop (rmatch r) greedy lo hi k
      (S (lo + length s) + extra) O s cs.
Proof.
  cbn [rmatch]. apply repeat_loop_fuel; [apply rmatch_local|lia..].
Qed.

End Fuel.

Lemma search_groups_length r : ∀ text m,
  Re.search r text = Some m → length (groups m) = ngroups r.
Proof.
  unfold Re.search. intros text. induction text as [|c text IH]; intros m;
    cbn [search_from];
    destruct (rmatch r _ _ _) as [[s' cs]|] eqn:Hr; try done;
    try (intros [= <-]; cbn;
         apply rmatch_captures in Hr as (s1 & cs1 & Hl & [= _ <-]);
         by rewrite Hl, length_replicate).
  apply IH.
Qed.

Section SlotExtractor.
Import SlotExtractor.

Lemma fill_spec text patterns : ∀ slots,
  NoDup patterns.*1 →
  Forall (λ np, ngroups np.2 ≠ 0%nat) patterns →
  ∃ slots', fill text patterns slots = Ok slots'
    ∧ ∀ name,
        slots' !! name =
          match (list_to_map patterns : gmap str regex) !! name
                ≫= slot_of text with
          | Some v => Some v
          | None => slots !! name
          end.
Proof.
  induction patterns as [|[n0 p0] patterns IH]; intros slots Hnd Hng.
  { exists slots. split; [done|]. intros name.
    by rewrite list_to_map_nil, lookup_empty. }
  cbn [fmap list_fmap fst] in Hnd. apply NoDup_cons in Hnd as [Hn0 Hnd].
  apply Forall_cons in Hng as [Hg0 Hng]. cbn [snd] in Hg0.
  apply (not_elem_of_list_to_map_1 (M := gmap str)) in Hn0.
  cbn [fill]. rewrite list_to_map_cons.
  destruct (Re.search p0 text) as [m|] eqn:Hs.
  - pose proof (search_groups_length _ _ _ Hs) as Hlen.
    unfold group1. destruct (groups m) as [|g gs] eqn:Hgs; [done|].
    cbn [mbind pyresult_bind].
    destruct (IH (<[n0:=g]> slots) Hnd Hng) as (slots' & -> & Hl).
    exists slots'. split; [done|]. intros name. rewrite Hl.
    destruct (decide (n0 = name)) as [<-|Hne].
    + rewrite Hn0, !lookup_insert_eq. cbn. unfold slot_of.
      rewrite Hs. cbn. by rewrite Hgs.
    + by rewrite !lookup_insert_ne.
  - destruct (IH slots Hnd Hng) as (slots' & -> & Hl).
    exists slots'. split; [done|]. intros name. rewrite Hl.
    destruct (decide (n0 = name)) as [<-|Hne].
    + rewrite Hn0, lookup_insert_eq. cbn. unfold slot_of. by rewrite Hs.
    + by rewrite lookup_insert_ne.
Qed.

Lemma extract_slots_spec self text intent :
  well_formed self →
  ∃ slots, extract_slots self text intent = Ok slots
    ∧ (∀ name, slots !! name = Spec.slot_value self text intent name)
    ∧ (slot_patterns self !! intent = None → slots = ∅).
Proof.
  intros Hwf. unfold extract_slots, Spec.slot_value.
  destruct (slot_patterns self !! intent) as [ps|] eqn:Hps.
  - destruct (Hwf _ _ Hps) as [Hnd Hng].
    destruct (fill_spec text ps ∅ Hnd Hng) as (slots & -> & Hl).
    exists slots. split; [done|]. split; [|done]. intros name.
    rewrite Hl, lookup_empty. cbn. unfold slot_of.
    by destruct (list_to_map ps !! name ≫= _).
  - exists ∅. split; [done|]. split; [|done]. intros name.
    by rewrite lookup_empty.
Qed.

Lemma init_well_formed : well_formed init.
Proof.
  unfold well_formed, init. cbn [slot_patterns].
  apply map_Forall_to_list, Forall_forall. intros [k ps] Hin.
  apply elem_of_map_to_list, elem_of_list_to_map_2 in Hin.
  repeat (apply elem_of_cons in Hin as [[= -> ->]|Hin]);
    [..|by apply elem_of_nil in Hin];
    (split; [apply (bool_decide_unpack _); by vm_compute|]);
    repeat constructor; by vm_compute.
Qed.

End SlotExtractor.

Section RegexClaims.
Import RegexIntentParser.

(** A result of the pattern recognizer is the default one or is built
    from a declared intent by [matched]. *)
Lemma regex_parse_cases self text :
  parse self text = IntentResult_default
  ∨ ∃ intent i m, intent ∈ (patterns self).*1
      ∧ parse self text = matched intent i m.
Proof.
  unfold parse. induction (patterns self) as [|[intent ps] items IH];
    [by left|].
  cbn [try_intents]. destruct (try_patterns intent text 0 ps) as [r|] eqn:Hr.
  - right. exists intent. revert Hr. generalize 0%nat.
    induction ps as [|p ps IHps]; intros i; [done|]. cbn.
    destruct (Re.search_ignorecase p text) as [m|]; [|apply IHps].
    intros [= <-]. exists i, m. split; [apply list_elem_of_here|done].
  - destruct IH as [IH|(intent' & i & m & Hin & IH)]; [by left|].
    right. exists intent', i, m. split; [by apply list_elem_of_further|done].
Qed.

(** The flag adds no group to a pattern. *)
Lemma ngroups_ignorecase r : ngroups (ignorecase r) = ngroups r.
Proof.
  induction r as [|c| | |r1 IH1 r2 IH2|r1 IH1 r2 IH2|greedy lo hi r IH|n r IH];
    cbn [ignorecase ngroups]; try congruence.
  induction (filter _ _) as [|d ds IH]; [done|]. cbn [foldr ngroups].
  by rewrite IH.
Qed.

Lemma search_ignorecase_groups r text m :
  Re.search_ignorecase r text = Some m → length (groups m) = ngroups r.
Proof.
  intros Hm. apply search_groups_length in Hm.
  by rewrite ngroups_ignorecase in Hm.
Qed.

(** The patterns of the source have no cased letter: on them the flag
    changes nothing. *)
Lemma init_patterns_uncased :
  Forall (λ rule, ignorecase rule.2 = rule.2) (Spec.declared init).
Proof.
  apply Forall_forall. intros rule Hin. vm_compute in Hin.
  repeat (apply elem_of_cons in Hin as [->|Hin]; [by vm_compute|]).
  by apply elem_of_nil in Hin.
Qed.

Lemma init_search_ignorecase rule text :
  rule ∈ Spec.declared init →
  Re.search_ignorecase rule.2 text = Re.search rule.2 text.
Proof.
  intros Hin. unfold Re.search_ignorecase.
  by rewrite (proj1 (Forall_forall _ _) init_patterns_uncased rule Hin).
Qed.

(** C4: the pattern recognizer tries the patterns in declaration
    order, intent by intent, each by a search without regard to case,
    and answers with the first one that matches: confidence 0.9, the
    single rule [regex_<intent>_<index>], and the capture groups as
    entities ([None] when the pattern has no group); it answers with
    the default ["unknown"] result when no pattern matches. *)
Theorem regex_parse_first_match (self : RegexIntentParser.t) (text : str) :
  parse self text = Spec.regex_parse self text
  ∧ (∀ k intent i m,
       Spec.attempts self text !! k = Some (intent, i, Some m) →
       (∀ j a, (j < k)%nat → Spec.attempts self text !! j = Some a →
               a.2 = None) →
       parse self text =
         mkIntentResult intent 0.9
           [u "regex_" ++ intent ++ u "_" ++ str_of_nat i]
           (if decide (groups m = []) then None else Some (groups m)))
  ∧ ((∀ a, a ∈ Spec.attempts self text → a.2 = None) →
     parse self text = IntentResult_default).
Proof.
  split; [apply regex_parse_spec|]. rewrite regex_parse_spec.
  unfold Spec.regex_parse. split.
  - intros k intent i m Hk Hfirst.
    assert (list_find (λ a, is_Some a.2) (Spec.attempts self text)
            = Some (k, (intent, i, Some m))) as ->; [|done].
    apply list_find_Some. split; [done|]. split; [by eexists|].
    intros j a Ha Hj [m' Hm']. by rewrite (Hfirst j a Hj Ha) in Hm'.
  - intros Hnone.
    assert (list_find (λ a, is_Some a.2) (Spec.attempts self text) = None)
      as ->; [|done].
    apply list_find_None, Forall_forall. intros a Ha [m' Hm'].
    by rewrite (Hnone a Ha) in Hm'.
Qed.

(** The search is without regard to case: a table with cased letters
    matches a text in the other case, the Kelvin sign included. *)
Example regex_parse_ignores_case :
  parse (mk [(u "greet", [pat "hello"])]) (u "HELLO")
    = mkIntentResult (u "greet") 0.9 [u "regex_greet_0"] None
  ∧ Re.search (pat "hello") (u "HELLO") = None
  ∧ parse (mk [(u "unit", [pat "(\d+)k"])]) (u "300K")
    = mkIntentResult (u "unit") 0.9 [u "regex_unit_0"] (Some [Some (u "300")]).
Proof. by vm_compute. Qed.

(** The first match wins even when a later pattern matches as well:
    here [退.*款] (refund, index 0) is declared before [不要.*了]. *)
Example regex_parse_refund :
  parse init (u "退款退款，我不要这个商品了") =
    mkIntentResult (u "refund") 0.9 [u "regex_refund_0"] None
  ∧ is_Some (Re.search (pat "不要.*了")
               (u "退款退款，我不要这个商品了")).
Proof. split; [by vm_compute|]. vm_compute. by eexists. Qed.

Example regex_parse_order_number :
  parse init (u "我要查订单号123456的物流状态") =
    mkIntentResult (u "query_order") 0.9 [u "regex_query_order_0"]
      (Some [Some (u "6")]).
Proof. by vm_compute. Qed.

End RegexClaims.

Section KeywordClaims.
Import KeywordIntentParser.

Lemma init_keys_distinct : NoDup (keywords init).*1.
Proof. apply (bool_decide_unpack _). by vm_compute. Qed.

Lemma first_max_nonempty {A} (key : A → float) x xs :
  Forall (λ y, is_nan (key y) = false) (x :: xs) →
  ∃ y, Spec.first_max key (x :: xs) = Some y ∧ y ∈ x :: xs.
Proof.
  intros Hnan. exists (py_max_from key x xs).
  split; [by apply py_max_from_first_max|apply py_max_from_elem].
Qed.

(** What the keyword recognizer answers: the default result when no
    intent scores above 0, and otherwise a result built from an intent
    that does. *)
Lemma keyword_parse_cases self text :
  NoDup (keywords self).*1 →
  (parse self text = IntentResult_default
   ∧ ∀ intent c, (intent, c) ∈ keywords self →
       (0.0 <? Spec.keyword_score text c) = false)
  ∨ ∃ intent c,
      (intent, c) ∈ keywords self
      ∧ (0.0 <? Spec.keyword_score text c) = true
      ∧ parse self text =
          mkIntentResult intent (Spec.keyword_score text c)
            [u "keyword_" ++ intent]
            (Some (Some <$> words text c)).
Proof.
  intros Hnd. rewrite keyword_parse_spec by done.
  unfold Spec.keyword_parse.
  destruct (filter _ (Spec.keyword_scored self text)) as [|x xs] eqn:Hf.
  - left. split; [done|]. intros intent c Hin.
    apply not_true_is_false. intros Hpos.
    eapply (filter_nil_not_elem_of _ _ (Spec.mkScored intent _ _) Hf);
      [exact Hpos|].
    unfold Spec.keyword_scored.
    by apply (list_elem_of_fmap_2' _ _ (intent, c)).
  - right.
    assert (Hall : Forall (λ y, (0.0 <? Spec.s_score y) = true) (x :: xs)).
    { rewrite <- Hf. apply Forall_forall. by intros y [? _]%list_elem_of_filter. }
    destruct (first_max_nonempty Spec.s_score x xs) as (y & -> & Hy).
    { eapply Forall_impl; [done|]. intros z Hz.
      by apply float_ltb_not_nan in Hz as [_ ?]. }
    rewrite <- Hf in Hy. apply list_elem_of_filter in Hy as [Hpos Hin].
    apply list_elem_of_fmap in Hin as ([intent c] & -> & Hin).
    exists intent, c. done.
Qed.

Lemma no_hits_no_score text c :
  words text c = [] → raw_score text c = 0.0.
Proof.
  unfold words, raw_score, hits.
  intros [-> ->]%app_eq_nil. done.
Qed.

Lemma scored_words_nonempty text c :
  (0.0 <? Spec.keyword_score text c) = true → words text c ≠ [].
Proof.
  rewrite keyword_score_raw.
  change (py_min (raw_score text c) 1.0) with (Spec.clamp (raw_score text c)).
  rewrite clamp_pos. intros Hpos Hw.
  by rewrite (no_hits_no_score _ _ Hw) in Hpos.
Qed.

Lemma clamp_le_one s : is_nan s = false → (Spec.clamp s <=? 1.0) = true.
Proof.
  intros Hs. unfold Spec.clamp. destruct (1.0 <? s) eqn:H1; [done|].
  by apply float_not_ltb_leb.
Qed.

Lemma keyword_confidence_le_one self text :
  NoDup (keywords self).*1 → (confidence (parse self text) <=? 1.0) = true.
Proof.
  intros Hnd.
  destruct (keyword_parse_cases self text Hnd)
    as [[-> _]|(intent & c & _ & Hpos & ->)]; [done|].
  cbn [confidence]. rewrite keyword_score_raw in *.
  change (py_min (raw_score text c) 1.0)
    with (Spec.clamp (raw_score text c)) in *.
  apply clamp_le_one. rewrite clamp_pos in Hpos.
  by apply float_ltb_not_nan in Hpos as [_ ?].
Qed.

(** The only intent with an occurring keyword is the answer. *)
Lemma keyword_parse_single self text name c :
  NoDup (keywords self).*1 →
  (name, c) ∈ keywords self →
  (0.0 <? Spec.keyword_score text c) = true →
  (∀ name' c', (name', c') ∈ keywords self → name' ≠ name →
     words text c' = []) →
  parse self text =
    mkIntentResult name (Spec.keyword_score text c) [u "keyword_" ++ name]
      (Some (Some <$> words text c)).
Proof.
  intros Hnd Hin Hpos Hothers.
  destruct (keyword_parse_cases self text Hnd)
    as [[_ Hnone]|(name' & c' & Hin' & Hpos' & ->)].
  { rewrite (Hnone _ _ Hin) in Hpos. discriminate. }
  destruct (decide (name' = name)) as [->|Hne].
  - assert (c' = c) as ->; [|done].
    pose proof (odict_get_elem _ _ _ Hnd Hin) as H1.
    pose proof (odict_get_elem _ _ _ Hnd Hin') as H2. congruence.
  - exfalso. apply (scored_words_nonempty _ _ Hpos').
    by apply (Hothers name' c').
Qed.

(** C3: the keyword recognizer scores every intent by itself as the
    sum of the weights (0.8 for a primary, 0.4 for a secondary
    keyword) of its keywords that occur in the text, clamped to 1.0;
    it answers with the intent of maximum score among those above 0,
    the first declared on a tie, and that score as confidence, and
    with the default ["unknown"] result when no intent scores above 0.
    The confidence never exceeds 1.0, and two secondary keywords of
    one intent (and no primary one) score 0.8 for it, which is the
    answer when no keyword of another intent occurs. *)
Theorem keyword_parse_policy (text : str) :
  parse init text = Spec.keyword_parse init text
  ∧ (confidence (parse init text) <=? 1.0) = true
  ∧ (∀ name c, (name, c) ∈ keywords init →
       weight_primary c = 0.8 ∧ weight_secondary c = 0.4
       ∧ (Spec.occurring text (primary c) = [] →
          length (Spec.occurring text (secondary c)) = 2%nat →
          Spec.keyword_score text c = 0.8
          ∧ ((∀ name' c', (name', c') ∈ keywords init →
                name' ≠ name →
                Spec.occurring text (primary c') = []
                ∧ Spec.occurring text (secondary c') = []) →
             intent (parse init text) = name
             ∧ confidence (parse init text) = 0.8))).
Proof.
  split; [apply keyword_parse_spec, init_keys_distinct|].
  split; [apply keyword_confidence_le_one, init_keys_distinct|].
  intros name c Hin.
  assert (Hw : weight_primary c = 0.8 ∧ weight_secondary c = 0.4).
  { repeat (apply elem_of_cons in Hin as [[= -> ->]|Hin]); [done..|].
    by apply elem_of_nil in Hin. }
  destruct Hw as [Hw1 Hw2]. do 2 (split; [done|]).
  intros Hp Hs.
  assert (Hscore : Spec.keyword_score text c = 0.8).
  { unfold Spec.keyword_score. rewrite Hp, Hw2.
    by destruct (Spec.occurring text (secondary c)) as [|w1 [|w2 [|]]]. }
  split; [done|]. intros Hothers.
  rewrite (keyword_parse_single init text name c);
    [by rewrite Hscore|apply init_keys_distinct|done|by rewrite Hscore|].
  intros name' c' Hin' Hne. unfold words.
  by destruct (Hothers name' c' Hin' Hne) as [-> ->].
Qed.

Example keyword_parse_two_secondary :
  parse init (u "快递发货") =
    mkIntentResult (u "query_order") 0.8 [u "keyword_query_order"]
      (Some [Some (u "快递"); Some (u "发货")]).
Proof. by vm_compute. Qed.

(** A tie goes to the intent declared first. *)
Example keyword_parse_tie :
  parse init (u "退款，物流信息") =
    mkIntentResult (u "query_order") 0.8 [u "keyword_query_order"]
      (Some [Some (u "物流信息")]).
Proof. by vm_compute. Qed.

Example keyword_parse_clamped :
  parse init (u "查订单，订单状态，快递") =
    mkIntentResult (u "query_order") 1.0 [u "keyword_query_order"]
      (Some [Some (u "查订单"); Some (u "订单状态"); Some (u "快递")]).
Proof. by vm_compute. Qed.

End KeywordClaims.

Section MergeClaims.
Import RuleBasedIntentChain.

(** A result built by the pattern recognizer carries a ["regex"] rule
    and confidence 0.9. *)
Lemma matched_has_regex_rule intent i m :
  has_regex_rule (RegexIntentParser.matched intent i m) = true.
Proof. done. Qed.

(** The merge returns the default result or one of the results. *)
Lemma merge_results_elem results :
  _merge_results results = IntentResult_default
  ∨ (_merge_results results ∈ results
     ∧ intent (_merge_results results) ≠ u "unknown").
Proof.
  unfold _merge_results.
  destruct (filter _ results) as [|v vs] eqn:Hf; [by left|]. right.
  assert (Hsub : ∀ r, r ∈ v :: vs → r ∈ results ∧ intent r ≠ u "unknown").
  { intros r Hr. rewrite <- Hf in Hr.
    by apply list_elem_of_filter in Hr as [? ?]. }
  pose proof (py_max_from_elem confidence v vs) as Hmax.
  destruct (filter (λ r, has_regex_rule r) (v :: vs)) as [|r0 rs] eqn:Hr;
    [by apply Hsub|].
  destruct (0.8 <? confidence r0); [|by apply Hsub].
  apply Hsub. assert (r0 ∈ r0 :: rs) as Hin by apply list_elem_of_here.
  rewrite <- Hr in Hin. by apply list_elem_of_filter in Hin as [_ ?].
Qed.

(** A valid result of the pattern recognizer wins over any other
    result. *)
Lemma merge_regex_first self text other :
  intent (RegexIntentParser.parse self text) ≠ u "unknown" →
  _merge_results [RegexIntentParser.parse self text; other]
  = RegexIntentParser.parse self text.
Proof.
  intros Hvalid.
  destruct (regex_parse_cases self text) as [Hd|(name & i & m & _ & Hm)].
  { by rewrite Hd in Hvalid. }
  rewrite Hm in *. unfold _merge_results.
  rewrite filter_cons, decide_True by done.
  set (rest := filter _ [other]).
  rewrite filter_cons, decide_True by done.
  done.
Qed.

(** Of the pattern results the code tests the first one only.  On a
    list built by hand, with a first pattern result at 0.5 and a later
    one at 0.9, this shows; the pattern recognizer has no result below
    0.9. *)
Example merge_first_pattern_only :
  _merge_results
    [ mkIntentResult (u "refund") 0.5 [u "regex_refund_2"] None;
      mkIntentResult (u "query_order") 1.0 [u "keyword_query_order"]
        (Some [Some (u "查订单"); Some (u "快递")]);
      mkIntentResult (u "issue_invoice") 0.9 [u "regex_issue_invoice_0"] None ]
  ≠ Spec.merge_any_pattern
    [ mkIntentResult (u "refund") 0.5 [u "regex_refund_2"] None;
      mkIntentResult (u "query_order") 1.0 [u "keyword_query_order"]
        (Some [Some (u "查订单"); Some (u "快递")]);
      mkIntentResult (u "issue_invoice") 0.9 [u "regex_issue_invoice_0"] None ].
Proof.
  vm_compute. intros H. discriminate H.
Qed.

(** The code follows the policy on the first pattern result. *)
Lemma merge_results_first_pattern results :
  Forall (λ r, Spec.in_unit_range (confidence r)) results →
  _merge_results results = Spec.merge_first_pattern results.
Proof.
  intros Hrange.
  assert (Hnan : Forall (λ r, is_nan (confidence r) = false) results).
  { eapply Forall_impl; [done|]. intros r [Hr _].
    by apply float_leb_not_nan in Hr as [_ ?]. }
  rewrite merge_results_unfold. unfold Spec.merge_first_pattern.
  destruct (Spec.remaining results) as [|v vs] eqn:Hrem; [done|].
  assert (Spec.max_confidence (v :: vs) = py_max_from confidence v vs) as ->.
  { unfold Spec.max_confidence. rewrite py_max_from_first_max; [done|].
    rewrite <- Hrem. apply Forall_forall.
    intros r [_ Hr]%list_elem_of_filter.
    by apply (proj1 (Forall_forall _ _) Hnan). }
  done.
Qed.

(** The two wordings of the policy agree when the pattern results
    share one confidence, as the results of the pattern recognizer,
    all at 0.9, do. *)
Lemma merge_policies_agree results :
  (∀ r r', r ∈ results → r' ∈ results →
     Spec.pattern_result r → Spec.pattern_result r' →
     confidence r = confidence r') →
  Spec.merge_first_pattern results = Spec.merge_any_pattern results.
Proof.
  intros Hsame. unfold Spec.merge_first_pattern, Spec.merge_any_pattern.
  assert (Hsub : ∀ r, r ∈ Spec.remaining results → r ∈ results).
  { intros r Hr. by apply list_elem_of_filter in Hr as [_ ?]. }
  destruct (Spec.remaining results) as [|v vs]; [done|].
  set (rs := v :: vs) in *.
  destruct (list_find Spec.pattern_result rs) as [[i r]|] eqn:Hfind.
  - apply list_find_Some in Hfind as (Hi & Hr & Hfirst).
    destruct (0.8 <? confidence r) eqn:Hconf.
    + assert (list_find
                (λ r, Spec.pattern_result r ∧ (0.8 <? confidence r) = true) rs
              = Some (i, r)) as ->; [|done].
      apply list_find_Some. split; [done|]. split; [done|].
      intros j y Hj Hji [Hy _]. by apply (Hfirst j y).
    + assert (list_find
                (λ r, Spec.pattern_result r ∧ (0.8 <? confidence r) = true) rs
              = None) as ->; [|done].
      apply list_find_None, Forall_forall. intros y Hy [Hp Hc].
      rewrite (Hsame y r) in Hc; [congruence|by apply Hsub| |done..].
      apply Hsub. by eapply list_elem_of_lookup_2.
  - assert (list_find
              (λ r, Spec.pattern_result r ∧ (0.8 <? confidence r) = true) rs
            = None) as ->; [|done].
    apply list_find_None, Forall_forall. intros y Hy [Hp _].
    apply list_find_None in Hfind.
    by apply (proj1 (Forall_forall _ _) Hfind y).
Qed.

(** On results whose pattern results share one confidence, the merge
    is the policy as the specification words it. *)
Lemma merge_results_any_pattern results :
  Forall (λ r, Spec.in_unit_range (confidence r)) results →
  (∀ r r', r ∈ results → r' ∈ results →
     Spec.pattern_result r → Spec.pattern_result r' →
     confidence r = confidence r') →
  _merge_results results = Spec.merge_any_pattern results.
Proof.
  intros Hrange Hsame.
  by rewrite merge_results_first_pattern, merge_policies_agree.
Qed.

Lemma merge_results_any_pattern_witness :
  _merge_results
    [ mkIntentResult (u "issue_invoice") 0.9 [u "regex_issue_invoice_0"] None;
      mkIntentResult (u "issue_invoice") 0.8 [u "keyword_issue_invoice"]
        (Some [Some (u "发票")]) ]
  = Spec.merge_any_pattern
    [ mkIntentResult (u "issue_invoice") 0.9 [u "regex_issue_invoice_0"] None;
      mkIntentResult (u "issue_invoice") 0.8 [u "keyword_issue_invoice"]
        (Some [Some (u "发票")]) ].
Proof.
  apply merge_results_any_pattern.
  - apply (bool_decide_unpack _). by vm_compute.
  - assert (Hone : ∀ x,
      x ∈ [ mkIntentResult (u "issue_invoice") 0.9
              [u "regex_issue_invoice_0"] None;
            mkIntentResult (u "issue_invoice") 0.8
              [u "keyword_issue_invoice"] (Some [Some (u "发票")]) ] →
      Spec.pattern_result x →
      x = mkIntentResult (u "issue_invoice") 0.9
            [u "regex_issue_invoice_0"] None).
    { intros x [->|Hx]%elem_of_cons Hp; [done|].
      apply list_elem_of_singleton in Hx as ->. exfalso. revert Hp.
      apply (bool_decide_unpack _). by vm_compute. }
    intros r r' Hr Hr' Hp Hp'.
    by rewrite (Hone r Hr Hp), (Hone r' Hr' Hp').
Defined.

(** The pattern recognizer wins over a valid keyword result. *)
Example merge_invoice_amount :
  let text := u "我想开个1000元的发票" in
  intent (KeywordIntentParser.parse KeywordIntentParser.init text)
    = u "issue_invoice"
  ∧ _merge_results
      [RegexIntentParser.parse RegexIntentParser.init text;
       KeywordIntentParser.parse KeywordIntentParser.init text]
    = mkIntentResult (u "issue_invoice") 0.9 [u "regex_issue_invoice_0"] None.
Proof. by vm_compute. Qed.

End MergeClaims.

Section Invariants.
Import RuleBasedIntentChain.

Lemma init_regex_intents_known name :
  name ∈ (RegexIntentParser.patterns RegexIntentParser.init).*1 →
  name ≠ u "unknown".
Proof.
  intros Hin.
  repeat (apply elem_of_cons in Hin as [->|Hin]); [done..|].
  by apply elem_of_nil in Hin.
Qed.

Lemma init_keyword_intents_known name c :
  (name, c) ∈ KeywordIntentParser.keywords KeywordIntentParser.init →
  name ≠ u "unknown".
Proof.
  intros Hin.
  repeat (apply elem_of_cons in Hin as [[= -> ->]|Hin]); [done..|].
  by apply elem_of_nil in Hin.
Qed.

Lemma regex_parse_produced text :
  produced text (RegexIntentParser.parse RegexIntentParser.init text).
Proof.
  destruct (regex_parse_cases RegexIntentParser.init text)
    as [->|(name & i & m & Hin & ->)]; [constructor|].
  constructor. by apply init_regex_intents_known.
Qed.

Lemma keyword_parse_produced text :
  produced text (KeywordIntentParser.parse KeywordIntentParser.init text).
Proof.
  destruct (keyword_parse_cases KeywordIntentParser.init text
              init_keys_distinct)
    as [[-> _]|(name & c & Hin & Hpos & ->)]; [constructor|].
  constructor; [|done]. by eapply init_keyword_intents_known.
Qed.

Lemma merge_produced text r1 r2 :
  produced text r1 → produced text r2 →
  produced text (_merge_results [r1; r2]).
Proof.
  intros H1 H2.
  destruct (merge_results_elem [r1; r2]) as [->|[Hin _]]; [constructor|].
  apply elem_of_cons in Hin as [->|Hin]; [done|].
  by apply list_elem_of_singleton in Hin as ->.
Qed.

Lemma produced_unknown_invariant text r :
  produced text r → Spec.unknown_invariant r.
Proof.
  intros [|name i m Hname|name c Hname Hpos]; unfold Spec.unknown_invariant;
    cbn [intent confidence matched_rules RegexIntentParser.matched
         IntentResult_init post_init].
  - done.
  - change (0.9 =? 0.0) with false. intuition congruence.
  - rewrite (float_ltb_not_eqb _ _ Hpos). intuition congruence.
Qed.

(** C2: on every result of the pattern recognizer, of the keyword
    recognizer and of their merge, the intent is ["unknown"] exactly
    when the confidence is 0.0, and exactly when no rule matched. *)
Theorem unknown_invariant_holds (text : str) :
  let regex_result := RegexIntentParser.parse (regex_parser init) text in
  let keyword_result :=
    KeywordIntentParser.parse (keyword_parser init) text in
  Spec.unknown_invariant regex_result
  ∧ Spec.unknown_invariant keyword_result
  ∧ Spec.unknown_invariant (_merge_results [regex_result; keyword_result]).
Proof.
  cbv zeta. pose proof (regex_parse_produced text) as Hr.
  pose proof (keyword_parse_produced text) as Hk.
  repeat split; eapply produced_unknown_invariant; try done.
  all: by apply merge_produced.
Qed.

Lemma produced_evidence text r : produced text r → Spec.evidence r.
Proof.
  intros [|name i m Hname|name c Hname Hpos]; unfold Spec.evidence;
    cbn [intent matched_rules extracted_entities RegexIntentParser.matched
         IntentResult_init post_init].
  - done.
  - split; [|done]. intros _. split; [done|].
    destruct (groups m) as [|g gs]; [by left|right; eauto].
  - split; [|done]. intros _. split; [done|]. right.
    apply scored_words_nonempty in Hpos.
    destruct (words text c) as [|w ws]; [done|]. cbn. eauto.
Qed.

(** C8 (as stated) fails on the entities: a real match of a pattern
    without capture group carries no entities, and the ["unknown"]
    result carries [None], not an empty tuple. *)
Lemma evidence_entities_null :
  ¬ Spec.evidence_as_claimed
      (RegexIntentParser.parse RegexIntentParser.init (u "申请退款"))
  ∧ ¬ Spec.evidence_as_claimed
      (RegexIntentParser.parse RegexIntentParser.init (u "不知道说什么")).
Proof.
  split; intros [Hreal Hunknown].
  - destruct Hreal as (_ & e & es & He); [by vm_compute|].
    vm_compute in He. discriminate He.
  - destruct Hunknown as [_ He]; [by vm_compute|].
    vm_compute in He. discriminate He.
Qed.

(** C8 (amended): on every result of the two recognizers and of their
    merge, [matched_rules] is non-empty on a real match and the empty
    list on ["unknown"]; [extracted_entities] is null on ["unknown"];
    on a keyword match it is a non-empty tuple; on a pattern match it
    is decided by the pattern that made the match, the first declared
    one that the text matches: null when that pattern has no capture
    group, a non-empty tuple when it has one.  The merged result is
    one of the two. *)
Theorem evidence_fields (text : str) :
  let regex_result := RegexIntentParser.parse (regex_parser init) text in
  let keyword_result :=
    KeywordIntentParser.parse (keyword_parser init) text in
  Spec.evidence regex_result
  ∧ Spec.evidence keyword_result
  ∧ Spec.evidence (_merge_results [regex_result; keyword_result])
  ∧ (_merge_results [regex_result; keyword_result] = regex_result
     ∨ _merge_results [regex_result; keyword_result] = keyword_result)
  ∧ (intent keyword_result ≠ u "unknown" →
     ∃ e es, extracted_entities keyword_result = Some (e :: es))
  ∧ (intent regex_result ≠ u "unknown" →
     ∃ k name i p,
       Spec.declared (regex_parser init) !! k = Some (name, i, p)
       ∧ is_Some (Re.search_ignorecase p text)
       ∧ (∀ j rule, (j < k)%nat →
            Spec.declared (regex_parser init) !! j = Some rule →
            Re.search_ignorecase rule.2 text = None)
       ∧ intent regex_result = name
       ∧ (ngroups p = 0%nat → extracted_entities regex_result = None)
       ∧ (ngroups p ≠ 0%nat →
          ∃ e es, extracted_entities regex_result = Some (e :: es))).
Proof.
  cbv zeta. cbn [regex_parser keyword_parser init].
  pose proof (regex_parse_produced text) as Hr.
  pose proof (keyword_parse_produced text) as Hk.
  split; [by eapply produced_evidence|].
  split; [by eapply produced_evidence|].
  split; [by eapply produced_evidence, merge_produced|].
  split; [|split].
  - destruct (merge_results_elem
                [RegexIntentParser.parse RegexIntentParser.init text;
                 KeywordIntentParser.parse KeywordIntentParser.init text])
      as [Hd|[Hin Hvalid]].
    + destruct (regex_parse_cases RegexIntentParser.init text)
        as [Hd'|(name & i & m & Hin & Hm)]; [left; congruence|].
      left. apply merge_regex_first. rewrite Hm.
      by apply init_regex_intents_known.
    + apply elem_of_cons in Hin as [Hin|Hin]; [by left|].
      apply list_elem_of_singleton in Hin. by right.
  - intros Hvalid.
    destruct (keyword_parse_cases KeywordIntentParser.init text
                init_keys_distinct)
      as [[Hd _]|(name & c & Hin & Hpos & Hres)].
    { by rewrite Hd in Hvalid. }
    rewrite Hres. cbn.
    apply scored_words_nonempty in Hpos.
    destruct (words text c) as [|w ws]; [done|]. cbn. eauto.
  - rewrite regex_parse_spec.
    unfold Spec.regex_parse.
    destruct (list_find _ _) as [[k [[name i] [m|]]]|] eqn:Hfind;
      cbn [intent extracted_entities]; [|done..].
    intros _. apply list_find_Some in Hfind as (Hk' & _ & Hfirst).
    unfold Spec.attempts in Hk', Hfirst. rewrite list_lookup_fmap in Hk'.
    destruct (Spec.declared RegexIntentParser.init !! k)
      as [[[name' i'] p]|] eqn:Hd; [|done].
    injection Hk' as -> -> Hs.
    exists k, name, i, p. split; [done|]. split; [by rewrite Hs|].
    split.
    { intros j [[n' j'] q] Hj Hq. cbn [snd].
      destruct (Re.search_ignorecase q text) as [m'|] eqn:Hm'; [|done].
      destruct (Hfirst j (n', j', Some m')); [|done|by eexists].
      rewrite list_lookup_fmap, Hq. cbn. by rewrite Hm'. }
    split; [done|].
    apply search_ignorecase_groups in Hs.
    destruct (groups m) as [|g gs]; cbn in Hs.
    + split; [done|]. intros Hn. by rewrite <- Hs in Hn.
    + split; [intros Hn; by rewrite Hn in Hs|]. intros _. by exists g, gs.
Qed.

Example evidence_examples :
  extracted_entities
    (RegexIntentParser.parse RegexIntentParser.init (u "查订单123"))
    = Some [Some (u "3")]
  ∧ extracted_entities
      (RegexIntentParser.parse RegexIntentParser.init (u "开发票")) = None
  ∧ extracted_entities
      (KeywordIntentParser.parse KeywordIntentParser.init (u "退货申请"))
    = Some [Some (u "退货")].
Proof. by vm_compute. Qed.

End Invariants.

Section SlotClaims.
Import SlotExtractor.

(** C5: for the winning intent, every configured slot is searched on
    its own: its value depends on its own pattern and the text only; a
    slot whose pattern matches is stored with the first capture group
    of the match, a slot whose pattern does not match is absent from
    the mapping; an intent without slot configuration, such as
    ["unknown"], yields the empty mapping. *)
Theorem extract_slots_policy (text intent : str) :
  ∃ slots,
    extract_slots init text intent = Ok slots
    ∧ (∀ name, slots !! name = Spec.slot_value init text intent name)
    ∧ (∀ ps name p,
         slot_patterns init !! intent = Some ps → (name, p) ∈ ps →
         (Re.search p text = None → slots !! name = None)
         ∧ (∀ m, Re.search p text = Some m →
              ∃ g, head (groups m) = Some g ∧ slots !! name = Some g))
    ∧ (slot_patterns init !! intent = None → slots = ∅)
    ∧ extract_slots init text (u "unknown") = Ok ∅.
Proof.
  destruct (extract_slots_spec init text intent init_well_formed)
    as (slots & Hex & Hval & Hnone).
  exists slots. split; [done|]. split; [done|].
  split; [|split; [done|by vm_compute]].
  intros ps name p Hps Hin.
  destruct (init_well_formed _ _ Hps) as [Hnd Hng].
  assert (Hp : (list_to_map ps : gmap str regex) !! name = Some p)
    by (by apply elem_of_list_to_map_1).
  rewrite Hval. unfold Spec.slot_value. rewrite Hps. cbn. rewrite Hp. cbn.
  split; [by intros ->|]. intros m Hm. rewrite Hm. cbn.
  apply search_groups_length in Hm.
  rewrite Forall_forall in Hng. specialize (Hng _ Hin). cbn in Hng.
  destruct (groups m) as [|g gs]; [done|]. by exists g.
Qed.

Example extract_slots_amount :
  extract_slots init (u "我想开个1000元的发票") (u "issue_invoice")
  = Ok {[ u "amount" := Some (u "1000") ]}.
Proof. by vm_compute. Qed.

Example extract_slots_refund :
  extract_slots init (u "昨天下的订单888888想要退货") (u "refund")
  = Ok {[ u "order_id" := Some (u "888888"); u "time" := Some (u "昨天") ]}.
Proof. by vm_compute. Qed.

End SlotClaims.

Section PipelineClaims.
Import RuleBasedIntentChain.

Lemma regex_parse_no_match self text :
  Forall (λ rule, Re.search_ignorecase rule.2 text = None)
    (Spec.declared self) →
  RegexIntentParser.parse self text = IntentResult_default.
Proof.
  intros Hnone. rewrite regex_parse_spec. unfold Spec.regex_parse.
  assert (list_find (λ a, is_Some a.2) (Spec.attempts self text) = None)
    as ->; [|done].
  apply list_find_None, Forall_forall.
  intros a ([[name i] p] & -> & Hin)%list_elem_of_fmap [m Hm].
  pose proof (proj1 (Forall_forall _ _) Hnone _ Hin) as Hp.
  cbn in Hp, Hm. congruence.
Qed.

Lemma init_regex_no_match text :
  Forall (λ rule, Re.search rule.2 text = None)
    (Spec.declared RegexIntentParser.init) →
  RegexIntentParser.parse RegexIntentParser.init text = IntentResult_default.
Proof.
  intros Hnone. apply regex_parse_no_match, Forall_forall. intros rule Hin.
  rewrite init_search_ignorecase by done.
  by apply (proj1 (Forall_forall _ _) Hnone).
Qed.

Lemma count_tier_no_hit text weight words acc :
  Forall (λ w, str_contains w text = false) words →
  KeywordIntentParser.count_tier text weight words acc = acc.
Proof.
  unfold KeywordIntentParser.count_tier.
  induction 1 as [|w words Hw _ IH]; [done|]. cbn.
  destruct acc as [s m]. by rewrite Hw.
Qed.

Lemma keyword_parse_no_hit self text :
  Forall (λ w, str_contains w text = false) (Spec.configured_keywords self) →
  KeywordIntentParser.parse self text = IntentResult_default.
Proof.
  destruct self as [items]. unfold Spec.configured_keywords.
  cbn [KeywordIntentParser.keywords]. intros Hnone.
  unfold KeywordIntentParser.parse, KeywordIntentParser.collect.
  cbn [KeywordIntentParser.keywords].
  assert (foldl (λ scores '(intent, c),
            let '(score, matched) :=
              KeywordIntentParser.count_intent text c in
            if 0.0 <? score
            then ODict.set scores intent
                   (KeywordIntentParser.mkEntry (py_min score 1.0) matched)
            else scores) [] items = []) as ->; [|done].
  induction items as [|[name c] items IH]; [done|].
  cbn [mbind list_bind] in Hnone.
  apply Forall_app in Hnone as [[Hp Hs]%Forall_app Hnone].
  cbn [foldl]. unfold KeywordIntentParser.count_intent.
  rewrite !count_tier_no_hit by done. by apply IH.
Qed.

(** C6: a text that no pattern matches and that contains no configured
    keyword makes the pipeline return, without raising, the result
    with intent ["unknown"], confidence 0.0, no matched rule and no
    slot. *)
Theorem invoke_unknown (input_dict : gmap str pyval) (text : str) :
  input_dict !! u "text" = Some (PyStr text) →
  Forall (λ rule, Re.search rule.2 text = None)
    (Spec.declared (regex_parser init)) →
  Forall (λ w, str_contains w text = false)
    (Spec.configured_keywords (keyword_parser init)) →
  invoke init input_dict = Ok unknown_output.
Proof.
  intros Htext Hregex Hkeywords. unfold invoke, dict_get. rewrite Htext.
  cbn [regex_parser keyword_parser init].
  rewrite init_regex_no_match, keyword_parse_no_hit by done.
  by vm_compute.
Qed.

Lemma invoke_unknown_witness :
  invoke init {[ u "text" := PyStr (u "不知道说什么") ]} = Ok unknown_output.
Proof.
  apply (invoke_unknown _ (u "不知道说什么")).
  - by vm_compute.
  - apply (bool_decide_unpack _). by vm_compute.
  - apply (bool_decide_unpack _). by vm_compute.
Defined.

(** C7 (as stated) fails: the text contains two secondary keywords of
    [query_order], [快递] and [到了吗], so the confidence is not 0.4. *)
Lemma invoke_express_not_0_4 :
  ¬ ∃ o, invoke init {[ u "text" := PyStr (u "查一下我的快递到了吗") ]} = Ok o
         ∧ out_intent o = u "query_order"
         ∧ (out_confidence o =? 0.4) = true.
Proof.
  intros (o & Ho & _ & Hc). vm_compute in Ho.
  injection Ho as <-. vm_compute in Hc. discriminate Hc.
Qed.

(** C7 (amended): the text ["查一下我的快递到了吗"] yields intent
    [query_order] through the keyword recognizer (no pattern matches)
    with confidence 0.8, from the two secondary keywords [快递] and
    [到了吗]. *)
Theorem invoke_express :
  invoke init {[ u "text" := PyStr (u "查一下我的快递到了吗") ]}
  = Ok (mkOutput (u "query_order") 0.8 ∅ [u "keyword_query_order"]
          (Some [Some (u "快递"); Some (u "到了吗")])
          (u "通过关键词匹配识别为query_order，置信度0.80"))
  ∧ RegexIntentParser.parse (regex_parser init) (u "查一下我的快递到了吗")
    = IntentResult_default
  ∧ Spec.occurring (u "查一下我的快递到了吗")
      (Spec.configured_keywords (keyword_parser init))
    = [u "快递"; u "到了吗"]
  ∧ (0.4 + 0.4 = 0.8)%float.
Proof. by vm_compute. Qed.

(** C10: without a ["text"] key the text is the empty string, which
    no pattern matches and which contains no keyword; [invoke] returns
    the ["unknown"] result and does not raise. *)
Theorem invoke_without_text (input_dict : gmap str pyval) :
  input_dict !! u "text" = None →
  invoke init input_dict = Ok unknown_output
  ∧ dict_get input_dict (u "text") (PyStr []) = PyStr []
  ∧ Forall (λ rule, Re.search rule.2 [] = None)
      (Spec.declared (regex_parser init))
  ∧ Forall (λ w, str_contains w [] = false)
      (Spec.configured_keywords (keyword_parser init)).
Proof.
  intros Htext. unfold invoke, dict_get. rewrite Htext.
  split; [by vm_compute|]. split; [done|].
  split; apply (bool_decide_unpack _); by vm_compute.
Qed.

Lemma invoke_without_text_witness :
  invoke init ∅ = Ok unknown_output
  ∧ dict_get (∅ : gmap str pyval) (u "text") (PyStr []) = PyStr []
  ∧ Forall (λ rule, Re.search rule.2 [] = None)
      (Spec.declared (regex_parser init))
  ∧ Forall (λ w, str_contains w [] = false)
      (Spec.configured_keywords (keyword_parser init)).
Proof. apply (invoke_without_text ∅). apply lookup_empty. Defined.

(** A text that is not a string raises. *)
Example invoke_text_not_str :
  invoke init {[ u "text" := PyInt 42 ]} = Raise TypeError.
Proof. by vm_compute. Qed.

End PipelineClaims.

Section ExcelClaims.
Import ExcelIntentRecognizer.
Context {row : Type} (_parse_sheet_data : sheet_call → pyresult (list row)).

(** The gate of [parse]: a context whose trigger is not truthy ends
    the call at once. *)
Lemma parse_not_triggered (self : t) text context :
  truthy (dict_get (default ∅ context) (u "trigger_excel") (PyBool false))
    = false →
  parse _parse_sheet_data self text context = (None, []).
Proof. intros Hgate. unfold parse. by rewrite Hgate. Qed.

(** C9: when the context is missing, or has no ['trigger_excel']
    field, or has it set to [False], [parse] returns [None] at once:
    no sheet is read, whatever the text and the configuration. *)
Theorem parse_requires_trigger (self : t) (text : str)
    (context : option (gmap str pyval)) :
  (context = None
   ∨ ∃ c, context = Some c
       ∧ (c !! u "trigger_excel" = None
          ∨ c !! u "trigger_excel" = Some (PyBool false))) →
  parse _parse_sheet_data self text context = (None, []).
Proof.
  intros Hctx. apply parse_not_triggered. unfold dict_get.
  destruct Hctx as [->|(c & -> & [Hc|Hc])]; unfold default;
    cbn [from_option id].
  - by rewrite lookup_empty.
  - by rewrite Hc.
  - by rewrite Hc.
Qed.

End ExcelClaims.

Lemma parse_requires_trigger_witness :
  ExcelIntentRecognizer.parse (λ _, Ok ([] : list unit)) sample_recognizer
    (u "hello") (Some {[ u "excel_type" := PyStr (u "merged") ]})
  = (None, []).
Proof.
  apply parse_requires_trigger. right. eexists. split; [reflexivity|].
  left. by vm_compute.
Defined.

(** With the trigger set, the same call reads the configured sheet. *)
Example parse_triggered :
  (ExcelIntentRecognizer.parse (λ _, Ok ([] : list unit)) sample_recognizer
     (u "hello")
     (Some {[ u "trigger_excel" := PyBool true;
              u "excel_type" := PyStr (u "merged") ]})).2
  = [ExcelIntentRecognizer.mkCall (PyStr (u "data.xlsx")) (PyStr (u "Sheet1"))
       (PyFloat 15.0) (PyBool true) (PyStr (u "merged"))
       (PyStr (u "^(\d{8})$"))].
Proof. by vm_compute. Qed.

Section PipelineTotal.
Import RuleBasedIntentChain.

(** Every result of the two recognizers has its confidence in the
    range of the data model, so the merge policy applies to them. *)
Lemma produced_in_unit_range text r :
  produced text r → Spec.in_unit_range (confidence r).
Proof.
  intros [|name i m Hname|name c Hname Hpos]; [done..|].
  cbn [confidence]. split; [by apply float_ltb_leb|].
  rewrite keyword_score_raw in *.
  change (py_min (raw_score text c) 1.0)
    with (Spec.clamp (raw_score text c)) in *.
  apply clamp_le_one. rewrite clamp_pos in Hpos.
  by apply float_ltb_not_nan in Hpos as [_ ?].
Qed.

(** On a text that is a string, or without any text (the text is then
    the empty string), [invoke] does not raise: it merges the results
    of the two recognizers on the text, extracts the slots of the
    merged intent, each slot by its own pattern, and returns the merged
    result with these slots and the reasoning generated from it. *)
Lemma invoke_returns (input_dict : gmap str pyval) :
  (input_dict !! u "text" = None
   ∨ ∃ text, input_dict !! u "text" = Some (PyStr text)) →
  ∃ text slots,
    let final :=
      _merge_results
        [RegexIntentParser.parse (regex_parser init) text;
         KeywordIntentParser.parse (keyword_parser init) text] in
    dict_get input_dict (u "text") (PyStr []) = PyStr text
    ∧ SlotExtractor.extract_slots (slot_extractor init) text (intent final)
      = Ok slots
    ∧ (∀ name,
         slots !! name
         = Spec.slot_value (slot_extractor init) text (intent final) name)
    ∧ invoke init input_dict
      = Ok (mkOutput (intent final) (confidence final) slots
              (matched_rules final) (extracted_entities final)
              (_generate_reasoning final)).
Proof.
  intros Htext. unfold invoke.
  assert (∃ text, dict_get input_dict (u "text") (PyStr []) = PyStr text)
    as [text Hget].
  { unfold dict_get. destruct Htext as [->|[text ->]]; eauto. }
  rewrite Hget. exists text. cbv zeta.
  destruct (extract_slots_spec SlotExtractor.init text
              (intent (_merge_results
                 [RegexIntentParser.parse (regex_parser init) text;
                  KeywordIntentParser.parse (keyword_parser init) text]))
              init_well_formed) as (slots & Hs & Hval & _).
  exists slots. cbn [slot_extractor init] in *.
  split; [done|]. split; [done|]. split; [done|]. by rewrite Hs.
Qed.

End PipelineTotal.

Lemma invoke_returns_witness :
  ∃ text slots,
    dict_get ({[ u "text" := PyStr (u "昨天下的订单888888想要退货") ]}
                : gmap str pyval) (u "text") (PyStr [])
    = PyStr text
    ∧ SlotExtractor.extract_slots
        (RuleBasedIntentChain.slot_extractor RuleBasedIntentChain.init) text
        (intent
           (RuleBasedIntentChain._merge_results
              [RegexIntentParser.parse
                 (RuleBasedIntentChain.regex_parser RuleBasedIntentChain.init)
                 text;
               KeywordIntentParser.parse
                 (RuleBasedIntentChain.keyword_parser RuleBasedIntentChain.init)
                 text]))
      = Ok slots
    ∧ (∀ name,
         slots !! name
         = Spec.slot_value
             (RuleBasedIntentChain.slot_extractor RuleBasedIntentChain.init)
             text
             (intent
                (RuleBasedIntentChain._merge_results
                   [RegexIntentParser.parse
                      (RuleBasedIntentChain.regex_parser
                         RuleBasedIntentChain.init) text;
                    KeywordIntentParser.parse
                      (RuleBasedIntentChain.keyword_parser
                         RuleBasedIntentChain.init) text]))
             name)
    ∧ RuleBasedIntentChain.invoke RuleBasedIntentChain.init
        {[ u "text" := PyStr (u "昨天下的订单888888想要退货") ]}
      = Ok (RuleBasedIntentChain.mkOutput
              (intent
                 (RuleBasedIntentChain._merge_results
                    [RegexIntentParser.parse
                       (RuleBasedIntentChain.regex_parser
                          RuleBasedIntentChain.init) text;
                     KeywordIntentParser.parse
                       (RuleBasedIntentChain.keyword_parser
                          RuleBasedIntentChain.init) text]))
              (confidence
                 (RuleBasedIntentChain._merge_results
                    [RegexIntentParser.parse
                       (RuleBasedIntentChain.regex_parser
                          RuleBasedIntentChain.init) text;
                     KeywordIntentParser.parse
                       (RuleBasedIntentChain.keyword_parser
                          RuleBasedIntentChain.init) text]))
              slots
              (matched_rules
                 (RuleBasedIntentChain._merge_results
                    [RegexIntentParser.parse
                       (RuleBasedIntentChain.regex_parser
                          RuleBasedIntentChain.init) text;
                     KeywordIntentParser.parse
                       (RuleBasedIntentChain.keyword_parser
                          RuleBasedIntentChain.init) text]))
              (extracted_entities
                 (RuleBasedIntentChain._merge_results
                    [RegexIntentParser.parse
                       (RuleBasedIntentChain.regex_parser
                          RuleBasedIntentChain.init) text;
                     KeywordIntentParser.parse
                       (RuleBasedIntentChain.keyword_parser
                          RuleBasedIntentChain.init) text]))
              (RuleBasedIntentChain._generate_reasoning
                 (RuleBasedIntentChain._merge_results
                    [RegexIntentParser.parse
                       (RuleBasedIntentChain.regex_parser
                          RuleBasedIntentChain.init) text;
                     KeywordIntentParser.parse
                       (RuleBasedIntentChain.keyword_parser
                          RuleBasedIntentChain.init) text]))).
Proof.
  apply (invoke_returns {[ u "text" := PyStr (u "昨天下的订单888888想要退货") ]}).
  right. exists (u "昨天下的订单888888想要退货"). by vm_compute.
Defined.

(** The output of [invoke] on a refund request that names an order and
    a day. *)
Example invoke_refund_order :
  RuleBasedIntentChain.invoke RuleBasedIntentChain.init
    {[ u "text" := PyStr (u "昨天下的订单888888想要退货") ]}
  = Ok (RuleBasedIntentChain.mkOutput (u "refund") 0.8
          {[ u "order_id" := Some (u "888888"); u "time" := Some (u "昨天") ]}
          [u "keyword_refund"] (Some [Some (u "退货")])
          (u "通过关键词匹配识别为refund，置信度0.80")).
Proof. by vm_compute. Qed.

Section PipelineMerge.
Import RuleBasedIntentChain.

Lemma init_keyword_not_pattern text :
  ¬ Spec.pattern_result
      (KeywordIntentParser.parse KeywordIntentParser.init text).
Proof.
  destruct (keyword_parse_cases KeywordIntentParser.init text
              init_keys_distinct)
    as [[-> _]|(name & c & Hin & _ & ->)].
  - apply (bool_decide_unpack _). by vm_compute.
  - unfold Spec.pattern_result. cbn [matched_rules].
    repeat (apply elem_of_cons in Hin as [[= -> ->]|Hin]);
      [..|by apply elem_of_nil in Hin];
      apply (bool_decide_unpack _); by vm_compute.
Qed.

(** In the pipeline the pattern recognizer is the only source of
    pattern results, so the merge of its two results is the policy as
    the specification words it, on every text. *)
Lemma pipeline_merge_any_pattern (text : str) :
  let regex_result := RegexIntentParser.parse (regex_parser init) text in
  let keyword_result :=
    KeywordIntentParser.parse (keyword_parser init) text in
  _merge_results [regex_result; keyword_result]
  = Spec.merge_any_pattern [regex_result; keyword_result].
Proof.
  cbv zeta. cbn [regex_parser keyword_parser init].
  rewrite merge_results_first_pattern.
  2:{ constructor.
      { apply (produced_in_unit_range text), regex_parse_produced. }
      constructor; [|constructor].
      apply (produced_in_unit_range text), keyword_parse_produced. }
  apply merge_policies_agree.
  - assert (Hone : ∀ x,
      x ∈ [RegexIntentParser.parse RegexIntentParser.init text;
           KeywordIntentParser.parse KeywordIntentParser.init text] →
      Spec.pattern_result x →
      x = RegexIntentParser.parse RegexIntentParser.init text).
    { intros x [->|Hx]%elem_of_cons Hp; [done|].
      apply list_elem_of_singleton in Hx as ->.
      by apply init_keyword_not_pattern in Hp. }
    intros r r' Hr Hr' Hp Hp'.
    by rewrite (Hone r Hr Hp), (Hone r' Hr' Hp').
Qed.

End PipelineMerge.

Section MergePolicy.
Import RuleBasedIntentChain.

(** What the two recognizers return, as the merge sees it: a
    confidence in the range of the data model, and a ["regex"] rule on
    the valid results of the pattern recognizer only, all of them at
    0.9. *)
Lemma recognizer_result r :
  (∃ t, r = RegexIntentParser.parse RegexIntentParser.init t
      ∨ r = KeywordIntentParser.parse KeywordIntentParser.init t) →
  Spec.in_unit_range (confidence r)
  ∧ (Spec.pattern_result r →
     confidence r = 0.9 ∧ intent r ≠ u "unknown"
     ∧ ∃ t, r = RegexIntentParser.parse RegexIntentParser.init t).
Proof.
  intros [t [->| ->]].
  - split; [apply (produced_in_unit_range t), regex_parse_produced|].
    intros Hp.
    destruct (regex_parse_cases RegexIntentParser.init t)
      as [Hd|(name & i & m & Hin & Hm)].
    + rewrite Hd in Hp. by apply Exists_nil in Hp.
    + split; [by rewrite Hm|].
      split; [rewrite Hm; by apply init_regex_intents_known|by exists t].
  - split; [apply (produced_in_unit_range t), keyword_parse_produced|].
    intros Hp. by apply init_keyword_not_pattern in Hp.
Qed.

(** C1: on the results of the recognizers, any number of them in any
    order, the merge is the policy of the specification: the
    ["unknown"] results are discarded and the default result is
    returned if none remains; otherwise the first remaining pattern
    result with confidence above 0.8 is returned if there is one, and
    otherwise the remaining result of maximum confidence, the earlier
    one on a tie.  The pattern results are the valid results of the
    pattern recognizer.  For a text on which the pattern recognizer
    has a valid result, that result, of confidence 0.9, is returned
    whatever the keyword recognizer found. *)
Theorem merge_results_policy (results : list IntentResult) (text : str) :
  Forall (λ r, ∃ t, r = RegexIntentParser.parse (regex_parser init) t
                  ∨ r = KeywordIntentParser.parse (keyword_parser init) t)
    results →
  _merge_results results = Spec.merge_any_pattern results
  ∧ (∀ r, r ∈ results →
       Spec.pattern_result r
       ↔ intent r ≠ u "unknown"
         ∧ ∃ t, r = RegexIntentParser.parse (regex_parser init) t)
  ∧ (intent (RegexIntentParser.parse (regex_parser init) text) ≠ u "unknown" →
     confidence (RegexIntentParser.parse (regex_parser init) text) = 0.9
     ∧ _merge_results
         [RegexIntentParser.parse (regex_parser init) text;
          KeywordIntentParser.parse (keyword_parser init) text]
       = RegexIntentParser.parse (regex_parser init) text).
Proof.
  cbn [regex_parser keyword_parser init]. intros Hres.
  rewrite Forall_forall in Hres.
  assert (Hvalid : ∀ t,
    intent (RegexIntentParser.parse RegexIntentParser.init t) ≠ u "unknown" →
    Spec.pattern_result (RegexIntentParser.parse RegexIntentParser.init t)
    ∧ confidence (RegexIntentParser.parse RegexIntentParser.init t) = 0.9).
  { intros t Ht.
    destruct (regex_parse_cases RegexIntentParser.init t)
      as [Hd|(name & i & m & _ & Hm)]; [by rewrite Hd in Ht|].
    rewrite Hm. split; [|done].
    apply has_regex_rule_pattern. by rewrite matched_has_regex_rule. }
  split; [|split].
  - rewrite merge_results_first_pattern.
    2:{ apply Forall_forall. intros r Hr.
        by apply recognizer_result, Hres. }
    apply merge_policies_agree. intros r r' Hr Hr' Hp Hp'.
    destruct (recognizer_result r (Hres r Hr)) as [_ Hc].
    destruct (recognizer_result r' (Hres r' Hr')) as [_ Hc'].
    destruct (Hc Hp) as [-> _]. by destruct (Hc' Hp') as [-> _].
  - intros r Hr. split.
    + intros Hp. destruct (recognizer_result r (Hres r Hr)) as [_ Hc].
      by destruct (Hc Hp) as (_ & ? & ?).
    + intros [Hne [t ->]]. by apply Hvalid.
  - intros Hne. split; [by apply Hvalid|by apply merge_regex_first].
Qed.

End MergePolicy.

Lemma merge_results_policy_witness :
  RuleBasedIntentChain._merge_results
       [ KeywordIntentParser.parse
           (RuleBasedIntentChain.keyword_parser RuleBasedIntentChain.init)
           (u "查一下我的快递到了吗");
         RegexIntentParser.parse
           (RuleBasedIntentChain.regex_parser RuleBasedIntentChain.init)
           (u "不知道说什么");
         RegexIntentParser.parse
           (RuleBasedIntentChain.regex_parser RuleBasedIntentChain.init)
           (u "申请退款");
         RegexIntentParser.parse
           (RuleBasedIntentChain.regex_parser RuleBasedIntentChain.init)
           (u "我想开个1000元的发票") ]
  = Spec.merge_any_pattern
       [ KeywordIntentParser.parse
           (RuleBasedIntentChain.keyword_parser RuleBasedIntentChain.init)
           (u "查一下我的快递到了吗");
         RegexIntentParser.parse
           (RuleBasedIntentChain.regex_parser RuleBasedIntentChain.init)
           (u "不知道说什么");
         RegexIntentParser.parse
           (RuleBasedIntentChain.regex_parser RuleBasedIntentChain.init)
           (u "申请退款");
         RegexIntentParser.parse
           (RuleBasedIntentChain.regex_parser RuleBasedIntentChain.init)
           (u "我想开个1000元的发票") ]
  ∧ (∀ r,
       r ∈ [ KeywordIntentParser.parse
           (RuleBasedIntentChain.keyword_parser RuleBasedIntentChain.init)
           (u "查一下我的快递到了吗");
         RegexIntentParser.parse
           (RuleBasedIntentChain.regex_parser RuleBasedIntentChain.init)
           (u "不知道说什么");
         RegexIntentParser.parse
           (RuleBasedIntentChain.regex_parser RuleBasedIntentChain.init)
           (u "申请退款");
         RegexIntentParser.parse
           (RuleBasedIntentChain.regex_parser RuleBasedIntentChain.init)
           (u "我想开个1000元的发票") ] →
       Spec.pattern_result r
       ↔ intent r ≠ u "unknown"
         ∧ ∃ t, r = RegexIntentParser.parse
           (RuleBasedIntentChain.regex_parser RuleBasedIntentChain.init) t)
  ∧ (intent (RegexIntentParser.parse
           (RuleBasedIntentChain.regex_parser RuleBasedIntentChain.init)
           (u "我想开个1000元的发票")) ≠ u "unknown" →
     confidence (RegexIntentParser.parse
           (RuleBasedIntentChain.regex_parser RuleBasedIntentChain.init)
           (u "我想开个1000元的发票")) = 0.9
     ∧ RuleBasedIntentChain._merge_results
         [ RegexIntentParser.parse
           (RuleBasedIntentChain.regex_parser RuleBasedIntentChain.init)
           (u "我想开个1000元的发票");
           KeywordIntentParser.parse
           (RuleBasedIntentChain.keyword_parser RuleBasedIntentChain.init)
           (u "我想开个1000元的发票") ]
       = RegexIntentParser.parse
           (RuleBasedIntentChain.regex_parser RuleBasedIntentChain.init)
           (u "我想开个1000元的发票")).
Proof.
  apply merge_results_policy.
  constructor; [eexists; right; reflexivity|].
  constructor; [eexists; left; reflexivity|].
  constructor; [eexists; left; reflexivity|].
  constructor; [eexists; left; reflexivity|].
  constructor.
Defined.

(** On these results of the recognizers the merge returns the first
    valid pattern result, although the keyword result before it has a
    lower confidence and comes first. *)
Example merge_results_policy_example :
  RuleBasedIntentChain._merge_results
    [ KeywordIntentParser.parse KeywordIntentParser.init
        (u "查一下我的快递到了吗");
      RegexIntentParser.parse RegexIntentParser.init (u "不知道说什么");
      RegexIntentParser.parse RegexIntentParser.init (u "申请退款");
      RegexIntentParser.parse RegexIntentParser.init (u "我想开个1000元的发票") ]
  = mkIntentResult (u "refund") 0.9 [u "regex_refund_0"] None.
Proof. by vm_compute. Qed.

(** ** The matcher and the texts that a pattern matches *)

Section Sound.
Context {A : Type} (text : str) (P : nat → str → Prop).

Lemma consumed_app (w s' : str) : consumed (w ++ s') s' = w.
Proof.
  unfold consumed. rewrite length_app.
  replace (length w + length s' - length s')%nat with (length w) by lia.
  by rewrite take_app_length.
Qed.

Lemma suffix_app_inv (w s' : str) :
  (w ++ s') `suffix_of` text → s' `suffix_of` text.
Proof. intros [k ->]. exists (k ++ w). by rewrite <- (assoc_L (++)). Qed.

(** A repetition succeeds only along iterations that the body
    matches, as many as its bounds allow. *)
Lemma repeat_loop_sound body r greedy lo hi (k : str → captures → option A) :
  sound_for text P r body →
  ∀ fuel count s cs x,
    s `suffix_of` text → caps P cs →
    repeat_loop body greedy lo hi k fuel count s cs = Some x →
    ∃ ws s' cs', s = concat ws ++ s' ∧ Forall (matches r) ws
      ∧ (lo ≤ count + length ws)%nat
      ∧ (∀ h, hi = Some h → (count + length ws ≤ count `max` (lo `max` h))%nat)
      ∧ caps P cs' ∧ k s' cs' = Some x.
Proof.
  intros Hbody. induction fuel as [|fuel IH]; intros count s cs x Hs Hcs; [done|].
  cbn [repeat_loop].
  assert (Hagain : ∀ progress,
    (progress = true → (lo ≤ count)%nat) →
    ((count < lo)%nat ∨ below hi count = true) →
    body s cs (λ s' cs',
      if progress && (length s' =? length s)%nat then k s' cs'
      else repeat_loop body greedy lo hi k fuel (S count) s' cs') = Some x →
    ∃ ws s' cs', s = concat ws ++ s' ∧ Forall (matches r) ws
      ∧ (lo ≤ count + length ws)%nat
      ∧ (∀ h, hi = Some h → (count + length ws ≤ count `max` (lo `max` h))%nat)
      ∧ caps P cs' ∧ k s' cs' = Some x).
  { intros progress Hp Hiter Hrun.
    destruct (Hbody _ _ _ _ Hs Hcs Hrun) as (w & s1 & cs1 & -> & Hw & Hcs1 & Hk).
    destruct (progress && (length s1 =? length (w ++ s1))%nat) eqn:Hstop.
    - apply andb_prop in Hstop as [-> Hlen]. apply Nat.eqb_eq in Hlen.
      rewrite length_app in Hlen.
      assert (w = []) as -> by (apply length_zero_iff_nil; lia).
      exists [], s1, cs1. repeat split; auto; cbn; [specialize (Hp eq_refl); lia|].
      intros h _. lia.
    - destruct (IH (S count) s1 cs1 x)
        as (ws & s' & cs' & -> & Hws & Hlo & Hhi & Hcs' & Hk');
        [by eapply suffix_app_inv|done|done|].
      exists (w :: ws), s', cs'. cbn [concat length].
      repeat split; auto; [by rewrite (assoc_L (++))|lia|].
      intros h Hh. specialize (Hhi h Hh).
      destruct Hiter as [Hiter|Hiter]; [lia|].
      rewrite Hh in Hiter. cbn in Hiter. apply Nat.ltb_lt in Hiter. lia. }
  assert (Hk : k s cs = Some x → (lo ≤ count)%nat →
    ∃ ws s' cs', s = concat ws ++ s' ∧ Forall (matches r) ws
      ∧ (lo ≤ count + length ws)%nat
      ∧ (∀ h, hi = Some h → (count + length ws ≤ count `max` (lo `max` h))%nat)
      ∧ caps P cs' ∧ k s' cs' = Some x).
  { intros Hk Hlo. exists [], s, cs. repeat split; auto; cbn; [lia|]. intros; lia. }
  destruct (count <? lo)%nat eqn:Hlo.
  - apply Nat.ltb_lt in Hlo. apply (Hagain false); [intros [=]|by left].
  - apply Nat.ltb_ge in Hlo.
    destruct (below hi count) eqn:Hhi; [|intros; by apply Hk].
    destruct greedy.
    + destruct (body s cs _) as [y|] eqn:Hrun.
      * intros [= ->]. apply (Hagain true); auto.
      * intros; by apply Hk.
    + destruct (k s cs) as [y|] eqn:Hks.
      * intros [= ->]. by apply Hk.
      * apply (Hagain true); auto.
Qed.

(** The matcher succeeds only along a prefix that the pattern matches,
    and its captures are parts of the text that the groups match. *)
Lemma rmatch_sound r : groups_in text P r → sound_for text P r (rmatch (A := A) r).
Proof.
  induction r as [|c| | |r1 IH1 r2 IH2|r1 IH1 r2 IH2|greedy lo hi r IH|n r IH];
    intros Hg s cs k x Hs Hcs; cbn [rmatch].
  - intros Hk. exists [], s, cs. by repeat split.
  - destruct s as [|d s']; [done|]. destruct (c =? d)%N eqn:Hc; [|done].
    apply N.eqb_eq in Hc as ->. intros Hk. exists [d], s', cs. by repeat split.
  - destruct s as [|d s']; [done|]. destruct (d =? 10)%N eqn:Hd; [done|].
    apply N.eqb_neq in Hd. intros Hk. exists [d], s', cs.
    split; [done|]. split; [by exists d|]. by split.
  - destruct s as [|d s']; [done|]. destruct (is_decimal d) eqn:Hd; [|done].
    intros Hk. exists [d], s', cs.
    split; [done|]. split; [by exists d|]. by split.
  - destruct Hg as [Hg1 Hg2]. intros Hrun.
    destruct (IH1 Hg1 _ _ _ _ Hs Hcs Hrun) as (w1 & s1 & cs1 & -> & Hw1 & Hcs1 & Hk1).
    destruct (IH2 Hg2 _ _ _ _ (suffix_app_inv _ _ Hs) Hcs1 Hk1)
      as (w2 & s2 & cs2 & -> & Hw2 & Hcs2 & Hk2).
    exists (w1 ++ w2), s2, cs2. rewrite <- (assoc_L (++)).
    repeat split; auto. cbn. eauto 6.
  - destruct Hg as [Hg1 Hg2].
    destruct (rmatch r1 s cs k) as [y|] eqn:Hrun.
    + intros [= ->].
      destruct (IH1 Hg1 _ _ _ _ Hs Hcs Hrun) as (w & s' & cs' & ? & ? & ? & ?).
      exists w, s', cs'. repeat split; auto. cbn. by left.
    + intros Hrun2.
      destruct (IH2 Hg2 _ _ _ _ Hs Hcs Hrun2) as (w & s' & cs' & ? & ? & ? & ?).
      exists w, s', cs'. repeat split; auto. cbn. by right.
  - intros Hrun.
    destruct (repeat_loop_sound _ r greedy lo hi k (IH Hg) _ _ _ _ _ Hs Hcs Hrun)
      as (ws & s' & cs' & -> & Hws & Hlo & Hhi & Hcs' & Hk).
    exists (concat ws), s', cs'. repeat split; auto. cbn.
    exists ws. split; [done|]. split; [done|]. split; [lia|].
    destruct hi as [h|]; cbn; [|done]. specialize (Hhi h eq_refl). lia.
  - destruct Hg as [Hn Hg]. intros Hrun.
    destruct (IH Hg _ _ _ _ Hs Hcs Hrun) as (w & s' & cs' & -> & Hw & Hcs' & Hk).
    rewrite consumed_app in Hk.
    exists w, s', (set_capture n w cs'). repeat split; auto.
    intros i v Hi. unfold set_capture in Hi.
    destruct (decide (i = pred n)) as [->|Hne].
    + destruct (decide (pred n < length cs')%nat).
      * rewrite list_lookup_insert_eq in Hi by done. injection Hi as <-.
        apply Hn; [done|]. destruct Hs as [pre ->]. by exists pre, s'.
      * rewrite list_insert_ge in Hi by lia. eauto.
    + rewrite list_lookup_insert_ne in Hi by done. eauto.
Qed.
End Sound.

Section Complete.
Context {A : Type}.

(** A repetition succeeds along any iterations within its bounds
    after which the continuation succeeds. *)
Lemma repeat_loop_complete body r greedy lo hi (k : str → captures → option A) s' :
  complete_for r body →
  (∀ cs', is_Some (k s' cs')) →
  ∀ ws fuel count cs,
    Forall (matches r) ws →
    (lo ≤ count + length ws)%nat →
    (∀ h, hi = Some h → (count + length ws ≤ lo `max` h)%nat) →
    (lo - count + length (concat ws ++ s') < fuel)%nat →
    is_Some (repeat_loop body greedy lo hi k fuel count (concat ws ++ s') cs).
Proof.
  intros Hbody Hk.
  induction ws as [|w ws IH]; intros fuel count cs Hws Hlo Hhi Hfuel;
    (destruct fuel as [|fuel]; [lia|]).
  - cbn [concat app length] in *. cbn [repeat_loop].
    replace (count <? lo)%nat with false by (symmetry; apply Nat.ltb_ge; lia).
    destruct (below hi count); [|done].
    destruct greedy.
    + by destruct (body s' cs _).
    + by destruct (Hk cs) as [y ->].
  - apply Forall_cons in Hws as [Hw Hws]. cbn [concat length] in *.
    rewrite <- (assoc_L (++)) in *. rewrite length_app in Hfuel.
    destruct (decide (count < lo)%nat) as [Hc|Hc].
    + cbn [repeat_loop].
      replace (count <? lo)%nat with true by (symmetry; apply Nat.ltb_lt; lia).
      apply Hbody; [done|]. intros cs'. cbn [andb].
      apply IH; [done|lia|intros h Hh; specialize (Hhi h Hh); lia|lia].
    + destruct w as [|c w].
      { cbn [app]. apply IH; [done|lia| |cbn [length] in Hfuel; lia].
        intros h Hh. specialize (Hhi h Hh). lia. }
      set (s := (c :: w) ++ concat ws ++ s') in *.
      assert (Hagain : is_Some (body s cs (λ s1 cs1,
          if true && (length s1 =? length s)%nat then k s1 cs1
          else repeat_loop body greedy lo hi k fuel (S count) s1 cs1))).
      { apply Hbody; [done|]. intros cs'.
        replace (length (concat ws ++ s') =? length s)%nat with false.
        - cbn [andb]. apply IH; [done|lia| |cbn [length] in Hfuel; lia].
          intros h Hh. specialize (Hhi h Hh). lia.
        - symmetry. apply Nat.eqb_neq. subst s. rewrite !length_app.
          cbn [length]. lia. }
      cbn [repeat_loop].
      replace (count <? lo)%nat with false by (symmetry; apply Nat.ltb_ge; lia).
      replace (below hi count) with true.
      2:{ destruct hi as [h|]; [|done]. cbn. symmetry. apply Nat.ltb_lt.
          specialize (Hhi h eq_refl). lia. }
      destruct greedy.
      * destruct Hagain as [y ->]. done.
      * by destruct (k s cs).
Qed.

(** The matcher succeeds on every prefix that the pattern matches and
    after which the continuation succeeds. *)
Lemma rmatch_complete r : complete_for (A := A) r (rmatch r).
Proof.
  induction r as [|c| | |r1 IH1 r2 IH2|r1 IH1 r2 IH2|greedy lo hi r IH|n r IH];
    intros w s' cs k Hw Hk; cbn [rmatch]; cbn [matches] in Hw.
  - by subst w.
  - subst w. cbn [app]. by rewrite N.eqb_refl.
  - destruct Hw as (d & Hd & ->). cbn [app]. apply N.eqb_neq in Hd. by rewrite Hd.
  - destruct Hw as (d & Hd & ->). cbn [app]. by rewrite Hd.
  - destruct Hw as (w1 & w2 & -> & Hw1 & Hw2). rewrite <- (assoc_L (++)).
    apply IH1; [done|]. intros cs'. by apply IH2.
  - destruct Hw as [Hw|Hw].
    + destruct (IH1 w s' cs k Hw Hk) as [y ->]. done.
    + destruct (rmatch r1 _ cs k); [done|]. by apply IH2.
  - destruct Hw as (ws & -> & Hws & Hlo & Hhi).
    apply (repeat_loop_complete _ r); auto; [|lia].
    intros h ->. cbn in Hhi. lia.
  - apply IH; [done|]. intros cs'. apply Hk.
Qed.
End Complete.

Lemma search_from_complete r pre w suf :
  matches r w → is_Some (search_from r (pre ++ w ++ suf)).
Proof.
  intros Hw.
  assert (Hhere : ∀ s, s = w ++ suf → is_Some (search_from r s)).
  { intros s ->.
    destruct (rmatch_complete (A := str * captures) r w suf
      (replicate (ngroups r) None) (λ s' cs, Some (s', cs)) Hw)
      as [[s1 cs1] Hrun]; [by eauto|].
    destruct (w ++ suf) eqn:Heq; cbn [search_from]; by rewrite Hrun. }
  induction pre as [|c pre IH]; [by apply Hhere|].
  cbn [app search_from].
  destruct (rmatch r _ _ _) as [[s1 cs1]|]; [done|]. exact IH.
Qed.

Lemma caps_replicate P n : caps P (replicate n None).
Proof. intros i v Hi. by apply lookup_replicate in Hi as [? _]. Qed.

Lemma rmatch_here text P r s s1 cs1 :
  groups_in text P r → s `suffix_of` text →
  rmatch r s (replicate (ngroups r) None) (λ s' cs, Some (s', cs))
    = Some (s1, cs1) →
  s = consumed s s1 ++ s1 ∧ matches r (consumed s s1) ∧ caps P cs1.
Proof.
  intros Hg Hs Hrun.
  destruct (rmatch_sound text P r Hg _ _ _ _ Hs (caps_replicate P _) Hrun)
    as (w & s' & cs' & -> & Hw & Hcs' & [= <- <-]).
  by rewrite consumed_app.
Qed.

Lemma rmatch_nowhere r w suf :
  rmatch r (w ++ suf) (replicate (ngroups r) None) (λ s' cs, Some (s', cs))
    = None →
  ¬ matches r w.
Proof.
  intros Hrun Hw.
  destruct (rmatch_complete (A := str * captures) r w suf
    (replicate (ngroups r) None) (λ s' cs, Some (s', cs)) Hw) as [y Hy];
    [by eauto|congruence].
Qed.

(** A search returns the leftmost part of the text that the pattern
    matches. *)
Lemma search_from_sound text P r : groups_in text P r → ∀ s m,
  s `suffix_of` text →
  search_from r s = Some m →
  ∃ pre suf, s = pre ++ group0 m ++ suf
    ∧ matches r (group0 m)
    ∧ caps P (groups m)
    ∧ ∀ pre' w' suf', s = pre' ++ w' ++ suf' → matches r w' →
        (length pre ≤ length pre')%nat.
Proof.
  intros Hg s m Hs Hm.
  assert (Hhere : ∀ s s1 cs1, s `suffix_of` text →
    rmatch r s (replicate (ngroups r) None) (λ s' cs, Some (s', cs))
      = Some (s1, cs1) →
    ∃ pre suf, s = pre ++ group0 (mkMatch (consumed s s1) cs1) ++ suf
      ∧ matches r (group0 (mkMatch (consumed s s1) cs1))
      ∧ caps P (groups (mkMatch (consumed s s1) cs1))
      ∧ ∀ pre' w' suf', s = pre' ++ w' ++ suf' → matches r w' →
          (length pre ≤ length pre')%nat).
  { clear s m Hs Hm. intros s s1 cs1 Hs Hrun.
    destruct (rmatch_here text P r s s1 cs1 Hg Hs Hrun) as (Heq & Hw & Hcs).
    exists [], s1. cbn [app length group0 groups].
    repeat split; auto. intros; lia. }
  induction s as [|c s IH]; cbn [search_from] in Hm.
  - destruct (rmatch r [] _ _) as [[s1 cs1]|] eqn:Hrun; [|done].
    injection Hm as <-. by apply Hhere.
  - destruct (rmatch r (c :: s) _ _) as [[s1 cs1]|] eqn:Hrun.
    + injection Hm as <-. by apply Hhere.
    + destruct (IH (suffix_cons_l _ _ _ Hs) Hm)
        as (pre & suf & -> & Hw & Hcs & Hleft).
      exists (c :: pre), suf. cbn [app length]. repeat split; auto.
      intros [|c' pre'] w' suf' Heq Hw'.
      * cbn [app] in Heq. rewrite Heq in Hrun.
        by destruct (rmatch_nowhere _ _ _ Hrun).
      * cbn [app] in Heq. injection Heq as -> Heq.
        specialize (Hleft _ _ _ Heq Hw'). cbn [length]. lia.
Qed.

Section Sets.
Context {A : Type}.

Lemma repeat_loop_sets body r greedy lo hi (k : str → captures → option A) :
  sets_for r body →
  ∀ fuel count s cs x,
    repeat_loop body greedy lo hi k fuel count s cs = Some x →
    ∃ s' cs', k s' cs' = Some x
      ∧ length cs' = length cs
      ∧ (∀ i, is_set i cs → is_set i cs')
      ∧ (∀ n, sets n r = true → (count < lo)%nat → (pred n < length cs)%nat →
           is_set (pred n) cs').
Proof.
  intros Hbody. induction fuel as [|fuel IH]; intros count s cs x; [done|].
  cbn [repeat_loop].
  assert (Hagain : ∀ progress,
    body s cs (λ s' cs',
      if progress && (length s' =? length s)%nat then k s' cs'
      else repeat_loop body greedy lo hi k fuel (S count) s' cs') = Some x →
    ∃ s' cs', k s' cs' = Some x
      ∧ length cs' = length cs
      ∧ (∀ i, is_set i cs → is_set i cs')
      ∧ (∀ n, sets n r = true → (count < lo)%nat → (pred n < length cs)%nat →
           is_set (pred n) cs')).
  { intros progress Hrun.
    destruct (Hbody _ _ _ _ Hrun) as (s1 & cs1 & Hk & Hlen & Hkeep & Hset).
    destruct (progress && (length s1 =? length s)%nat).
    - exists s1, cs1. repeat split; auto.
    - destruct (IH _ _ _ _ Hk) as (s' & cs' & Hk' & Hlen' & Hkeep' & _).
      exists s', cs'. split; [done|]. split; [congruence|]. split; [by auto|].
      intros n Hn _ Hlt. auto. }
  assert (Hk : k s cs = Some x → (lo ≤ count)%nat →
    ∃ s' cs', k s' cs' = Some x
      ∧ length cs' = length cs
      ∧ (∀ i, is_set i cs → is_set i cs')
      ∧ (∀ n, sets n r = true → (count < lo)%nat → (pred n < length cs)%nat →
           is_set (pred n) cs')).
  { intros Hk Hlo. exists s, cs. repeat split; auto. intros; lia. }
  destruct (count <? lo)%nat eqn:Hlo; [apply Hagain|].
  apply Nat.ltb_ge in Hlo.
  destruct (below hi count); [|intros; by apply Hk].
  destruct greedy.
  - destruct (body s cs _) as [y|] eqn:Hrun.
    + intros [= ->]. by apply (Hagain true).
    + intros; by apply Hk.
  - destruct (k s cs) as [y|] eqn:Hks.
    + intros [= ->]. by apply Hk.
    + apply Hagain.
Qed.

Lemma is_set_insert i j v (cs : captures) :
  is_set i cs → is_set i (<[j := Some v]> cs).
Proof.
  intros [w Hw]. destruct (decide (i = j)) as [->|Hne].
  - exists v. apply list_lookup_insert_eq. by eapply lookup_lt_Some.
  - exists w. by rewrite list_lookup_insert_ne.
Qed.

(** The matcher sets the captures of the groups that take part in
    every match, and unsets none. *)
Lemma rmatch_sets r : sets_for (A := A) r (rmatch r).
Proof.
  induction r as [|c| | |r1 IH1 r2 IH2|r1 IH1 r2 IH2|greedy lo hi r IH|m r IH];
    intros s cs k x; cbn [rmatch sets].
  - intros Hk. exists s, cs. by repeat split.
  - destruct s as [|d s']; [done|]. destruct (c =? d)%N; [|done].
    intros Hk. exists s', cs. by repeat split.
  - destruct s as [|d s']; [done|]. destruct (d =? 10)%N; [done|].
    intros Hk. exists s', cs. by repeat split.
  - destruct s as [|d s']; [done|]. destruct (is_decimal d); [|done].
    intros Hk. exists s', cs. by repeat split.
  - intros Hrun.
    destruct (IH1 _ _ _ _ Hrun) as (s1 & cs1 & Hk1 & Hlen1 & Hkeep1 & Hset1).
    destruct (IH2 _ _ _ _ Hk1) as (s2 & cs2 & Hk2 & Hlen2 & Hkeep2 & Hset2).
    exists s2, cs2. split; [done|]. split; [congruence|]. split; [by auto|].
    intros n Hn Hlt. apply orb_prop in Hn as [Hn|Hn].
    + auto.
    + apply Hset2; [done|]. by rewrite Hlen1.
  - destruct (rmatch r1 s cs k) as [y|] eqn:Hrun.
    + intros [= ->].
      destruct (IH1 _ _ _ _ Hrun) as (s1 & cs1 & Hk1 & Hlen1 & Hkeep1 & Hset1).
      exists s1, cs1. repeat split; auto.
      intros n Hn. apply andb_prop in Hn as [Hn _]. auto.
    + intros Hrun2.
      destruct (IH2 _ _ _ _ Hrun2) as (s1 & cs1 & Hk1 & Hlen1 & Hkeep1 & Hset1).
      exists s1, cs1. repeat split; auto.
      intros n Hn. apply andb_prop in Hn as [_ Hn]. auto.
  - intros Hrun.
    destruct (repeat_loop_sets _ r greedy lo hi k IH _ _ _ _ _ Hrun)
      as (s' & cs' & Hk & Hlen & Hkeep & Hset).
    exists s', cs'. repeat split; auto.
    intros n Hn. apply andb_prop in Hn as [Hlo Hn]. apply Nat.ltb_lt in Hlo. auto.
  - intros Hrun.
    destruct (IH _ _ _ _ Hrun) as (s1 & cs1 & Hk1 & Hlen1 & Hkeep1 & Hset1).
    exists s1, (set_capture m (consumed s s1) cs1). split; [done|].
    unfold set_capture. split; [by rewrite length_insert|].
    split; [intros i Hi; by apply is_set_insert, Hkeep1|].
    intros n Hn Hlt. apply orb_prop in Hn as [Hn|Hn].
    + apply Nat.eqb_eq in Hn as ->. eexists. apply list_lookup_insert_eq. lia.
    + by apply is_set_insert, Hset1.
Qed.
End Sets.

Lemma groups_in_captured text top r :
  (∀ n r', r' ∈ group_bodies n r → r' ∈ group_bodies n top) →
  groups_in text (captured text top) r.
Proof.
  induction r as [|c| | |r1 IH1 r2 IH2|r1 IH1 r2 IH2|greedy lo hi r IH|m r IH];
    intros Hsub; cbn [groups_in]; try done.
  - split; [apply IH1|apply IH2]; intros n r' Hr';
      apply Hsub; cbn [group_bodies]; apply elem_of_app; auto.
  - split; [apply IH1|apply IH2]; intros n r' Hr';
      apply Hsub; cbn [group_bodies]; apply elem_of_app; auto.
  - apply IH. intros n r' Hr'. by apply Hsub.
  - split.
    + intros w Hw Hocc. split; [done|]. exists m, r. split; [done|].
      split; [|done]. apply Hsub. cbn [group_bodies]. rewrite Nat.eqb_refl.
      apply elem_of_app. left. apply list_elem_of_here.
    + apply IH. intros n r' Hr'. apply Hsub. cbn [group_bodies].
      apply elem_of_app. by right.
Qed.

Lemma search_from_run r : ∀ s m,
  search_from r s = Some m →
  ∃ s0 s1, rmatch r s0 (replicate (ngroups r) None) (λ s' cs, Some (s', cs))
             = Some (s1, groups m).
Proof.
  induction s as [|c s IH]; intros m; cbn [search_from].
  - destruct (rmatch r [] _ _) as [[s1 cs1]|] eqn:Hrun; [|done].
    intros [= <-]. by exists [], s1.
  - destruct (rmatch r (c :: s) _ _) as [[s1 cs1]|] eqn:Hrun.
    + intros [= <-]. by exists (c :: s), s1.
    + apply IH.
Qed.

(** What a successful search returns: the leftmost part of the text
    that the pattern matches, one capture per group, each capture that
    is set a part of the text that its group matches, and the captures
    of the groups that always take part set. *)
Lemma search_sound r text m :
  Re.search r text = Some m →
  (∃ pre suf, text = pre ++ group0 m ++ suf
     ∧ ∀ pre' w' suf', text = pre' ++ w' ++ suf' → matches r w' →
         (length pre ≤ length pre')%nat)
  ∧ matches r (group0 m)
  ∧ length (groups m) = ngroups r
  ∧ caps (captured text r) (groups m)
  ∧ (∀ n, sets n r = true → (pred n < ngroups r)%nat →
       is_set (pred n) (groups m)).
Proof.
  intros Hm. unfold Re.search in Hm.
  destruct (search_from_sound text (captured text r) r
    (groups_in_captured text r r (λ _ _ H, H)) text m (reflexivity _) Hm)
    as (pre & suf & Heq & Hw & Hcs & Hleft).
  split; [by exists pre, suf|]. split; [done|].
  split; [by eapply search_groups_length|]. split; [done|].
  intros n Hn Hlt.
  destruct (search_from_run _ _ _ Hm) as (s0 & s1 & Hrun).
  destruct (rmatch_sets r _ _ _ _ Hrun) as (s' & cs' & [= _ <-] & _ & _ & Hset).
  apply Hset; [done|]. by rewrite length_replicate.
Qed.

(** A search succeeds exactly when the pattern matches some part of
    the text. *)
Lemma search_is_Some r text : is_Some (Re.search r text) ↔ fires text r.
Proof.
  split.
  - intros [m Hm].
    destruct (search_sound _ _ _ Hm) as ((pre & suf & -> & _) & Hw & _).
    exists (group0 m). split; [by exists pre, suf|done].
  - intros (w & (pre & suf & ->) & Hw). by apply search_from_complete.
Qed.

Lemma search_None r text : Re.search r text = None ↔ ¬ fires text r.
Proof. by rewrite eq_None_not_Some, search_is_Some. Qed.

(** ** The pattern recognizer in terms of the text *)

Section RegexDeclarative.
Import RegexIntentParser.

Lemma attempts_lookup self text k :
  Spec.attempts self text !! k = attempt text <$> Spec.declared self !! k.
Proof.
  unfold Spec.attempts. rewrite list_lookup_fmap.
  by destruct (Spec.declared self !! k) as [[[name i] p]|].
Qed.

(** The first declared pattern whose search succeeds decides. *)
Lemma regex_parse_found self text k name i p m :
  Spec.declared self !! k = Some (name, i, p) →
  Re.search_ignorecase p text = Some m →
  (∀ j rule, (j < k)%nat → Spec.declared self !! j = Some rule →
     Re.search_ignorecase rule.2 text = None) →
  parse self text = matched name i m.
Proof.
  intros Hk Hm Hfirst. rewrite regex_parse_spec, matched_record.
  unfold Spec.regex_parse.
  assert (list_find (λ a, is_Some a.2) (Spec.attempts self text)
          = Some (k, (name, i, Some m))) as ->; [|done].
  apply list_find_Some. split.
  - rewrite attempts_lookup, Hk. cbn [fmap option_fmap option_map attempt].
    by rewrite Hm.
  - split; [by eexists|]. intros j a Ha Hj [m' Hm'].
    rewrite attempts_lookup in Ha.
    destruct (Spec.declared self !! j) as [[[name' i'] p']|] eqn:Hrule; [|done].
    injection Ha as <-. cbn [attempt snd] in Hm'.
    specialize (Hfirst j _ Hj Hrule). cbn [snd] in Hfirst.
    by rewrite Hfirst in Hm'.
Qed.

Lemma regex_parse_default_iff self text :
  parse self text = IntentResult_default
  ↔ ∀ rule, rule ∈ Spec.declared self → ¬ fires text (ignorecase rule.2).
Proof.
  split.
  - rewrite regex_parse_spec. unfold Spec.regex_parse.
    destruct (list_find _ _) as [[k [[name i] [m|]]]|] eqn:Hfind.
    + intros Hdef. discriminate Hdef.
    + by apply list_find_Some in Hfind as (_ & [m Hm] & _).
    + intros _ [[name i] p] Hin Hp. cbn [snd] in Hp.
      apply list_find_None in Hfind. rewrite Forall_forall in Hfind.
      apply search_is_Some in Hp. apply (Hfind (attempt text (name, i, p))).
      * unfold Spec.attempts.
        apply (list_elem_of_fmap_2
                 (λ '(intent, i, p), (intent, i, Re.search_ignorecase p text))
                 _ (name, i, p) Hin).
      * done.
  - intros Hno. apply regex_parse_no_match, Forall_forall.
    intros rule Hin. apply search_None, (Hno rule Hin).
Qed.

Lemma regex_parse_fired self text k name i p :
  Spec.declared self !! k = Some (name, i, p) →
  fires text (ignorecase p) →
  (∀ j rule, (j < k)%nat → Spec.declared self !! j = Some rule →
     ¬ fires text (ignorecase rule.2)) →
  ∃ m, Re.search_ignorecase p text = Some m
    ∧ parse self text = matched name i m.
Proof.
  intros Hk Hp Hfirst.
  apply search_is_Some in Hp as [m Hm]. exists m. split; [done|].
  eapply regex_parse_found; eauto.
  intros j rule Hj Hrule. apply search_None, (Hfirst j rule Hj Hrule).
Qed.

(** The pattern recognizer in terms of the texts that the patterns
    match, each pattern read without regard to case as
    [re.IGNORECASE] has it: the recognizer answers with the default
    result exactly when no declared pattern matches any part of the
    text; otherwise the first declared pattern that matches some part
    of the text decides the intent and the rule, the confidence is 0.9,
    and the entities are the captures of its groups, each one missing
    or a part of the text that the group's own sub-pattern matches. *)
Theorem regex_parse_declarative (self : RegexIntentParser.t) (text : str) :
  (parse self text = IntentResult_default
   ↔ ∀ rule, rule ∈ Spec.declared self → ¬ fires text (ignorecase rule.2))
  ∧ ∀ k name i p,
      Spec.declared self !! k = Some (name, i, p) →
      fires text (ignorecase p) →
      (∀ j rule, (j < k)%nat → Spec.declared self !! j = Some rule →
         ¬ fires text (ignorecase rule.2)) →
      intent (parse self text) = name
      ∧ confidence (parse self text) = 0.9
      ∧ matched_rules (parse self text) = [rule_name name i]
      ∧ (ngroups p = 0%nat → extracted_entities (parse self text) = None)
      ∧ (ngroups p ≠ 0%nat →
         ∃ es, extracted_entities (parse self text) = Some es
           ∧ length es = ngroups p
           ∧ caps (captured text (ignorecase p)) es).
Proof.
  split; [apply regex_parse_default_iff|].
  intros k name i p Hk Hp Hfirst.
  destruct (regex_parse_fired self text k name i p Hk Hp Hfirst) as (m & Hm & ->).
  destruct (search_sound _ _ _ Hm) as (_ & _ & Hlen & Hcaps & _).
  rewrite ngroups_ignorecase in Hlen.
  rewrite matched_record. cbn [intent confidence matched_rules extracted_entities].
  split; [done|]. split; [done|]. split; [done|]. split.
  - intros Hn. rewrite Hn in Hlen. apply length_zero_iff_nil in Hlen.
    by rewrite decide_True.
  - intros Hn. exists (groups m). split; [|done].
    rewrite decide_False; [done|]. intros Hnil. by rewrite Hnil in Hlen.
Qed.

(** On the patterns of the source, which have no cased letter, the
    flag changes nothing. *)
Lemma init_fires_ignorecase rule text :
  rule ∈ Spec.declared init →
  fires text (ignorecase rule.2) ↔ fires text rule.2.
Proof.
  intros Hin.
  by rewrite (proj1 (Forall_forall _ _) init_patterns_uncased rule Hin).
Qed.

Lemma init_regex_parse_default_iff text :
  parse init text = IntentResult_default
  ↔ ∀ rule, rule ∈ Spec.declared init → ¬ fires text rule.2.
Proof.
  rewrite regex_parse_default_iff.
  split; intros Hno rule Hin; specialize (Hno rule Hin);
    by rewrite init_fires_ignorecase in *.
Qed.

Lemma init_regex_parse_fired text k name i p :
  Spec.declared init !! k = Some (name, i, p) →
  fires text p →
  (∀ j rule, (j < k)%nat → Spec.declared init !! j = Some rule →
     ¬ fires text rule.2) →
  ∃ m, Re.search p text = Some m ∧ parse init text = matched name i m.
Proof.
  intros Hk Hp Hfirst.
  pose proof (list_elem_of_lookup_2 _ _ _ Hk) as Hin.
  rewrite <- (init_search_ignorecase (name, i, p)) by done.
  apply (regex_parse_fired _ _ k);
    [done|by apply (init_fires_ignorecase (name, i, p))|].
  intros j rule Hj Hrule. rewrite init_fires_ignorecase; [by eapply Hfirst|].
  by apply (list_elem_of_lookup_2 _ j).
Qed.
End RegexDeclarative.

(** ** Slot extraction in terms of the text *)

Section SlotErrors.
Import SlotExtractor.

Lemma fill_raises text ps : ∀ slots,
  (∀ e, fill text ps slots = Raise e → e = IndexError)
  ∧ (Exists (λ np, ngroups np.2 = 0%nat ∧ fires text np.2) ps
     ↔ fill text ps slots = Raise IndexError).
Proof.
  induction ps as [|[name p] ps IH]; intros slots; cbn [fill].
  - split; [done|]. split; [by intros ?%Exists_nil|done].
  - destruct (Re.search p text) as [m|] eqn:Hm.
    + pose proof (search_groups_length _ _ _ Hm) as Hlen.
      unfold group1.
      destruct (groups m) as [|g gs] eqn:Hg; cbn [mbind pyresult_bind].
      * split; [by intros e [= <-]|]. split; [done|]. intros _.
        apply Exists_cons_hd. split; [done|]. apply search_is_Some. by eexists.
      * destruct (IH (<[name := g]> slots)) as [IH1 IH2].
        split; [done|]. rewrite <- IH2. rewrite Exists_cons. cbn [snd].
        split; [|by right]. intros [[Hn _]|?]; [|done].
        rewrite Hn in Hlen. done.
    + destruct (IH slots) as [IH1 IH2].
      split; [done|]. rewrite <- IH2. rewrite Exists_cons. cbn [snd].
      split; [|by right]. intros [[_ Hf]|?]; [|done].
      apply search_is_Some in Hf as [m' Hm']. congruence.
Qed.

(** The only exception of [extract_slots] is the [IndexError] of
    [match.group(1)], and it is raised exactly when a pattern without
    a capture group, configured for the intent, matches some part of
    the text. *)
Theorem extract_slots_raises (self : SlotExtractor.t) (text intent : str)
    (e : exn) :
  extract_slots self text intent = Raise e
  ↔ e = IndexError
    ∧ ∃ ps name p, slot_patterns self !! intent = Some ps
        ∧ (name, p) ∈ ps ∧ ngroups p = 0%nat ∧ fires text p.
Proof.
  unfold extract_slots.
  destruct (slot_patterns self !! intent) as [ps|] eqn:Hps.
  - destruct (fill_raises text ps ∅) as [Honly Hiff]. split.
    + intros Hr. pose proof (Honly e Hr) as ->. split; [done|].
      apply Hiff, Exists_exists in Hr as ([name p] & Hin & Hn & Hf).
      by exists ps, name, p.
    + intros (-> & ps' & name & p & [= <-] & Hin & Hn & Hf).
      apply Hiff, Exists_exists. by exists (name, p).
  - split; [done|]. by intros (_ & ps & name & p & ? & _).
Qed.
End SlotErrors.

Section SlotDeclarative.
Import SlotExtractor.

(** For a well-formed configuration: a slot is filled exactly when its
    pattern matches some part of the text, and a stored string is a
    part of the text that the first group of the slot's pattern
    matches. *)
Theorem extract_slots_declarative (self : SlotExtractor.t) (text intent : str) :
  well_formed self →
  ∃ slots, extract_slots self text intent = Ok slots
    ∧ (∀ name, is_Some (slots !! name)
         ↔ ∃ ps p, slot_patterns self !! intent = Some ps
             ∧ (name, p) ∈ ps ∧ fires text p)
    ∧ (∀ name w, slots !! name = Some (Some w) →
         ∃ ps p, slot_patterns self !! intent = Some ps
           ∧ (name, p) ∈ ps ∧ captured text p 0 w).
Proof.
  intros Hwf.
  destruct (extract_slots_spec self text intent Hwf) as (slots & Hok & Hval & _).
  exists slots. split; [done|].
  assert (Hcfg : ∀ ps, slot_patterns self !! intent = Some ps →
    NoDup ps.*1 ∧ Forall (λ np, ngroups np.2 ≠ 0%nat) ps).
  { intros ps Hps. apply (Hwf _ _ Hps). }
  split.
  - intros name. rewrite Hval. unfold Spec.slot_value. split.
    + intros [v Hv].
      apply bind_Some in Hv as (ps & Hps & Hv).
      apply bind_Some in Hv as (p & Hp & Hv).
      apply bind_Some in Hv as (m & Hm & Hv).
      exists ps, p. split; [done|]. split; [by apply elem_of_list_to_map_2|].
      apply search_is_Some. by eexists.
    + intros (ps & p & Hps & Hin & Hf).
      destruct (Hcfg ps Hps) as [Hnd Hgroups].
      apply search_is_Some in Hf as [m Hm].
      rewrite Hps. cbn [mbind option_bind].
      rewrite (elem_of_list_to_map_1 _ _ _ Hnd Hin). cbn [mbind option_bind].
      rewrite Hm. cbn [mbind option_bind].
      rewrite Forall_forall in Hgroups. specialize (Hgroups _ Hin).
      cbn in Hgroups.
      pose proof (search_groups_length _ _ _ Hm) as Hlen.
      destruct (groups m); [done|by eexists].
  - intros name w Hw. rewrite Hval in Hw. unfold Spec.slot_value in Hw.
    apply bind_Some in Hw as (ps & Hps & Hw).
    apply bind_Some in Hw as (p & Hp & Hw).
    apply bind_Some in Hw as (m & Hm & Hw).
    exists ps, p. split; [done|]. split; [by apply elem_of_list_to_map_2|].
    destruct (search_sound _ _ _ Hm) as (_ & _ & _ & Hcaps & _).
    apply Hcaps. by rewrite <- head_lookup.
Qed.
End SlotDeclarative.

Lemma extract_slots_declarative_witness :
  ∃ slots,
    SlotExtractor.extract_slots SlotExtractor.init
      (u "昨天下的订单888888想要退货") (u "refund") = Ok slots
    ∧ (∀ name, is_Some (slots !! name)
         ↔ ∃ ps p, SlotExtractor.slot_patterns SlotExtractor.init !! u "refund"
                   = Some ps
             ∧ (name, p) ∈ ps ∧ fires (u "昨天下的订单888888想要退货") p)
    ∧ (∀ name w, slots !! name = Some (Some w) →
         ∃ ps p, SlotExtractor.slot_patterns SlotExtractor.init !! u "refund"
                 = Some ps
           ∧ (name, p) ∈ ps
           ∧ captured (u "昨天下的订单888888想要退货") p 0 w).
Proof. apply extract_slots_declarative, init_well_formed. Defined.

Section SlotShapes.
Import SlotExtractor.

Lemma matches_repeat_digit greedy lo hi w :
  matches (Repeat greedy lo hi Digit) w →
  (lo ≤ length w)%nat ∧ decimal_digits w.
Proof.
  intros (ws & -> & Hws & Hlo & _). revert lo Hlo.
  induction Hws as [|x ws (d & Hd & ->) _ IH]; intros lo Hlo.
  - cbn in *. split; [lia|constructor].
  - destruct (IH (pred lo)) as [Hlen Hdig]; [cbn in Hlo; lia|].
    cbn [concat app length]. split; [lia|by constructor].
Qed.

Lemma matches_repeat_dot greedy lo hi w :
  matches (Repeat greedy lo hi Dot) w → 10%N ∉ w.
Proof.
  intros (ws & -> & Hws & _).
  induction Hws as [|x ws (d & Hd & ->) _ IH]; cbn [concat app].
  - apply not_elem_of_nil.
  - apply not_elem_of_cons. by split.
Qed.

(** The value of a slot whose pattern always fills group 1. *)
Lemma slot_of_value text p v :
  slot_of text p = Some v →
  sets 1 p = true → ngroups p ≠ 0%nat →
  ∃ w, v = Some w ∧ occurs_in w text
    ∧ ∃ r', r' ∈ group_bodies 1 p ++ group_bodies 0 p ∧ matches r' w.
Proof.
  unfold slot_of. intros (m & Hm & Hv)%bind_Some Hsets Hn.
  destruct (search_sound _ _ _ Hm) as (_ & _ & Hlen & Hcaps & Hset).
  destruct (Hset 1%nat Hsets) as [w Hw]; [cbn; lia|].
  rewrite <- head_lookup, Hv in Hw. injection Hw as ->.
  exists w. split; [done|].
  rewrite head_lookup in Hv.
  destruct (Hcaps 0%nat w Hv) as (Hocc & n & r' & Hpred & Hr' & Hw).
  split; [done|]. exists r'. split; [|done].
  apply elem_of_app. destruct n as [|[|n]]; [by right|by left|done].
Qed.

(** The slots of the built-in configuration: only the four configured
    names occur; a stored value is always a string and a part of the
    text; an order number has at least six decimal digits, an amount
    is digits with at most one point after the first of them, a time
    is one of the five configured words, and a reason is on one
    line. *)
Theorem init_slots_shape (text intent : str) :
  ∃ slots, extract_slots init text intent = Ok slots
    ∧ ∀ name v, slots !! name = Some v →
        name ∈ [u "order_id"; u "time"; u "reason"; u "amount"]
        ∧ ∃ w, v = Some w ∧ occurs_in w text ∧ slot_shape name w.
Proof.
  destruct (extract_slots_spec init text intent init_well_formed)
    as (slots & Hok & Hval & _).
  exists slots. split; [done|]. intros name v Hv.
  rewrite Hval in Hv. unfold Spec.slot_value in Hv.
  apply bind_Some in Hv as (ps & Hps & Hv).
  apply bind_Some in Hv as (p & Hp & Hv).
  apply elem_of_list_to_map_2 in Hps, Hp.
  change (slot_of text p = Some v) in Hv.
  assert (Hno : ∀ a b : str, a = b → bool_decide (a = b) = false → False).
  { intros a b ->. by rewrite bool_decide_eq_true_2. }
  repeat (apply elem_of_cons in Hps as [[= -> ->]|Hps]);
    [..|by apply elem_of_nil in Hps];
    repeat (apply elem_of_cons in Hp as [[= -> ->]|Hp]);
    try (by apply elem_of_nil in Hp);
    (split; [apply (bool_decide_unpack _); by vm_compute|]);
    (destruct (slot_of_value _ _ _ Hv) as (w & -> & Hocc & r' & Hr' & Hw);
       [by vm_compute|by vm_compute|]);
    exists w; (split; [done|]); (split; [done|]);
    vm_compute in Hr'; apply list_elem_of_singleton in Hr'; subst r'.
  all: unfold slot_shape; (split; [|split; [|split]]); intros Hname;
    try (exfalso; apply (Hno _ _ Hname); by vm_compute).
  all: try (by eapply matches_repeat_digit).
  all: try (by eapply matches_repeat_dot).
  - cbn [matches] in Hw.
    repeat (destruct Hw as [Hw|Hw]); destruct Hw as (w1 & w2 & -> & -> & ->);
      apply (bool_decide_unpack _); by vm_compute.
  - cbn [matches] in Hw.
    repeat (destruct Hw as [Hw|Hw]); destruct Hw as (w1 & w2 & -> & -> & ->);
      apply (bool_decide_unpack _); by vm_compute.
  - destruct Hw as (a & w2 & -> & Ha & d & b & -> & Hd & Hb).
    apply matches_repeat_digit in Ha as [Hlen Ha].
    apply matches_repeat_digit in Hb as [_ Hb].
    exists a, d, b. split; [done|].
    split; [destruct a; [cbn in Hlen; lia|done]|]. split; [done|].
    split; [|done].
    destruct Hd as (ws & -> & Hws & _ & Hhi). cbn in Hhi.
    destruct ws as [|x [|y ws]]; [by left| |cbn in Hhi; lia].
    right. apply Forall_cons in Hws as [-> _]. done.
Qed.
End SlotShapes.

(** ** The keyword recognizer in terms of the text *)

Section Substring.

Lemma starts_with_spec (p s : str) :
  starts_with p s = true ↔ ∃ suf, s = p ++ suf.
Proof.
  revert s. induction p as [|c p IH]; intros s; cbn [starts_with].
  - split; [by exists s|done].
  - destruct s as [|d s]; [split; [done|by intros [suf ?]]|].
    rewrite andb_true_iff, N.eqb_eq, IH. split.
    + intros (-> & suf & ->). by exists suf.
    + intros (suf & [= -> ->]). split; [done|by exists suf].
Qed.

(** [w in text] holds exactly when [w] is a part of [text]. *)
Lemma str_contains_spec (w text : str) :
  str_contains w text = true ↔ occurs_in w text.
Proof.
  induction text as [|c text IH].
  - cbn [str_contains]. rewrite orb_false_r, starts_with_spec. split.
    + intros [suf Hs]. by exists [], suf.
    + intros (pre & suf & Hs). symmetry in Hs.
      apply app_eq_nil in Hs as [-> Hs]. by exists suf.
  - cbn [str_contains]. rewrite orb_true_iff, IH, starts_with_spec. split.
    + intros [[suf ->]|(pre & suf & ->)];
        [by exists [], suf|by exists (c :: pre), suf].
    + intros ([|c' pre] & suf & Hs).
      * left. by exists suf.
      * right. injection Hs as -> ->. by exists pre, suf.
Qed.

Lemma occurs_in_trans (a w text : str) :
  occurs_in a w → occurs_in w text → occurs_in a text.
Proof.
  intros (p1 & s1 & ->) (p2 & s2 & ->).
  exists (p2 ++ p1), (s1 ++ s2). by rewrite <- !(assoc_L (++)).
Qed.
End Substring.

Section KeywordWords.
Import KeywordIntentParser.

Lemma elem_of_words text c w :
  w ∈ words text c ↔ w ∈ primary c ++ secondary c ∧ occurs_in w text.
Proof.
  unfold words, Spec.occurring.
  rewrite !elem_of_app, !list_elem_of_filter, !str_contains_spec. tauto.
Qed.

(** What the keyword recognizer reports, for any configuration: the
    default result, or a configured intent with its single rule and, as
    entities, exactly the keywords configured for that intent that are
    parts of the text, of which there is at least one. *)
Theorem keyword_parse_entities (self : KeywordIntentParser.t) (text : str) :
  NoDup (keywords self).*1 →
  parse self text = IntentResult_default
  ∨ ∃ name c ws,
      (name, c) ∈ keywords self
      ∧ intent (parse self text) = name
      ∧ matched_rules (parse self text) = [rule_name name]
      ∧ extracted_entities (parse self text) = Some (Some <$> ws)
      ∧ ws ≠ []
      ∧ ∀ w, w ∈ ws ↔ w ∈ primary c ++ secondary c ∧ occurs_in w text.
Proof.
  intros Hnd.
  destruct (keyword_parse_cases self text Hnd)
    as [[Hdef _]|(name & c & Hin & Hpos & ->)]; [by left|].
  right. exists name, c, (words text c). split; [done|].
  cbn [intent matched_rules extracted_entities].
  split; [done|]. split; [done|]. split; [done|].
  split; [by apply scored_words_nonempty|]. apply elem_of_words.
Qed.
End KeywordWords.

Lemma keyword_parse_entities_witness :
  KeywordIntentParser.parse KeywordIntentParser.init (u "快递发货")
    = IntentResult_default
  ∨ ∃ name c ws,
      (name, c) ∈ KeywordIntentParser.keywords KeywordIntentParser.init
      ∧ intent (KeywordIntentParser.parse KeywordIntentParser.init (u "快递发货"))
        = name
      ∧ matched_rules
          (KeywordIntentParser.parse KeywordIntentParser.init (u "快递发货"))
        = [KeywordIntentParser.rule_name name]
      ∧ extracted_entities
          (KeywordIntentParser.parse KeywordIntentParser.init (u "快递发货"))
        = Some (Some <$> ws)
      ∧ ws ≠ []
      ∧ ∀ w, w ∈ ws
          ↔ w ∈ KeywordIntentParser.primary c ++ KeywordIntentParser.secondary c
            ∧ occurs_in w (u "快递发货").
Proof.
  apply keyword_parse_entities. apply (bool_decide_unpack _). by vm_compute.
Defined.

Ltac elem_now :=
  repeat first [apply list_elem_of_here | apply list_elem_of_further].

Section KeywordInit.
Import KeywordIntentParser.

Lemma foldl_add_const {A} (x : float) (l : list A) (acc : float) :
  foldl PrimFloat.add acc ((λ _, x) <$> l)
  = foldl PrimFloat.add acc (replicate (length l) x).
Proof.
  revert acc. induction l as [|a l IH]; intros acc; cbn; [done|apply IH].
Qed.

(** The raw score depends on the numbers of occurring keywords only. *)
Lemma raw_score_counts text c :
  raw_score text c =
    foldl PrimFloat.add 0.0
      (replicate (length (Spec.occurring text (primary c))) (weight_primary c)
       ++ replicate (length (Spec.occurring text (secondary c)))
            (weight_secondary c)).
Proof.
  unfold raw_score, hits. rewrite !foldl_app, !foldl_add_const. done.
Qed.

(** The scores that the built-in weights can add up to. *)
Lemma init_scores np ns :
  (np ≤ 3)%nat → (ns ≤ 3)%nat →
  let s := foldl PrimFloat.add 0.0 (replicate np 0.8 ++ replicate ns 0.4) in
  ((0.0 <? s) = negb ((np =? 0)%nat && (ns =? 0)%nat))
  ∧ py_min s 1.0 ∈ [0.0; 0.4; 0.8; 1.0].
Proof.
  intros Hp Hs.
  destruct np as [|[|[|[|?]]]]; [..|lia];
    (destruct ns as [|[|[|[|?]]]]; [..|lia]);
    (split; [by vm_compute|vm_compute; elem_now]).
Qed.

Lemma init_config text name c :
  (name, c) ∈ keywords init →
  weight_primary c = 0.8 ∧ weight_secondary c = 0.4
  ∧ (length (Spec.occurring text (primary c)) ≤ 3)%nat
  ∧ (length (Spec.occurring text (secondary c)) ≤ 3)%nat.
Proof.
  intros Hin. unfold Spec.occurring.
  repeat (apply elem_of_cons in Hin as [[= -> ->]|Hin]);
    [..|by apply elem_of_nil in Hin];
    (split; [done|]); (split; [done|]);
    (split; (etrans; [apply length_filter|cbn [length primary secondary]; lia])).
Qed.

Lemma init_keyword_score text name c :
  (name, c) ∈ keywords init →
  ((0.0 <? Spec.keyword_score text c) = true ↔ words text c ≠ [])
  ∧ Spec.keyword_score text c ∈ [0.0; 0.4; 0.8; 1.0].
Proof.
  intros Hin. destruct (init_config text name c Hin) as (Hwp & Hws & Hp & Hs).
  unfold Spec.keyword_score at 1. rewrite clamp_pos.
  rewrite keyword_score_raw.
  change (foldl _ _ _) with (raw_score text c).
  rewrite raw_score_counts, Hwp, Hws.
  destruct (init_scores _ _ Hp Hs) as [Hpos Hval]. split; [|done].
  rewrite Hpos. unfold words.
  destruct (Spec.occurring text (primary c)),
    (Spec.occurring text (secondary c)); cbn; split; done.
Qed.

Lemma init_keyword_known text :
  intent (parse init text) ≠ u "unknown"
  ↔ ∃ w, w ∈ Spec.configured_keywords init ∧ occurs_in w text.
Proof.
  destruct (keyword_parse_cases init text init_keys_distinct)
    as [[Hdef Hzero]|(name & c & Hin & Hpos & Hparse)].
  - rewrite Hdef. split; [done|]. intros (w & Hw & Hocc). exfalso.
    unfold Spec.configured_keywords in Hw.
    apply list_elem_of_bind in Hw as ([name c] & Hw & Hin).
    destruct (init_keyword_score text name c Hin) as [Hiff _].
    specialize (Hzero name c Hin). rewrite Hzero in Hiff.
    assert (words text c ≠ []) as Hne; [|by apply Hiff in Hne].
    intros Hnil. assert (w ∈ words text c) as Hw' by by apply elem_of_words.
    rewrite Hnil in Hw'. by apply elem_of_nil in Hw'.
  - rewrite Hparse. cbn [intent].
    destruct (init_keyword_score text name c Hin) as [Hiff _].
    split; [intros _|intros _; by eapply init_keyword_intents_known].
    apply Hiff in Hpos. destruct (words text c) as [|w ws] eqn:Hws; [done|].
    exists w.
    assert (w ∈ words text c) as Hw by (rewrite Hws; apply list_elem_of_here).
    apply elem_of_words in Hw as [Hw Hocc]. split; [|done].
    unfold Spec.configured_keywords. apply list_elem_of_bind.
    by exists (name, c).
Qed.

(** The keyword recognizer with the built-in configuration answers
    with an intent exactly when some configured keyword is a part of
    the text; its confidence is 0.0, 0.4, 0.8 or 1.0, and 0.0 exactly
    on ["unknown"]. *)
Theorem init_keyword_answers (text : str) :
  (intent (parse init text) ≠ u "unknown"
   ↔ ∃ w, w ∈ Spec.configured_keywords init ∧ occurs_in w text)
  ∧ confidence (parse init text) ∈ [0.0; 0.4; 0.8; 1.0]
  ∧ (intent (parse init text) = u "unknown"
     ↔ confidence (parse init text) = 0.0).
Proof.
  split; [apply init_keyword_known|].
  destruct (keyword_parse_cases init text init_keys_distinct)
    as [[-> _]|(name & c & Hin & Hpos & ->)].
  - split; [vm_compute; elem_now|done].
  - cbn [intent confidence].
    destruct (init_keyword_score text name c Hin) as [_ Hval].
    split; [done|]. split.
    + intros Hname. by destruct (init_keyword_intents_known name c Hin).
    + intros Hc. rewrite Hc in Hpos. by vm_compute in Hpos.
Qed.
End KeywordInit.

(** ** What the merge selects *)

Section MergeSelects.
Import RuleBasedIntentChain.

(** With a result left after the ["unknown"] ones are discarded, the
    merge returns one of those left. *)
Lemma merge_results_valid results v vs :
  filter (λ r, intent r ≠ u "unknown") results = v :: vs →
  _merge_results results ∈ v :: vs.
Proof.
  intros Hf. unfold _merge_results. rewrite Hf.
  pose proof (py_max_from_elem confidence v vs) as Hmax.
  destruct (filter (λ r, has_regex_rule r) (v :: vs)) as [|r0 rs] eqn:Hr;
    [done|].
  destruct (0.8 <? confidence r0); [|done].
  assert (r0 ∈ r0 :: rs) as Hin by apply list_elem_of_here.
  rewrite <- Hr in Hin. by apply list_elem_of_filter in Hin as [_ ?].
Qed.

(** What the merge never does: it never invents a result and never
    lets an ["unknown"] result through or influence the outcome.  Its
    result is the default one exactly when every result is
    ["unknown"]; otherwise it is one of the results, with another
    intent than ["unknown"]; and removing the ["unknown"] results
    beforehand changes nothing. *)
Theorem merge_results_selects (results : list IntentResult) :
  (_merge_results results = IntentResult_default
   ↔ Forall (λ r, intent r = u "unknown") results)
  ∧ (_merge_results results ≠ IntentResult_default →
     _merge_results results ∈ results
     ∧ intent (_merge_results results) ≠ u "unknown")
  ∧ _merge_results (filter (λ r, intent r ≠ u "unknown") results)
    = _merge_results results.
Proof.
  split; [|split].
  - destruct (filter (λ r, intent r ≠ u "unknown") results) as [|v vs] eqn:Hf.
    + assert (Hall : Forall (λ r, intent r = u "unknown") results).
      { apply Forall_forall. intros r Hr.
        destruct (decide (intent r = u "unknown")) as [|Hn]; [done|].
        assert (r ∈ filter (λ r, intent r ≠ u "unknown") results) as Hin
          by by apply list_elem_of_filter.
        rewrite Hf in Hin. by apply elem_of_nil in Hin. }
      split; [done|]. intros _. unfold _merge_results. by rewrite Hf.
    + pose proof (merge_results_valid results v vs Hf) as Hin.
      rewrite <- Hf in Hin. apply list_elem_of_filter in Hin as [Hne Hin].
      split.
      * intros Hdef. by rewrite Hdef in Hne.
      * intros Hall. rewrite Forall_forall in Hall. by destruct (Hne (Hall _ Hin)).
  - intros Hne. by destruct (merge_results_elem results) as [Hd|?].
  - unfold _merge_results. by rewrite list_filter_filter_l by done.
Qed.
End MergeSelects.

(** ** The pipeline on the built-in configuration *)

Section PipelineDecision.
Import RuleBasedIntentChain.

Lemma init_regex_unknown text :
  intent (RegexIntentParser.parse RegexIntentParser.init text) = u "unknown" →
  RegexIntentParser.parse RegexIntentParser.init text = IntentResult_default.
Proof.
  destruct (regex_parse_cases RegexIntentParser.init text)
    as [->|(name & i & m & Hin & ->)]; [done|].
  intros Hname. by destruct (init_regex_intents_known name Hin).
Qed.

(** The merge of the two recognizers' results is the deciding one. *)
Lemma pipeline_merge text :
  _merge_results
    [RegexIntentParser.parse RegexIntentParser.init text;
     KeywordIntentParser.parse KeywordIntentParser.init text]
  = decisive text.
Proof.
  unfold decisive. cbv zeta.
  destruct (decide _) as [Hu|Hv]; [|by apply merge_regex_first].
  rewrite (init_regex_unknown text Hu).
  pose proof (init_keyword_not_pattern text) as Hnp.
  rewrite <- has_regex_rule_pattern in Hnp.
  destruct (keyword_parse_cases KeywordIntentParser.init text init_keys_distinct)
    as [[Hd _]|(name & c & Hin & _ & Hk)].
  - rewrite Hd. done.
  - pose proof (init_keyword_intents_known name c Hin) as Hname.
    rewrite Hk in *. unfold _merge_results.
    rewrite filter_cons, decide_False by (by intros ?).
    rewrite filter_cons, decide_True by done.
    rewrite filter_nil, filter_cons.
    destruct (decide _) as [Hr|_]; [done|]. by rewrite filter_nil.
Qed.

Lemma invoke_init_spec (input_dict : gmap str pyval) (text : str) :
  ∃ slots,
    SlotExtractor.extract_slots SlotExtractor.init text
      (intent (decisive text)) = Ok slots
    ∧ invoke init (<[u "text" := PyStr text]> input_dict)
      = Ok (mkOutput (intent (decisive text)) (confidence (decisive text))
              slots (matched_rules (decisive text))
              (extracted_entities (decisive text))
              (_generate_reasoning (decisive text))).
Proof.
  destruct (extract_slots_spec SlotExtractor.init text (intent (decisive text))
              init_well_formed) as (slots & Hs & _).
  exists slots. split; [done|].
  unfold invoke, dict_get. rewrite lookup_insert_eq.
  cbn [regex_parser keyword_parser slot_extractor init].
  rewrite pipeline_merge, Hs. done.
Qed.

(** How [invoke] composes its parts on the built-in configuration:
    the pattern recognizer's result decides when there is one, the
    keyword recognizer's otherwise; the slots are those of the deciding
    intent and the reasoning is generated from the deciding result.
    The other keys of the input are ignored. *)
Theorem invoke_decides (input_dict : gmap str pyval) (text : str) :
  let regex_result := RegexIntentParser.parse (regex_parser init) text in
  let keyword_result :=
    KeywordIntentParser.parse (keyword_parser init) text in
  let final :=
    if decide (intent regex_result = u "unknown")
    then keyword_result else regex_result in
  ∃ slots,
    SlotExtractor.extract_slots (slot_extractor init) text (intent final)
      = Ok slots
    ∧ invoke init (<[u "text" := PyStr text]> input_dict)
      = Ok (mkOutput (intent final) (confidence final) slots
              (matched_rules final) (extracted_entities final)
              (_generate_reasoning final)).
Proof.
  cbv zeta. cbn [regex_parser keyword_parser slot_extractor init].
  exact (invoke_init_spec input_dict text).
Qed.
End PipelineDecision.

Section PipelineRange.
Import RuleBasedIntentChain.

Lemma decisive_closed_world text : closed_world (decisive text).
Proof.
  unfold decisive. cbv zeta. destruct (decide _) as [Hu|Hv].
  - destruct (keyword_parse_cases KeywordIntentParser.init text init_keys_distinct)
      as [[-> _]|(name & c & Hin & Hpos & ->)].
    + split; [vm_compute; elem_now|]. split; [vm_compute; elem_now|].
      split; [done|]. split; [done|]. by intros [].
    + destruct (init_keyword_score text name c Hin) as [_ Hval].
      unfold closed_world. cbn [intent confidence].
      revert Hpos Hval. generalize (Spec.keyword_score text c).
      intros s Hpos Hval.
      apply elem_of_cons in Hval as [->|Hval]; [by vm_compute in Hpos|].
      clear Hpos.
      repeat (apply elem_of_cons in Hin as [[= -> ->]|Hin]);
        [..|by apply elem_of_nil in Hin];
        (repeat (apply elem_of_cons in Hval as [->|Hval]);
           [..|by apply elem_of_nil in Hval]);
        (split; [vm_compute; elem_now|]); (split; [vm_compute; elem_now|]);
        (split; [split; intros H; by vm_compute in H|]);
        (split; [split; intros H; by vm_compute in H|]); intros _.
      all: eexists _, _; (split; [unfold reasoning_forms; elem_now|]);
        by vm_compute.
  - destruct (regex_parse_cases RegexIntentParser.init text)
      as [Hd|(name & i & m & Hin & Hm)]; [by rewrite Hd in Hv|].
    rewrite Hm. clear Hv Hm. rewrite matched_record.
    unfold closed_world. cbn [intent confidence].
    cbn [RegexIntentParser.patterns RegexIntentParser.init fmap list_fmap fst]
      in Hin.
    repeat (apply elem_of_cons in Hin as [->|Hin]);
      [..|by apply elem_of_nil in Hin];
      (split; [vm_compute; elem_now|]); (split; [vm_compute; elem_now|]);
      (split; [split; intros H; by vm_compute in H|]).
    all: split; [split; intros H; by vm_compute in H|intros _].
    all: eexists _, _; (split; [unfold reasoning_forms; elem_now|]);
      by vm_compute.
Qed.

(** The outputs that [invoke] can produce on the built-in
    configuration, whatever the text: one of four intents, one of five
    confidences, ["unknown"] exactly with confidence 0.0 and exactly
    with the reasoning of no match; otherwise the reasoning names the
    rule type, the intent and the confidence with two decimals, the
    pattern rule type going with confidence 0.9. *)
Theorem invoke_closed_world (input_dict : gmap str pyval) (text : str) :
  ∃ o, invoke init (<[u "text" := PyStr text]> input_dict) = Ok o
    ∧ out_intent o
        ∈ [u "query_order"; u "refund"; u "issue_invoice"; u "unknown"]
    ∧ out_confidence o ∈ [0.0; 0.4; 0.8; 0.9; 1.0]
    ∧ (out_intent o = u "unknown" ↔ out_confidence o = 0.0)
    ∧ (out_intent o = u "unknown"
       ↔ out_reasoning o = u "未匹配到任何规则")
    ∧ (out_intent o ≠ u "unknown" →
       ∃ kind shown,
         (kind, out_confidence o, shown) ∈ reasoning_forms
         ∧ out_reasoning o
           = u "通过" ++ kind ++ u "识别为" ++ out_intent o
               ++ u "，置信度" ++ shown).
Proof.
  destruct (invoke_init_spec input_dict text) as (slots & _ & ->).
  eexists. split; [done|]. apply decisive_closed_world.
Qed.

Lemma decisive_unknown_iff text :
  intent (decisive text) = u "unknown"
  ↔ (∀ rule, rule ∈ Spec.declared RegexIntentParser.init →
       ¬ fires text rule.2)
    ∧ (∀ w, w ∈ Spec.configured_keywords KeywordIntentParser.init →
         ¬ occurs_in w text).
Proof.
  unfold decisive. cbv zeta. destruct (decide _) as [Hu|Hv].
  - pose proof (proj1 (init_regex_parse_default_iff _)
                  (init_regex_unknown text Hu)) as Hd.
    pose proof (init_keyword_known text) as Hk. split.
    + intros Hunk. split; [done|]. intros w Hw Hocc.
      apply (proj2 Hk); [by exists w|done].
    + intros [_ Hno].
      destruct (decide (intent (KeywordIntentParser.parse
                          KeywordIntentParser.init text) = u "unknown"))
        as [|Hne]; [done|].
      apply Hk in Hne as (w & Hw & Hocc). by destruct (Hno w Hw).
  - split; [done|]. intros [Hno _].
    apply (proj2 (init_regex_parse_default_iff _)) in Hno.
    by rewrite Hno in Hv.
Qed.

(** The pipeline answers ["unknown"] exactly when no declared pattern
    matches any part of the text and no configured keyword is a part
    of it. *)
Theorem invoke_unknown_iff (input_dict : gmap str pyval) (text : str) :
  ∃ o, invoke init (<[u "text" := PyStr text]> input_dict) = Ok o
    ∧ (out_intent o = u "unknown"
       ↔ (∀ rule, rule ∈ Spec.declared (regex_parser init) →
            ¬ fires text rule.2)
         ∧ (∀ w, w ∈ Spec.configured_keywords (keyword_parser init) →
              ¬ occurs_in w text)).
Proof.
  destruct (invoke_init_spec input_dict text) as (slots & _ & ->).
  eexists. split; [done|]. apply decisive_unknown_iff.
Qed.

(** Recognition is monotone in the text: a text that contains a
    recognized text is recognized as well, possibly with another
    intent. *)
Theorem recognition_monotone (input_dict input_dict' : gmap str pyval)
    (text text' : str) (o o' : output) :
  occurs_in text text' →
  invoke init (<[u "text" := PyStr text]> input_dict) = Ok o →
  invoke init (<[u "text" := PyStr text']> input_dict') = Ok o' →
  out_intent o ≠ u "unknown" →
  out_intent o' ≠ u "unknown".
Proof.
  intros Hocc Ho Ho' Hknown Hunk.
  destruct (invoke_init_spec input_dict text) as (slots & _ & Hi).
  destruct (invoke_init_spec input_dict' text') as (slots' & _ & Hi').
  rewrite Hi in Ho. rewrite Hi' in Ho'.
  injection Ho as <-. injection Ho' as <-. cbn [out_intent] in *.
  apply Hknown, decisive_unknown_iff.
  apply decisive_unknown_iff in Hunk as [Hrules Hwords]. split.
  - intros rule Hrule (w & Hw & Hm). apply (Hrules rule Hrule).
    exists w. split; [by eapply occurs_in_trans|done].
  - intros w Hw Hw'. apply (Hwords w Hw). by eapply occurs_in_trans.
Qed.
End PipelineRange.

Lemma recognition_monotone_witness :
  RuleBasedIntentChain.invoke RuleBasedIntentChain.init
    (<[u "text" := PyStr (u "退款")]> ∅)
  = Ok (RuleBasedIntentChain.mkOutput (u "refund") 0.9 ∅
          [u "regex_refund_0"] None
          (u "通过正则匹配识别为refund，置信度0.90"))
  ∧ RuleBasedIntentChain.out_intent
      (RuleBasedIntentChain.mkOutput (u "query_order") 0.9
         {[ u "order_id" := Some (u "123456") ]}
         [u "regex_query_order_0"] (Some [Some (u "6")])
         (u "通过正则匹配识别为query_order，置信度0.90"))
    ≠ u "unknown".
Proof.
  split; [by vm_compute|].
  apply (recognition_monotone ∅ ∅ (u "退款") (u "查订单123456退款")
           (RuleBasedIntentChain.mkOutput (u "refund") 0.9 ∅
              [u "regex_refund_0"] None
              (u "通过正则匹配识别为refund，置信度0.90"))).
  - exists (u "查订单123456"), []. by vm_compute.
  - by vm_compute.
  - by vm_compute.
  - intros H. by vm_compute in H.
Defined.

Section RefundRecognized.
Import RuleBasedIntentChain.

Lemma matches_dots (b : str) : 10%N ∉ b → matches (Repeat true 0 None Dot) b.
Proof.
  intros Hb. exists ((λ d, [d]) <$> b). split; [|split; [|split; [lia|done]]].
  - clear Hb. induction b as [|d b IH]; [done|]. cbn. by rewrite <- IH.
  - induction b as [|d b IH]; [constructor|].
    apply not_elem_of_cons in Hb as [Hd Hb]. cbn. constructor; [|by apply IH].
    by exists d.
Qed.

(** Each of the three patterns of the order query needs the word
    [订单] in what it matches. *)
Lemma query_order_needs_order rule w :
  rule ∈ take 3 (Spec.declared RegexIntentParser.init) →
  matches rule.2 w → occurs_in (u "订单") w.
Proof.
  intros Hin Hw. vm_compute in Hin.
  repeat (apply elem_of_cons in Hin as [->|Hin]);
    [..|by apply elem_of_nil in Hin]; cbn [snd matches] in Hw.
  - destruct Hw as (w1 & w2 & -> & -> & w3 & w4 & -> & _
                    & w5 & w6 & -> & -> & w7 & w8 & -> & -> & _).
    exists ([26597%N] ++ w3), w8. by rewrite <- !(assoc_L (++)).
  - destruct Hw as (w1 & w2 & -> & -> & w3 & w4 & -> & -> & _).
    by exists [], w4.
  - destruct Hw as (w1 & w2 & -> & -> & w3 & w4 & -> & ->
                    & w5 & w6 & -> & -> & w7 & w8 & -> & -> & _).
    by exists [25105%N; 30340%N], w8.
Qed.

(** A sufficient condition in terms of the text alone: when the text
    has the character [退] followed, on the same line, by the character
    [款], and nowhere the word [订单], the pipeline answers with the
    refund intent by the first refund pattern: confidence 0.9, no
    entities, no order number among the slots. *)
Theorem refund_recognized (input_dict : gmap str pyval) (text a b c : str) :
  text = a ++ u "退" ++ b ++ u "款" ++ c →
  10%N ∉ b →
  ¬ occurs_in (u "订单") text →
  ∃ slots,
    invoke init (<[u "text" := PyStr text]> input_dict)
    = Ok (mkOutput (u "refund") 0.9 slots [u "regex_refund_0"] None
            (u "通过正则匹配识别为refund，置信度0.90"))
    ∧ slots !! u "order_id" = None.
Proof.
  intros Htext Hb Hno.
  assert (Hfires : fires text (pat "退.*款")).
  { exists (u "退" ++ b ++ u "款"). split.
    - exists a, c. by rewrite Htext, <- !(assoc_L (++)).
    - exists (u "退"), (b ++ u "款"). split; [done|]. split; [done|].
      exists b, (u "款"). split; [done|]. split; [by apply matches_dots|done]. }
  destruct (init_regex_parse_fired text 3 (u "refund") 0%nat (pat "退.*款"))
    as (m & Hm & Hparse); [done|done| |].
  { intros j rule Hj Hrule (w & Hocc & Hw).
    apply Hno, (occurs_in_trans _ w); [|done].
    apply (query_order_needs_order rule); [|done].
    apply (list_elem_of_lookup_2 _ j). rewrite lookup_take_lt by done. done. }
  assert (Hdec : decisive text
                 = mkIntentResult (u "refund") 0.9 [u "regex_refund_0"] None).
  { unfold decisive. rewrite Hparse, matched_record. cbv zeta.
    rewrite decide_False by (cbn [intent]; intros H; by vm_compute in H).
    pose proof (search_groups_length _ _ _ Hm) as Hlen.
    apply length_zero_iff_nil in Hlen. by rewrite decide_True. }
  destruct (invoke_init_spec input_dict text) as (slots & Hslots & ->).
  rewrite Hdec in *. cbn [intent confidence matched_rules extracted_entities] in *.
  exists slots. split; [done|].
  destruct (extract_slots_spec SlotExtractor.init text (u "refund")
              init_well_formed) as (slots' & Hs & Hval & _).
  rewrite Hslots in Hs. injection Hs as <-. rewrite Hval.
  unfold Spec.slot_value.
  apply eq_None_not_Some. intros [v Hv].
  apply bind_Some in Hv as (ps & Hps & Hv).
  apply bind_Some in Hv as (p & Hp & Hv).
  apply bind_Some in Hv as (m' & Hm' & _).
  vm_compute in Hps. injection Hps as <-.
  apply elem_of_list_to_map_2 in Hp.
  apply elem_of_cons in Hp as [[= ->]|Hp].
  2:{ repeat (apply elem_of_cons in Hp as [Hp|Hp]; [by vm_compute in Hp|]).
      by apply elem_of_nil in Hp. }
  destruct (search_sound _ _ _ Hm') as (Hocc & Hw & _).
  apply Hno. destruct Hocc as (pre & suf & -> & _).
  apply (occurs_in_trans _ (group0 m')); [|by exists pre, suf].
  destruct Hw as (w1 & w2 & -> & -> & w3 & w4 & -> & -> & _).
  by exists [], w4.
Qed.
End RefundRecognized.

Lemma refund_recognized_witness :
  ∃ slots,
    RuleBasedIntentChain.invoke RuleBasedIntentChain.init
      (<[u "text" := PyStr (u "我要退款")]> ∅)
    = Ok (RuleBasedIntentChain.mkOutput (u "refund") 0.9 slots
            [u "regex_refund_0"] None
            (u "通过正则匹配识别为refund，置信度0.90"))
    ∧ slots !! u "order_id" = None.
Proof.
  apply (refund_recognized ∅ (u "我要退款") (u "我要") [] []).
  - by vm_compute.
  - apply not_elem_of_nil.
  - intros Hocc. apply str_contains_spec in Hocc. by vm_compute in Hocc.
Defined.

(** ** The Excel recognizer *)

Section ExcelOutcome.
Import ExcelIntentRecognizer.
Context {row : Type} (_parse_sheet_data : sheet_call → pyresult (list row)).

(** Every way in which [parse] can end.  It reads at most one sheet,
    and only when triggered, for a configured Excel type, with a path
    and a sheet name that are not empty; it has a result exactly when
    that one analysis returns: confidence 1.0, the recognizer's name,
    the arguments of the analysis as metadata and the number of parsed
    rows as [result_count]; an exception of the analysis is
    swallowed. *)
Theorem parse_outcome (self : t) (text : str)
    (context : option (gmap str pyval)) :
  let out := parse _parse_sheet_data self text context in
  out = (None, [])
  ∨ ∃ call,
      out.2 = [call]
      ∧ truthy (dict_get (default ∅ context) (u "trigger_excel") (PyBool false))
        = true
      ∧ is_Some (type_config self (call_excel_type call))
      ∧ truthy (call_execl_path call) = true
      ∧ truthy (call_sheet_name call) = true
      ∧ match _parse_sheet_data call with
        | Ok parsed_data =>
            out.1 = Some (mkResult (u "excel_interruption_analysis") 1.0
                            (name self)
                            (mkMetadata (call_execl_path call)
                               (call_sheet_name call)
                               (call_duration_threshold call)
                               (call_ignore_no_interruption call)
                               (call_excel_type call)
                               (length parsed_data) parsed_data))
        | Raise _ => out.1 = None
        end.
Proof.
  cbv zeta. unfold parse.
  destruct (truthy (dict_get _ (u "trigger_excel") _)) eqn:Htrigger;
    cbn [negb]; [|by left].
  destruct (type_config self _) as [cfg|] eqn:Hcfg; [|by left].
  destruct (truthy (dict_get _ (u "execl_path") _)) eqn:Hpath;
    cbn [negb orb]; [|by left].
  destruct (truthy (dict_get _ (u "sheet_name") _)) eqn:Hsheet;
    cbn [negb]; [|by left].
  right. eexists. split.
  - by destruct (_parse_sheet_data _).
  - cbn [call_excel_type call_execl_path call_sheet_name
         call_duration_threshold call_ignore_no_interruption].
    rewrite Hcfg, Hpath, Hsheet. split; [done|]. split; [by eexists|].
    split; [done|]. split; [done|].
    by destruct (_parse_sheet_data _).
Qed.

(** A recognizer built without configuration, or from a configuration
    that declares no Excel type, never reads a sheet and never has a
    result, whatever the context provides. *)
Theorem parse_without_excel_types (re_compile : pyval → pyresult unit)
    (config : option (option excel_analyzer)) (name : str) (self : t)
    (text : str) (context : option (gmap str pyval)) :
  init re_compile config name = Ok self →
  (∀ excel_config, config = Some (Some excel_config) →
     default ∅ (cfg_excel_types excel_config) = ∅) →
  parse _parse_sheet_data self text context = (None, []).
Proof.
  intros Hinit Hnone.
  assert (Htypes : excel_types_config self = ∅).
  { unfold init in Hinit. cbv zeta in Hinit.
    destruct (re_compile _); [|done].
    cbn [mbind pyresult_bind] in Hinit. injection Hinit as <-.
    destruct config as [[excel_config|]|]; [|done..].
    cbn [excel_types_config]. by apply Hnone. }
  unfold parse. destruct (negb _); [done|].
  unfold type_config. rewrite Htypes.
  by destruct (dict_get _ (u "excel_type") _).
Qed.
End ExcelOutcome.

Lemma parse_without_excel_types_witness :
  ExcelIntentRecognizer.init (λ _, Ok ()) None (u "ExcelIntentRecognizer")
  = Ok (ExcelIntentRecognizer.mk (u "ExcelIntentRecognizer") (PyFloat 15.0)
          (PyBool true) (PyStr (u "merged"))
          (PyStr ExcelIntentRecognizer.default_segment_pattern) ∅)
  ∧ ExcelIntentRecognizer.parse (λ _, Ok ([] : list unit))
      (ExcelIntentRecognizer.mk (u "ExcelIntentRecognizer") (PyFloat 15.0)
         (PyBool true) (PyStr (u "merged"))
         (PyStr ExcelIntentRecognizer.default_segment_pattern) ∅)
      (u "")
      (Some {[ u "trigger_excel" := PyBool true;
               u "execl_path" := PyStr (u "data.xlsx");
               u "sheet_name" := PyStr (u "Sheet1") ]})
    = (None, []).
Proof.
  split; [reflexivity|].
  apply (parse_without_excel_types _ (λ _, Ok ()) None
           (u "ExcelIntentRecognizer")).
  - reflexivity.
  - intros excel_config [=].
Defined.

(** ** The duration cells *)

Section DurationMatch.
Context {A : Type}.

(** A set of characters matches one character, a member of the set. *)
Lemma rmatch_one_of cs c s x (k : str → captures → option A) :
  rmatch (one_of cs c) s x k =
    match s with
    | d :: s' => if bool_decide (d ∈ cs ++ [c]) then k s' x else None
    | [] => None
    end.
Proof.
  unfold one_of. induction cs as [|a cs IH]; cbn [foldr rmatch app].
  - destruct s as [|d s']; [done|].
    destruct (N.eqb_spec c d) as [->|Hne].
    + by rewrite bool_decide_eq_true_2 by apply list_elem_of_here.
    + rewrite bool_decide_eq_false_2; [done|].
      by intros ->%list_elem_of_singleton.
  - rewrite IH. destruct s as [|d s']; [done|].
    destruct (N.eqb_spec a d) as [->|Hne].
    + rewrite (bool_decide_eq_true_2 (d ∈ d :: cs ++ [c]))
        by apply list_elem_of_here.
      destruct (k s' x); [done|]. by destruct (bool_decide _).
    + destruct (decide (d ∈ cs ++ [c])) as [Hin|Hout].
      * rewrite (bool_decide_eq_true_2 (d ∈ cs ++ [c])) by done.
        by rewrite (bool_decide_eq_true_2 (d ∈ a :: cs ++ [c]))
          by (by apply list_elem_of_further).
      * rewrite (bool_decide_eq_false_2 (d ∈ cs ++ [c])) by done.
        rewrite (bool_decide_eq_false_2 (d ∈ a :: cs ++ [c])); [done|].
        by intros [->|?]%elem_of_cons.
Qed.

Lemma duration_char_set d :
  bool_decide (d ∈ [48; 49; 50; 51; 52; 53; 54; 55; 56; 57]%N ++ [46%N])
  = duration_char d.
Proof.
  unfold duration_char. destruct (_ || _) eqn:Hd.
  - apply bool_decide_eq_true_2.
    apply orb_true_iff in Hd as [[Hlo Hhi]%andb_true_iff|Hp].
    + apply N.leb_le in Hlo, Hhi.
      assert (d = 48 ∨ d = 49 ∨ d = 50 ∨ d = 51 ∨ d = 52 ∨ d = 53 ∨ d = 54
              ∨ d = 55 ∨ d = 56 ∨ d = 57)%N as Hcases by lia.
      cbn [app]. repeat (destruct Hcases as [->|Hcases]); [..|subst d];
        repeat first [apply list_elem_of_here | apply list_elem_of_further].
    + apply N.eqb_eq in Hp as ->. cbn [app].
      repeat first [apply list_elem_of_here | apply list_elem_of_further].
  - apply bool_decide_eq_false_2. intros Hin. cbn [app] in Hin.
    repeat (apply elem_of_cons in Hin as [->|Hin]; [by vm_compute in Hd|]).
    by apply elem_of_nil in Hin.
Qed.

(** The greedy repetition of the set takes the whole leading run, when
    what follows the repetition cannot fail. *)
Lemma repeat_loop_run (k : str → captures → option A) :
  (∀ s cs, is_Some (k s cs)) →
  ∀ s fuel count cs,
    (length s < fuel)%nat →
    repeat_loop
      (rmatch (one_of [48; 49; 50; 51; 52; 53; 54; 55; 56; 57]%N 46%N))
      true 1 None k fuel count s cs
    = if decide (count = 0%nat ∧ leading_run s = []) then None
      else k (drop (length (leading_run s)) s) cs.
Proof.
  intros Hk. induction s as [|d s IH]; intros fuel count cs Hfuel;
    (destruct fuel as [|fuel]; [cbn [length] in Hfuel; lia|]);
    cbn [repeat_loop below leading_run]; rewrite !rmatch_one_of.
  - destruct count as [|count]; cbn [Nat.ltb Nat.leb].
    + by rewrite decide_True.
    + by rewrite decide_False by (intros [[=] _]).
  - rewrite !duration_char_set. cbn [length] in Hfuel.
    assert (Hlen : (length s =? S (length s))%nat = false)
      by (apply Nat.eqb_neq; lia).
    cbn [length andb]. rewrite Hlen, !IH by lia.
    rewrite !(decide_False (P := S _ = 0%nat ∧ _)) by (intros [[=] _]).
    destruct (duration_char d) eqn:Hd; cbn [length drop].
    + rewrite (decide_False (P := _ ∧ d :: _ = [])) by (by intros [_ [=]]).
      destruct count as [|count]; cbn [Nat.ltb Nat.leb]; [done|].
      by destruct (Hk (drop (length (leading_run s)) s) cs) as [y ->].
    + destruct count as [|count]; cbn [Nat.ltb Nat.leb].
      * by rewrite decide_True.
      * by rewrite decide_False by (intros [[=] _]).
Qed.
End DurationMatch.

Lemma leading_run_take s : take (length (leading_run s)) s = leading_run s.
Proof.
  induction s as [|d s IH]; [done|]. cbn [leading_run].
  destruct (duration_char d); [|done]. cbn. by rewrite IH.
Qed.

(** The leading run by what it is: a prefix of characters of the set
    that no such character follows. *)
Lemma leading_run_spec s :
  ∃ rest, s = leading_run s ++ rest
    ∧ Forall (λ c, duration_char c = true) (leading_run s)
    ∧ (∀ c, head rest = Some c → duration_char c = false).
Proof.
  induction s as [|d s (rest & Hs & Hrun & Hrest)]; cbn [leading_run].
  - exists []. split; [done|]. split; [constructor|]. by intros c [=].
  - destruct (duration_char d) eqn:Hd.
    + exists rest. split; [cbn; by rewrite <- Hs|].
      split; [by constructor|done].
    + exists (d :: s). split; [done|]. split; [constructor|].
      by intros c [= <-].
Qed.

Lemma leading_run_unique run rest :
  Forall (λ c, duration_char c = true) run →
  (∀ c, head rest = Some c → duration_char c = false) →
  leading_run (run ++ rest) = run.
Proof.
  intros Hrun Hrest. induction Hrun as [|c run Hc _ IH]; cbn [app leading_run].
  - destruct rest as [|c rest]; [done|]. cbn [leading_run].
    by rewrite (Hrest c eq_refl).
  - by rewrite Hc, IH.
Qed.

(** What [re.match] finds with the duration pattern: the leading run,
    as the whole match and as group 1; nothing when it is empty. *)
Lemma match_duration s :
  Re.match_ ExcelIntentRecognizer.duration_pattern s =
    match leading_run s with
    | [] => None
    | run => Some (mkMatch run [Some run])
    end.
Proof.
  unfold Re.match_, ExcelIntentRecognizer.duration_pattern.
  cbn [rmatch ngroups Nat.max replicate].
  rewrite repeat_loop_run; [|by eexists|lia].
  destruct (decide _) as [[_ Hnil]|Hrun]; [by rewrite Hnil|].
  assert (Hcons : consumed s (drop (length (leading_run s)) s) = leading_run s).
  { unfold consumed. rewrite length_drop.
    pose proof (f_equal length (leading_run_take s)) as Hlen.
    rewrite length_take in Hlen.
    replace (length s - (length s - length (leading_run s)))%nat
      with (length (leading_run s)) by lia.
    apply leading_run_take. }
  rewrite Hcons. unfold set_capture. cbn.
  destruct (leading_run s) as [|c run]; [|done].
  destruct Hrun. by split.
Qed.

Section DurationCells.
Import ExcelIntentRecognizer.
Context (str_other : pyval → pyresult str) (py_float : str → pyresult float).

(** A cell of the duration column.  A missing cell, [None] or NaN,
    gives [None].  Of the text of any other cell, only the longest
    leading run of digits and points counts: an empty run gives [None]
    and [float] is not called; otherwise the run, and nothing of what
    follows it, is passed to [float], whose result is returned, or
    [None] when it raises a [ValueError]. *)
Theorem parse_duration_text (duration_str : pyval) (s : str) :
  (isna duration_str = true →
   _parse_duration str_other py_float duration_str = Ok None)
  ∧ (isna duration_str = false → py_str str_other duration_str = Ok s →
     _parse_duration str_other py_float duration_str =
       match leading_run s with
       | [] => Ok None
       | run =>
           match py_float run with
           | Ok f => Ok (Some f)
           | Raise ValueError | Raise AttributeError => Ok None
           | Raise e => Raise e
           end
       end)
  ∧ (∃ rest, s = leading_run s ++ rest
       ∧ Forall (λ c, duration_char c = true) (leading_run s)
       ∧ (∀ c, head rest = Some c → duration_char c = false))
  ∧ (∀ run rest,
       s = run ++ rest →
       Forall (λ c, duration_char c = true) run →
       (∀ c, head rest = Some c → duration_char c = false) →
       leading_run s = run).
Proof.
  split; [|split; [|split]].
  - intros Hna. unfold _parse_duration. by rewrite Hna.
  - intros Hna Hstr. unfold _parse_duration. rewrite Hna, Hstr.
    cbn [mbind pyresult_bind]. rewrite match_duration.
    destruct (leading_run s) as [|c run]; [done|].
    cbn [group1 groups mbind pyresult_bind].
    by destruct (py_float (c :: run)) as [f|[]].
  - apply leading_run_spec.
  - intros run rest -> Hrun Hrest. by apply leading_run_unique.
Qed.
End DurationCells.

(** The two formats that the documentation of [_parse_duration] names,
    a text that starts with a sign, and one with two points. *)
Example match_duration_examples :
  Re.match_ ExcelIntentRecognizer.duration_pattern (u "0.15(0.15)")
    = Some (mkMatch (u "0.15") [Some (u "0.15")])
  ∧ Re.match_ ExcelIntentRecognizer.duration_pattern
      (u "1.0(0.15,0.15,0.15,0.15)")
    = Some (mkMatch (u "1.0") [Some (u "1.0")])
  ∧ Re.match_ ExcelIntentRecognizer.duration_pattern (u "-0.15") = None
  ∧ Re.match_ ExcelIntentRecognizer.duration_pattern (u "1.2.3 分钟")
    = Some (mkMatch (u "1.2.3") [Some (u "1.2.3")]).
Proof. repeat split; by vm_compute. Qed.
